(** * VeoFlow backend: the video-generation job engine

    Shallow embedding of [services/googleVideoService.js] (the class
    [GoogleVideoService]) and of the two methods of [services/gcsService.js]
    it calls.  The engine keeps an in-memory registry of jobs, starts a
    background "driving sequence" per job (submit, poll, extract, store,
    fall back to a placeholder on failure) and answers status queries.
    Around the engine, the file also embeds what calls it and the rest of
    what it calls: the other two requests of [services/gcsService.js],
    [middleware/auth.js], the handlers of [controllers/videoController.js]
    that submit a job and query one, with their routes, and [getJobStatus]
    of [services/videoGenerationService.js].

    Conventions of the embedding:
    - [undefined] and [null] are both [None], except where the program
      behaves differently on the two ([Js.Maybe]); a JavaScript string is
      a [string]; truthiness is [Js.truthy] (the empty string is falsy).
    - JavaScript numbers are IEEE doubles.  Integer-valued fields are kept
      as [Z]; where the source divides or multiplies, the operation is done
      on [spec_float] at binary64 and floored, as the source does.
    - An [async] function is a resumption: it runs until its next [await],
      where the event loop may run other tasks, and is resumed later.
    - Everything the service does not own (credentials, clock, random
      numbers, the OAuth client, the Veo endpoints, the bucket, the faults
      of the disk) is read from an environment record [Env]; theorems
      quantify over it.
    - The local file system is a set of directories and a finite map from
      paths (POSIX, relative to [process.cwd()]) to buffers.  A call into
      it throws when the paths do not allow it (a directory that is not
      there, a regular file in the way) or when the environment has it
      fail (permissions, a full or read-only disk).
    - Console output is left out; what is computed for it and can throw is
      kept. *)

From Stdlib Require Import ZArith Floats.SpecFloat.
From stdpp Require Import gmap strings list fin_maps pretty.

Local Open Scope Z_scope.

(** ** JavaScript values *)

Module Js.

(** binary64 *)
Definition prec : Z := 53.
Definition emax : Z := 1024.

Definition number (n : Z) : spec_float := binary_normalize prec emax n 0 false.
Definition div : spec_float → spec_float → spec_float := SFdiv prec emax.
Definition mul : spec_float → spec_float → spec_float := SFmul prec emax.

(** [Math.floor] of a finite double, as an integer. *)
Definition floor (x : spec_float) : Z :=
  match x with
  | S754_finite s m e =>
      let v := if s then Z.neg m else Z.pos m in
      if 0 <=? e then v * 2 ^ e else v `div` 2 ^ (- e)
  | _ => 0
  end.

(** [!!v] for a value that is a string, [undefined] or [null]. *)
Definition truthy (v : option string) : bool :=
  match v with
  | Some s => negb (String.eqb s "")
  | None => false
  end.

(** [a || b] *)
Definition or (a b : option string) : option string :=
  if truthy a then a else b.

(** [`${v}`] inside a template literal *)
Definition template (v : option string) : string := default "undefined" v.

(** A value on which the next property read throws if it is not there,
    with a message that says whether it is [undefined] or [null]. *)
Inductive Maybe (A : Type) : Type :=
| Undefined
| Null
| Just (a : A).
Global Arguments Undefined {A}.
Global Arguments Null {A}.
Global Arguments Just {A} a.

(** The message of the [TypeError] for [v.property], [v] not there. *)
Definition cannotRead (isNull : bool) (property : string) : string :=
  "Cannot read properties of " +:+ (if isNull then "null" else "undefined")
    +:+ " (reading '" +:+ property +:+ "')".

(** The properties every object literal inherits from [Object.prototype]. *)
Definition objectPrototypeKeys : list string :=
  [ "constructor"; "__defineGetter__"; "__defineSetter__"; "hasOwnProperty";
    "__lookupGetter__"; "__lookupSetter__"; "isPrototypeOf";
    "propertyIsEnumerable"; "toString"; "valueOf"; "__proto__";
    "toLocaleString" ].

Definition inherited (key : string) : bool :=
  bool_decide (key ∈ objectPrototypeKeys).

(** What a property read on a literal with numeric own properties yields:
    a number, or a member of [Object.prototype] (a function or an object:
    truthy, and [NaN] in arithmetic). *)
Inductive Value : Type :=
| Num (n : Z)
| Member (key : string).

(** [obj[key]]: own properties first, then the prototype. *)
Definition get (own : gmap string Z) (key : string) : option Value :=
  match own !! key with
  | Some n => Some (Num n)
  | None => if inherited key then Some (Member key) else None
  end.

End Js.

(** ** Data model *)

(** [job.status]; the registry itself only ever stores the last three. *)
Inductive Status : Type := queued | processing | completed | failed.

Global Instance Status_eq_dec : EqDecision Status.
Proof. solve_decision. Defined.

Record Captions : Type := {
  enabled : bool;
  type : option string;
  fontSize : option string;
}.

(** The fields of [options] the service reads. *)
Record Options : Type := {
  duration : option Z;
  quality : option string;
  captions : option Captions;
  projectId : option string;
}.

Record Job : Type := {
  status : Status;
  prompt : string;
  options : Options;
  startTime : Z;
  progress : Z;
  completedAt : option Z;
  videoPath : option string;
  gcsFileName : option string;
  videoUrl : option string;
  error : option string;
}.

Definition set_status (v : Status) (j : Job) : Job :=
  {| status := v; prompt := prompt j; options := options j;
     startTime := startTime j; progress := progress j;
     completedAt := completedAt j; videoPath := videoPath j;
     gcsFileName := gcsFileName j; videoUrl := videoUrl j; error := error j |}.

Definition set_progress (v : Z) (j : Job) : Job :=
  {| status := status j; prompt := prompt j; options := options j;
     startTime := startTime j; progress := v;
     completedAt := completedAt j; videoPath := videoPath j;
     gcsFileName := gcsFileName j; videoUrl := videoUrl j; error := error j |}.

Definition set_completedAt (v : option Z) (j : Job) : Job :=
  {| status := status j; prompt := prompt j; options := options j;
     startTime := startTime j; progress := progress j;
     completedAt := v; videoPath := videoPath j;
     gcsFileName := gcsFileName j; videoUrl := videoUrl j; error := error j |}.

Definition set_videoPath (v : option string) (j : Job) : Job :=
  {| status := status j; prompt := prompt j; options := options j;
     startTime := startTime j; progress := progress j;
     completedAt := completedAt j; videoPath := v;
     gcsFileName := gcsFileName j; videoUrl := videoUrl j; error := error j |}.

Definition set_gcsFileName (v : option string) (j : Job) : Job :=
  {| status := status j; prompt := prompt j; options := options j;
     startTime := startTime j; progress := progress j;
     completedAt := completedAt j; videoPath := videoPath j;
     gcsFileName := v; videoUrl := videoUrl j; error := error j |}.

Definition set_videoUrl (v : option string) (j : Job) : Job :=
  {| status := status j; prompt := prompt j; options := options j;
     startTime := startTime j; progress := progress j;
     completedAt := completedAt j; videoPath := videoPath j;
     gcsFileName := gcsFileName j; videoUrl := v; error := error j |}.

Definition set_error (v : option string) (j : Job) : Job :=
  {| status := status j; prompt := prompt j; options := options j;
     startTime := startTime j; progress := progress j;
     completedAt := completedAt j; videoPath := videoPath j;
     gcsFileName := gcsFileName j; videoUrl := videoUrl j; error := v |}.

(** [Buffer.from(text, 'base64')]: a buffer is kept as the text it decodes. *)
Inductive Buffer : Type := Base64 (text : string).

(** What an observer of the engine records, in program order: every
    assignment to [job.progress], every delay, every request to the
    provider.  The log is not program state: no function below reads it. *)
Inductive Action : Type :=
| SetProgress (value : Z)
| Sleep (ms : Z)
| Submit (enhancedPrompt videoDuration : string)
| Poll (pollCount : nat).

Record World : Type := {
  jobs : gmap string Job;          (* this.jobs *)
  files : gmap string Buffer;      (* regular files under process.cwd() *)
  dirs : gset string;              (* directories under process.cwd() *)
  log : list (string * Action);    (* (jobId, action) *)
}.

(** ** The environment *)

(** A promise handed back by the outside world, already settled one way
    or the other by the time it is awaited. *)
Inductive Outcome (A : Type) : Type :=
| Resolved (value : A)
| Rejected (message : string).
Global Arguments Resolved {A} value.
Global Arguments Rejected {A} message.

(** A provider result.  [asJson] is its [JSON.stringify] rendering. *)
Record Video : Type := {
  video_bytesBase64Encoded : option string;
  video_asJson : string;
}.

Record Prediction : Type := {
  prediction_video : option string;
  prediction_bytesBase64Encoded : option string;
  prediction_asJson : string;
}.

(** In the two arrays, [None] is an element that is [null]. *)
Record Result : Type := {
  videos : option (list (option Video));
  predictions : option (list (option Prediction));
  result_asJson : string;
}.

(** [startResponse.data] *)
Record StartData : Type := {
  start_done : bool;
  start_name : option string;
  start_response : Js.Maybe Result;
}.

(** [opResponse.data]; [op_error] is the rendering of [data.error]. *)
Record OpData : Type := {
  op_done : bool;
  op_response : option Result;
  op_error : option string;
}.

(** A rejected request also stands for a response on which a property
    read throws.  A fault is the message of the error that a call into a
    library throws, [None] if the call goes through: for the disk, on
    paths that allow the operation ([EACCES], [EROFS], [ENOSPC], ...); for
    [JSON.stringify], on the details of a caught error, by the message of
    that error (an error made here with [new Error] renders as ["{}"];
    one that comes from a library is the library's). *)
Record Env : Type := {
  keyFilePath : option string;     (* process.env.GOOGLE_APPLICATION_CREDENTIALS *)
  randomSuffix : string;           (* Math.random().toString(36).substr(2, 9) *)
  nowJobId : Z;                    (* Date.now() in generateJobId *)
  nowStart : Z;                    (* Date.now() for startTime *)
  nowCompleted : Z;                (* Date.now() for completedAt *)
  nowUpload : Z;                   (* Date.now() in uploadVideo *)
  authClient : Outcome unit;                 (* this.auth.getClient() *)
  accessToken : Outcome (option string);     (* (client.getAccessToken()).token *)
  startResponse : Outcome StartData;         (* POST :predictLongRunning *)
  pollClient : nat → Outcome unit;           (* by pollCount *)
  pollToken : nat → Outcome (option string);
  opResponse : nat → Outcome OpData;         (* POST :fetchPredictOperation *)
  bucketUpload : Outcome unit;               (* this.bucket.upload(...) *)
  bucketSignedUrl : Outcome string;          (* file.getSignedUrl(...) after upload *)
  cwd : string;                              (* process.cwd() *)
  mkdirFault : option string;                (* fs.mkdirSync(uploadDir, ...) *)
  writeFault : string → Buffer → option string;   (* fs.writeFileSync(path, data) *)
  stringifyFault : string → option string;   (* JSON.stringify(error.response?.data || error, null, 2) *)
}.

(** ** Asynchronous functions *)

(** How a function body ends: [return a] or [throw new Error(message)]. *)
Inductive Res (A : Type) : Type :=
| Return (a : A)
| Throw (message : string).
Global Arguments Return {A} a.
Global Arguments Throw {A} message.

(** An asynchronous call in progress: finished, or suspended at an
    [await] with the world as it stood then and the rest of the body. *)
Inductive Run (A : Type) : Type :=
| Done (r : Res A) (w : World)
| Paused (w : World) (k : World → Run A).
Global Arguments Done {A} r w.
Global Arguments Paused {A} w k.

Definition Async (A : Type) : Type := World → Run A.

Fixpoint bindRun {A B} (r : Run A) (f : A → Async B) : Run B :=
  match r with
  | Done (Return a) w => f a w
  | Done (Throw e) w => Done (Throw e) w
  | Paused w k => Paused w (λ w', bindRun (k w') f)
  end.

Fixpoint catchRun {A} (r : Run A) (h : string → Async A) : Run A :=
  match r with
  | Done (Return a) w => Done (Return a) w
  | Done (Throw e) w => h e w
  | Paused w k => Paused w (λ w', catchRun (k w') h)
  end.

Global Instance Async_ret : MRet Async := λ A a w, Done (Return a) w.
Global Instance Async_bind : MBind Async := λ A B f m w, bindRun (m w) f.

Definition throw {A} (message : string) : Async A :=
  λ w, Done (Throw message) w.

(** [try { body } catch (error) { handler(error.message) }] *)
Definition tryCatch {A} (body : Async A) (handler : string → Async A) : Async A :=
  λ w, catchRun (body w) handler.

(** One turn of the event loop. *)
Definition pause : Async unit :=
  λ w, Paused w (λ w', Done (Return tt) w').

(** [await p] for a promise settled by the environment. *)
Definition await {A} (p : Outcome A) : Async A :=
  pause ;;
  match p with
  | Resolved a => mret a
  | Rejected e => throw e
  end.

(** [await f(...)] for an [async] method [f] of this program: the body of
    [f] runs at once up to its first [await]; its completion reaches the
    caller on a later turn. *)
Definition awaitCall {A} (call : Async A) : Async A :=
  r ← tryCatch (a ← call; mret (Return a)) (λ e, mret (Throw e));
  pause ;;
  match r with
  | Return a => mret a
  | Throw e => throw e
  end.

(** The scheduler that resumes a task as soon as it pauses, with nothing
    run in between: the worlds seen at the pauses, and how the task ends. *)
Fixpoint complete {A} (r : Run A) : list World * (Res A * World) :=
  match r with
  | Done res w => ([], (res, w))
  | Paused w k => let '(seen, out) := complete (k w) in (w :: seen, out)
  end.

Definition observations {A} (r : Run A) : list World := (complete r).1.
Definition result {A} (r : Run A) : Res A := (complete r).2.1.
Definition final {A} (r : Run A) : World := (complete r).2.2.

(** The world as it stands when control comes back to the caller. *)
Definition current {A} (r : Run A) : World :=
  match r with
  | Done _ w => w
  | Paused w _ => w
  end.

(** The general scheduler: between a pause and the resumption other tasks
    may have changed the world, within [rely]. *)
Inductive runs {A} (rely : relation World) :
    Run A → list World → Res A → World → Prop :=
| runs_Done res w :
    runs rely (Done res w) [] res w
| runs_Paused w w1 k seen res w' :
    rely w w1 →
    runs rely (k w1) seen res w' →
    runs rely (Paused w k) (w :: seen) res w'.

(** ** Primitive steps *)

Definition getJob (jobId : string) : Async (option Job) :=
  λ w, Done (Return (jobs w !! jobId)) w.

Definition update (f : World → World) : Async unit :=
  λ w, Done (Return tt) (f w).

Definition emit (jobId : string) (a : Action) : Async unit :=
  update (λ w, {| jobs := jobs w; files := files w; dirs := dirs w;
                  log := log w ++ [(jobId, a)] |}).

(** A field assignment through the reference [job] obtained from
    [this.jobs.get(jobId)]: the registry holds the same object. *)
Definition assign (jobId : string) (f : Job → Job) : Async unit :=
  update (λ w, {| jobs := alter f jobId (jobs w); files := files w;
                  dirs := dirs w; log := log w |}).

(** [job.progress = value] *)
Definition setProgress (jobId : string) (value : Z) : Async unit :=
  assign jobId (set_progress value) ;;
  emit jobId (SetProgress value).

(** [await new Promise(resolve => setTimeout(resolve, ms))] *)
Definition sleep (jobId : string) (ms : Z) : Async unit :=
  emit jobId (Sleep ms) ;; pause.

Definition existsSync (path : string) : Async bool :=
  λ w, Done (Return (bool_decide (path ∈ dirs w) || bool_decide (is_Some (files w !! path)))) w.

(** What the operating system finds at [path]: a regular file, a
    directory.  The empty path is [process.cwd()] itself. *)
Definition isFile (path : string) : Async bool :=
  λ w, Done (Return (bool_decide (is_Some (files w !! path)))) w.

Definition isDirectory (path : string) : Async bool :=
  λ w, Done (Return (bool_decide (path = "" ∨ path ∈ dirs w))) w.

(** A call into a library that throws [fault], if there is one. *)
Definition raise (fault : option string) : Async unit :=
  match fault with
  | Some message => throw message
  | None => mret tt
  end.

(** [path.dirname(path)], for a relative path [dir/name]; empty for a
    bare [name]. *)
Fixpoint dirname (path : string) : string :=
  match path with
  | EmptyString => EmptyString
  | String c rest =>
      match String.index 0 "/" rest with
      | Some _ => String c (dirname rest)
      | None => EmptyString
      end
  end.

(** [path.join(process.cwd(), 'uploads', 'videos')], relative to the cwd *)
Definition uploadDir : string := "uploads/videos".

(** [path.join(uploadDir, `${jobId}.mp4`)]; also
    [path.join(process.cwd(), `uploads/videos/${jobId}.mp4`)] *)
Definition videoFile (jobId : string) : string :=
  uploadDir +:+ "/" +:+ jobId +:+ ".mp4".

(** The text of the placeholder in [createPlaceholderVideo]. *)
Definition minimalMP4 : Buffer := Base64 (
  "AAAAIGZ0eXBpc29tAAACAGlzb21pc28yYXZjMW1wNDEAAAAIZnJlZQAACKBtZGF0AAAC" +:+
  "rgYF//+q3EXpvebZSLeWLNgg2SPu73gyNjQgLSBjb3JlIDE0OCByMjc0MyA1Yzc5ZGMy" +:+
  "IC0gSC4yNjQvTVBFRy00IEFWQyBjb2RlYyAtIENvcHlsZWZ0IDIwMDMtMjAxNiAtIGh0" +:+
  "dHA6Ly93d3cudmlkZW9sYW4ub3JnL3gyNjQuaHRtbCAtIG9wdGlvbnM6IGNhYmFjPTEg" +:+
  "cmVmPTMgZGVibG9jaz0xOjA6MCBhbmFseXNlPTB4MzoweDExMyBtZT1oZXggc3VibWU9" +:+
  "NyBwc3k9MSBwc3lfcmQ9MS4wMDowLjAwIG1peGVkX3JlZj0xIG1lX3JhbmdlPTE2IGNo" +:+
  "cm9tYV9tZT0xIHRyZWxsaXM9MSA4eDhkY3Q9MSBjcW09MCBkZWFkem9uZT0yMSwxMSBm" +:+
  "YXN0X3Bza2lwPTEgY2hyb21hX3FwX29mZnNldD0tMiB0aHJlYWRzPTYgbG9va2FoZWFk" +:+
  "X3RocmVhZHM9MSBzbGljZWRfdGhyZWFkcz0wIG5yPTAgZGVjaW1hdGU9MSBpbnRlcmxh" +:+
  "Y2VkPTAgYmx1cmF5X2NvbXBhdD0wIGNvbnN0cmFpbmVkX2ludHJhPTAgYmZyYW1lcz0z" +:+
  "IGJfcHlyYW1pZD0yIGJfYWRhcHQ9MSBiX2JpYXM9MCBkaXJlY3Q9MSB3ZWlnaHRiPTEg" +:+
  "b3Blbl9nb3A9MCB3ZWlnaHRwPTIga2V5aW50PTI1MCBrZXlpbnRfbWluPTI1IHNjZW5l" +:+
  "Y3V0PTQwIGludHJhX3JlZnJlc2g9MCByY19sb29rYWhlYWQ9NDAgcmM9Y3JmIG1idHJl" +:+
  "ZT0xIGNyZj0yMy4wIHFjb21wPTAuNjAgcXBtaW49MCBxcG1heD02OSBxcHN0ZXA9NCBp" +:+
  "cF9yYXRpbz0xLjQwIGFxPTE6MS4wMACAAAAAD2WIhAA3//728P4FNjuZQQAAAu5tb292" +:+
  "AAAAbG12aGQAAAAAAAAAAAAAAAAAAAPoAAAAZAABAAABAAAAAAAAAAAAAAAAAQAAAAAA" +:+
  "AAAAAAAAAAAAAQAAAAAAAAAAAAAAAAAAQAAAAAAAAAAAAAAAAAAAAAAAAAAAAAAAAAAAAAAAAAIAAAIddHJhawAAAFx0a2hkAAAAAwAAAAAAAAAAAAAAAQAAAAAAAABkAAAAAAAAAAAAAAAAAAAAAAABAAAAAAAAAAAAAAAAAAEAAAAAAAAAAAAAAAAAAEAAAAACWAAAAZAAAAAAACRlZHRzAAAAHGVsc3QAAAAAAAAAAQAAAGQAAAAAAAEAAAAAAeFtZGlhAAAAIG1kaGQAAAAAAAAAAAAAAAAAADwAAAAEAFXEAAAAAAAtaGRscgAAAAAAAAAAdmlkZQAAAAAAAAAAAAAAAFZpZGVvSGFuZGxlcgAAAAGMbWluZgAAABR2bWhkAAAAAQAAAAAAAAAAAAAAJGRpbmYAAAAcZHJlZgAAAAAAAAABAAAADHVybCAAAAABAAABTHN0YmwAAAC0c3RzZAAAAAAAAAABAAAApGF2YzEAAAAAAAAAAQAAAAAAAAAAAAAAAAAAAAADIAGQAEgAAABIAAAAAAAAAAEAAAAAAAAAAAAAAAAAAAAAAAAAAAAAAAAAAAAAAAAAAAAY//8AAAAyYXZjQwFkAAr/4QAYZ2QACqzZQDgQAAAAAwAEAAADAPA8WLZYAQAGaOvjyyLAAAAAGHN0dHMAAAAAAAAAAQAAAAEAAAQAAAAAFHN0c3MAAAAAAAAAAQAAAAEAAAAYY3R0cwAAAAAAAAABAAAAAgAABAAAAAAcc3RzYwAAAAAAAAABAAAAAQAAAAEAAAABAAAAFHN0c3oAAAAAAAACOQAAAAEAAAAUc3RjbwAAAAAAAAABAAAAMAAAAGJ1ZHRhAAAAWm1ldGEAAAAAAAAAIWhkbHIAAAAAAAAAAG1kaXJhcHBsAAAAAAAAAAAAAAAALWlsc3QAAAAlqXRvbwAAAB1kYXRhAAAAAQAAAABMYXZmNTYuNDAuMTAx").

(** ** gcsService.js *)

(** [getSignedUrl(fileName, expiresIn)]; [signer] is what the bucket
    answers. *)
Definition getSignedUrl (signer : Outcome string) (fileName : string)
    (expiresIn : Z) : Async string :=
  tryCatch
    (await signer)
    (λ message, throw ("Failed to generate signed URL: " +:+ message)).

Section GoogleVideoService.

Variable env : Env.

(** ** fs *)

(** [path.join(process.cwd(), path)] *)
Definition absolute (path : string) : string :=
  (if String.eqb (cwd env) "/" then "" else cwd env) +:+ "/" +:+ path.

(** The message of the error a call into [fs] throws, with the path the
    call was given. *)
Definition fsError (code description syscall path : string) : string :=
  code +:+ ": " +:+ description +:+ ", " +:+ syscall
    +:+ " '" +:+ absolute path +:+ "'".

(** [fs.mkdirSync(path.join(cwd, 'uploads', 'videos'), { recursive: true })].
    A directory that is there is left as it is.  A regular file in the way
    makes the call throw; with none, whether the directories get made is
    the environment's. *)
Definition mkdirSync_uploads_videos : Async unit :=
  there ← isDirectory uploadDir;
  if negb there then
    blocked ← isFile "uploads";
    if negb blocked then
      taken ← isFile uploadDir;
      if negb taken then
        raise (mkdirFault env) ;;
        update (λ w, {| jobs := jobs w; files := files w;
                        dirs := {["uploads"; "uploads/videos"]} ∪ dirs w;
                        log := log w |})
      else throw (fsError "EEXIST" "file already exists" "mkdir" uploadDir)
    else throw (fsError "ENOTDIR" "not a directory" "mkdir" uploadDir)
  else mret tt.

(** [fs.writeFileSync(path, data)].  The directory of [path] has to be
    there and [path] must not be a directory; then whether the data gets
    written is the environment's. *)
Definition writeFileSync (path : string) (data : Buffer) : Async unit :=
  blocked ← isFile (dirname path);
  if negb blocked then
    inside ← isDirectory (dirname path);
    if negb inside
    then throw (fsError "ENOENT" "no such file or directory" "open" path)
    else
      taken ← isDirectory path;
      if negb taken then
        raise (writeFault env path data) ;;
        update (λ w, {| jobs := jobs w; files := <[path := data]> (files w);
                        dirs := dirs w; log := log w |})
      else throw (fsError "EISDIR" "illegal operation on a directory" "open" path)
  else throw (fsError "ENOTDIR" "not a directory" "open" path).

(** ** gcsService.js, continued *)

(** [uploadVideo(localFilePath, projectId)] *)
Definition uploadVideo (localFilePath projectId : string)
    : Async (string * string) :=
  tryCatch
    (present ← existsSync localFilePath;
     if negb present then throw ("File not found: " +:+ localFilePath)
     else
       let timestamp := nowUpload env in
       let fileName := "videos/" +:+ projectId +:+ "/" +:+ pretty timestamp +:+ ".mp4" in
       await (bucketUpload env) ;;
       signedUrl ← awaitCall (getSignedUrl (bucketSignedUrl env) fileName 86400);
       mret (fileName, signedUrl))
    (λ message, throw ("Failed to upload video to GCS: " +:+ message)).

(** ** googleVideoService.js *)

(** [const maxPolls = 120; // 10 minutes max (120 * 5 seconds)] *)
Definition maxPolls : nat := 120.

(** [getProcessingTime(quality)]: [times[quality] || 60] *)
Definition times : gmap string Z :=
  <["fast" := 30]> (<["standard" := 60]> (<["high" := 120]> ∅)).

Definition getProcessingTime (quality : string) : Js.Value :=
  match Js.get times quality with
  | Some (Js.Num n) => if n =? 0 then Js.Num 60 else Js.Num n
  | Some (Js.Member key) => Js.Member key
  | None => Js.Num 60
  end.

(** [generateJobId()] *)
Definition generateJobId : string :=
  "job_" +:+ pretty (nowJobId env) +:+ "_" +:+ randomSuffix env.

(** [createPlaceholderVideo(jobId, prompt)] *)
Definition createPlaceholderVideo (jobId prompt : string) : Async unit :=
  present ← existsSync uploadDir;
  (if negb present then mkdirSync_uploads_videos else mret tt) ;;
  let filePath := videoFile jobId in
  writeFileSync filePath minimalMP4.

(** [Math.min(20 + Math.floor((pollCount / maxPolls) * 70), 90)] *)
Definition pollProgress (pollCount : nat) : Z :=
  Z.min
    (20 + Js.floor (Js.mul (Js.div (Js.number (Z.of_nat pollCount))
                                   (Js.number (Z.of_nat maxPolls)))
                           (Js.number 70)))
    90.
Global Arguments pollProgress : simpl never.

(** The [while] loop of [processVideoGeneration].  [remaining] is
    [maxPolls - pollCount], the number of iterations the loop condition
    [pollCount < maxPolls] still allows.  The value is [result] on exit:
    set by the [break], [undefined] when the bound is reached. *)
Fixpoint pollLoop (jobId : string) (operationName : option string)
    (remaining pollCount : nat) : Async (option Result) :=
  match remaining with
  | O => mret None
  | S remaining =>
      sleep jobId 5000 ;;
      let pollCount := S pollCount in
      await (pollClient env pollCount) ;;
      await (pollToken env pollCount) ;;
      emit jobId (Poll pollCount) ;;
      opResponse ← await (opResponse env pollCount);
      if op_done opResponse then mret (op_response opResponse)
      else
        match op_error opResponse with
        | Some e => throw ("Veo 3 API error: " +:+ e)
        | None =>
            setProgress jobId (pollProgress pollCount) ;;
            pollLoop jobId operationName remaining pollCount
        end
  end.

(** Decode and save: the same statements in both extraction branches. *)
Definition saveVideo (jobId videoBase64 : string) : Async unit :=
  let videoBuffer := Base64 videoBase64 in
  present ← existsSync uploadDir;
  (if negb present then mkdirSync_uploads_videos else mret tt) ;;
  let videoPath := videoFile jobId in
  writeFileSync videoPath videoBuffer.

(** "Extract and save video", after [job.progress = 95]. *)
Definition extractAndSave (jobId : string) (result : Js.Maybe Result) : Async unit :=
  match result with
  | Js.Undefined => throw (Js.cannotRead false "videos")
  | Js.Null => throw (Js.cannotRead true "videos")
  | Js.Just result =>
      match videos result with
      | Some (video :: _) =>
          match video with
          | None => throw (Js.cannotRead true "bytesBase64Encoded")
          | Some video =>
              let videoBase64 := video_bytesBase64Encoded video in
              if negb (Js.truthy videoBase64)
              then throw ("No video content in videos array: " +:+ video_asJson video)
              else saveVideo jobId (Js.template videoBase64)
          end
      | _ =>
          match predictions result with
          | Some (prediction :: _) =>
              match prediction with
              | None => throw (Js.cannotRead true "video")
              | Some prediction =>
                  let videoBase64 :=
                    Js.or (prediction_video prediction)
                          (prediction_bytesBase64Encoded prediction) in
                  if negb (Js.truthy videoBase64)
                  then throw ("No video content in prediction: "
                              +:+ prediction_asJson prediction)
                  else saveVideo jobId (Js.template videoBase64)
              end
          | _ => throw ("No video content in response: " +:+ result_asJson result)
          end
      end
  end.

(** [options.projectId || 'default'] *)
Definition namespace (options : Options) : string :=
  Js.template (Js.or (projectId options) (Some "default")).

(** The [try] block of [processVideoGeneration]. *)
Definition tryBlock (jobId prompt : string) (options : Options) : Async unit :=
  job ← getJob jobId;
  match job with
  | None => mret tt
  | Some _ =>
      setProgress jobId 10 ;;
      assign jobId (set_status processing) ;;
      (if negb (Js.truthy (keyFilePath env))
       then throw "Google Service Account Key not configured"
       else mret tt) ;;
      await (authClient env) ;;
      token ← await (accessToken env);
      (if negb (Js.truthy token)
       then throw "Failed to get access token"
       else mret tt) ;;
      let enhancedPrompt :=
        match captions options with
        | Some c =>
            if enabled c
            then prompt +:+ ". Generate with " +:+ Js.template (type c)
                   +:+ " style captions/subtitles, "
                   +:+ Js.template (fontSize c) +:+ " font size."
            else prompt
        | None => prompt
        end in
      setProgress jobId 15 ;;
      emit jobId (Submit enhancedPrompt
                    (Js.template (pretty <$> duration options) +:+ "s")) ;;
      startResponse ← await (startResponse env);
      result ←
        (if start_done startResponse then mret (start_response startResponse)
         else
           let operationName := start_name startResponse in
           setProgress jobId 20 ;;
           result ← pollLoop jobId operationName maxPolls 0;
           match result with
           | None => throw "Video generation timeout - operation took too long"
           | Some result => mret (Js.Just result)
           end);
      setProgress jobId 95 ;;
      extractAndSave jobId result ;;
      setProgress jobId 100 ;;
      assign jobId (set_status completed) ;;
      assign jobId (set_completedAt (Some (nowCompleted env))) ;;
      let localVideoPath := videoFile jobId in
      assign jobId (set_videoPath (Some ("uploads/videos/" +:+ jobId +:+ ".mp4"))) ;;
      tryCatch
        (uploaded ← awaitCall (uploadVideo localVideoPath (namespace options));
         assign jobId (set_gcsFileName (Some uploaded.1)) ;;
         assign jobId (set_videoUrl (Some uploaded.2)))
        (λ _,
         assign jobId (set_videoUrl None) ;;
         assign jobId (set_gcsFileName None))
  end.

(** The [catch (error)] block of [processVideoGeneration]; [message] is
    [error.message].  For the console it renders the details of the error,
    [JSON.stringify(error.response?.data || error, null, 2)], which may
    throw.  Nothing guards the block: what is thrown in it ends the
    driving sequence. *)
Definition catchBlock (jobId prompt : string) (options : Options)
    (message : string) : Async unit :=
  job ← getJob jobId;
  (match job with
   | Some _ =>
       assign jobId (set_status failed) ;;
       assign jobId (set_error (Some message))
   | None => mret tt
   end) ;;
  raise (stringifyFault env message) ;;
  awaitCall (createPlaceholderVideo jobId prompt) ;;
  fallbackJob ← getJob jobId;
  match fallbackJob with
  | Some _ =>
      setProgress jobId 100 ;;
      assign jobId (set_status completed) ;;
      tryCatch
        (let localPath := videoFile jobId in
         uploaded ← awaitCall (uploadVideo localPath (namespace options));
         assign jobId (set_gcsFileName (Some uploaded.1)) ;;
         assign jobId (set_videoUrl (Some uploaded.2)) ;;
         assign jobId (set_videoPath None))
        (λ _,
         assign jobId (set_videoPath (Some ("uploads/videos/" +:+ jobId +:+ ".mp4"))))
  | None => mret tt
  end.

(** [processVideoGeneration(jobId, prompt, options)] *)
Definition processVideoGeneration (jobId prompt : string) (options : Options)
    : Async unit :=
  tryCatch (tryBlock jobId prompt options) (catchBlock jobId prompt options).

(** What [generateVideo] resolves to. *)
Record Ticket : Type := {
  ticket_status : Status;
  ticket_jobId : string;
  estimatedProcessingTime : Js.Value;
  videoPrompt : string;
}.

(** The record stored by [this.jobs.set(jobId, {...})]. *)
Definition newJob (prompt : string) (options : Options) : Job :=
  {| status := processing; prompt := prompt; options := options;
     startTime := nowStart env; progress := 0;
     completedAt := None; videoPath := None; gcsFileName := None;
     videoUrl := None; error := None |}.

(** [this.jobs.set(jobId, {...})] in [generateVideo] *)
Definition register (jobId prompt : string) (options : Options) (w : World)
    : World :=
  {| jobs := <[jobId := newJob prompt options]> (jobs w);
     files := files w; dirs := dirs w; log := log w |}.

(** [generateVideo(prompt, options)].  The body has no [await]: it runs
    in one piece.  [processVideoGeneration] is called and not awaited, so
    it has run up to its first [await] when [generateVideo] returns; the
    third component is that suspended call, the background task. *)
Definition generateVideo (prompt : string) (options : Options) (w : World)
    : Res Ticket * World * option (Run unit) :=
  if negb (Js.truthy (keyFilePath env)) then
    (Throw ("Video generation failed: " +:+
            "Google Service Account Key not configured. Check GOOGLE_APPLICATION_CREDENTIALS in .env"),
     w, None)
  else
    let quality := default "standard" (quality options) in
    let jobId := generateJobId in
    let task :=
      processVideoGeneration jobId prompt options
        (register jobId prompt options w) in
    (Return {| ticket_status := queued;
               ticket_jobId := jobId;
               estimatedProcessingTime := getProcessingTime quality;
               videoPrompt := prompt |},
     current task, Some task).

(** What [getVideoStatus] resolves to. *)
Record StatusData : Type := {
  sd_jobId : string;
  sd_status : Status;
  sd_progress : Z;
  estimatedTimeRemaining : option Z;     (* [None] is [NaN] *)
  sd_error : option string;
  sd_videoUrl : option string;
  localPath : option string;
}.

(** The object a reference obtained as [job] points to, as it is now. *)
Definition deref (jobId : string) (job : Job) : Async Job :=
  λ w, Done (Return (default job (jobs w !! jobId))) w.

(** [getVideoStatus(jobId)]; [now] is [Date.now()] and [signer] what the
    bucket answers to the request for a signed URL. *)
Definition getVideoStatus (now : Z) (signer : Outcome string) (jobId : string)
    : Async StatusData :=
  tryCatch
    (job ← getJob jobId;
     match job with
     | None => throw "Job not found"
     | Some job =>
         let elapsedTime :=
           Js.floor (Js.div (Js.number (now - startTime job)) (Js.number 1000)) in
         let estimatedTotal :=
           getProcessingTime
             (Js.template (Js.or (quality (options job)) (Some "standard"))) in
         let estimatedTimeRemaining :=
           match estimatedTotal with
           | Js.Num n => Some (Z.max 0 (n - elapsedTime))
           | Js.Member _ => None
           end in
         let localPath := videoPath job in
         videoUrl ←
           (if bool_decide (status job = completed) && Js.truthy (gcsFileName job)
            then
              tryCatch
                (url ← awaitCall (getSignedUrl signer (Js.template (gcsFileName job)) 86400);
                 assign jobId (set_videoUrl (Some url)) ;;
                 mret (Some url))
                (λ _, mret None)
            else if Js.truthy (videoUrl job) then mret (videoUrl job)
            else mret None);
         job ← deref jobId job;
         mret {| sd_jobId := jobId;
                 sd_status := status job;
                 sd_progress := progress job;
                 estimatedTimeRemaining := estimatedTimeRemaining;
                 sd_error := error job;
                 sd_videoUrl := videoUrl;
                 localPath := localPath |}
     end)
    (λ message, throw ("Failed to get video status: " +:+ message)).

(** [getVideoUrl(jobId)] *)
Definition getVideoUrl (signer : Outcome string) (jobId : string)
    : Async (option string) :=
  tryCatch
    (job ← getJob jobId;
     match job with
     | None => throw "Job not found"
     | Some job =>
         if negb (bool_decide (status job = completed))
         then throw "Video not ready yet"
         else if Js.truthy (gcsFileName job)
         then
           url ← awaitCall (getSignedUrl signer (Js.template (gcsFileName job)) 86400);
           mret (Some url)
         else mret (Js.or (videoPath job) (videoUrl job))
     end)
    (λ message, throw ("Failed to retrieve video: " +:+ message)).

End GoogleVideoService.

(** * Specification vocabulary *)

(** ** Reading the log *)

Fixpoint actionsOf (jobId : string) (l : list (string * Action)) : list Action :=
  match l with
  | [] => []
  | (id, a) :: l =>
      if decide (id = jobId) then a :: actionsOf jobId l else actionsOf jobId l
  end.

(** The values assigned to [job.progress], in order. *)
Fixpoint progressWrites (l : list Action) : list Z :=
  match l with
  | [] => []
  | SetProgress v :: l => v :: progressWrites l
  | _ :: l => progressWrites l
  end.

(** The number of [fetchPredictOperation] requests. *)
Fixpoint pollsIn (l : list Action) : nat :=
  match l with
  | [] => O
  | Poll _ :: l => S (pollsIn l)
  | _ :: l => pollsIn l
  end.

(** The delays waited for, in order. *)
Fixpoint sleepsIn (l : list Action) : list Z :=
  match l with
  | [] => []
  | Sleep ms :: l => ms :: sleepsIn l
  | _ :: l => sleepsIn l
  end.

Fixpoint nondecreasing (l : list Z) : bool :=
  match l with
  | a :: (b :: _) as t => (a <=? b) && nondecreasing t
  | _ => true
  end.

(** ** What one driving sequence owns *)

(** The part of the world the driving sequence of [jobId] works on: its
    registry entry, its own actions, its artifact file.  [videoUrl] is left
    out, since [getVideoStatus] refreshes it. *)
Definition view (jobId : string) (w : World)
    : option Job * list Action * option Buffer :=
  (set_videoUrl None <$> jobs w !! jobId,
   actionsOf jobId (log w),
   files w !! videoFile jobId).

(** What other tasks may do to the world while the driving sequence of
    [jobId] is suspended. *)
Definition Rely (jobId : string) : relation World :=
  λ w w1, view jobId w1 = view jobId w.

(** The job [jobId] is registered and [φ] holds of its view. *)
Definition At (jobId : string)
    (φ : Job → list Action → option Buffer → Prop) (w : World) : Prop :=
  ∃ j, jobs w !! jobId = Some j ∧
       φ (set_videoUrl None j) (actionsOf jobId (log w)) (files w !! videoFile jobId).

(** ** Triples *)

Definition post {A} (Q : A → World → Prop) (E : string → World → Prop)
    (res : Res A) (w : World) : Prop :=
  match res with
  | Return a => Q a w
  | Throw e => E e w
  end.

(** From a world in [P], under any interference within [rely]: every world
    seen at a pause is in [O]; a normal end is in [Q], a throw in [E]. *)
Definition triple {A} (rely : relation World) (O P : World → Prop)
    (m : Async A) (Q : A → World → Prop) (E : string → World → Prop) : Prop :=
  ∀ w seen res w',
    P w → runs rely (m w) seen res w' → Forall O seen ∧ post Q E res w'.

Definition stable (rely : relation World) (P : World → Prop) : Prop :=
  ∀ w w1, P w → rely w w1 → P w1.

(** ** The progress history of a job *)

(** The last value assigned, [p0] if none was. *)
Definition lastWrite (p0 : Z) (l : list Action) : Z :=
  List.last (progressWrites l) p0.

(** Since the actions [base], starting from progress [p0]: the values
    assigned to [job.progress] never decrease, and [p], the value stored
    now, is the last one assigned. *)
Definition History (base : list Action) (p0 p : Z) (a : list Action) : Prop :=
  ∃ l, a = base ++ l ∧
       nondecreasing (p0 :: progressWrites l) = true ∧
       p = lastWrite p0 l.

(** Program points of the driving sequence. *)
Definition Running (base : list Action) (p0 hi : Z)
    : Job → list Action → option Buffer → Prop :=
  λ j a _, History base p0 (progress j) a ∧
           progress j ≤ hi ∧ hi < 100 ∧ status j ≠ completed.

(** Between [job.progress = 100] and [job.status = 'completed']. *)
Definition Written (base : list Action) (p0 : Z)
    : Job → list Action → option Buffer → Prop :=
  λ j a _, History base p0 (progress j) a ∧
           progress j = 100 ∧ status j ≠ completed.

Definition Finished (base : list Action) (p0 : Z)
    : Job → list Action → option Buffer → Prop :=
  λ j a _, History base p0 (progress j) a ∧
           progress j = 100 ∧ status j = completed.

(** What holds whenever the job can be looked at. *)
Definition Consistent (base : list Action) (p0 : Z)
    : Job → list Action → option Buffer → Prop :=
  λ j a _, History base p0 (progress j) a ∧
           (progress j = 100 ↔ status j = completed).

(** ** Polling *)

(** Since the actions [base]: every delay waited for was 5000 ms, each
    request to [fetchPredictOperation] came after a delay of its own
    ([slack] delays are still unused), and there were at most [n] delays. *)
Definition Polled (base : list Action) (n slack : nat)
    : Job → list Action → option Buffer → Prop :=
  λ _ a _, ∃ l, a = base ++ l ∧
                Forall (λ ms, ms = 5000) (sleepsIn l) ∧
                (pollsIn l + slack ≤ length (sleepsIn l))%nat ∧
                (length (sleepsIn l) ≤ n)%nat.

(** The provider reports [done], at submission or at some poll. *)
Definition reportsDone (env : Env) : Prop :=
  (∃ d, startResponse env = Resolved d ∧ start_done d = true) ∨
  (∃ n d, opResponse env n = Resolved d ∧ op_done d = true).

(** How a job stands once [processVideoGeneration] has ended normally. *)
Definition Completed (base : list Action)
    : Job → list Action → option Buffer → Prop :=
  λ j a f, Polled base 120 0 j a f ∧ status j = completed ∧ progress j = 100.

(** ... after the [try] block in particular ... *)
Definition Stored (jobId : string) (base : list Action)
    : Job → list Action → option Buffer → Prop :=
  λ j a f, Completed base j a f ∧ videoPath j = Some (videoFile jobId).

(** ... and after the [catch] block. *)
Definition FellBack (base : list Action) (message : string)
    : Job → list Action → option Buffer → Prop :=
  λ j a f, Completed base j a f ∧ error j = Some message ∧ f = Some minimalMP4.

(** Where a client is pointed to for the artifact of the job. *)
Definition Located (jobId : string) (j : Job) : Prop :=
  videoPath j = Some (videoFile jobId) ∨
  (videoPath j = None ∧ is_Some (gcsFileName j)).

(** ** The fallback *)

(** How a job stands when the [catch] block has thrown itself. *)
Definition Abandoned (base : list Action) (message : string)
    : Job → list Action → option Buffer → Prop :=
  λ j a f, Polled base 120 0 j a f ∧ status j = failed ∧ error j = Some message.

(** Whether the details of the error get rendered for the console. *)
Definition rendered (env : Env) (message : string) : bool :=
  bool_decide (stringifyFault env message = None).

(** Whether the disk takes [data] as the artifact of [jobId], put there
    the way [createPlaceholderVideo] does it.  There is something at
    [uploads/videos], or the directory gets made: no regular file
    [uploads] is in the way and the environment has no fault for it.  The
    directory of the artifact path is a directory then, not a regular
    file; the artifact path is not a directory; the environment has no
    fault for the write. *)
Definition takes (env : Env) (jobId : string) (data : Buffer) (w : World) : bool :=
  let path := videoFile jobId in
  let present :=
    bool_decide (uploadDir ∈ dirs w) || bool_decide (is_Some (files w !! uploadDir)) in
  let made :=
    negb (bool_decide (is_Some (files w !! "uploads")))
    && bool_decide (mkdirFault env = None) in
  let dirs' :=
    if present then dirs w else {["uploads"; "uploads/videos"]} ∪ dirs w in
  (present || made)
  && negb (bool_decide (is_Some (files w !! dirname path)))
  && bool_decide (dirname path ∈ dirs')
  && negb (bool_decide (path ∈ dirs'))
  && bool_decide (writeFault env path data = None).

(** * Scenarios *)

(** Concrete environments, to run the engine on. *)
Module Scenario.

Definition emptyWorld : World :=
  {| jobs := ∅; files := ∅; dirs := ∅; log := [] |}.

Definition options0 : Options :=
  {| duration := Some 5; quality := Some "standard";
     captions := None; projectId := None |}.

(** A result carrying one video. *)
Definition oneVideo : Result :=
  {| videos := Some [ Some {| video_bytesBase64Encoded := Some "AAAAIGZ0eXBpc29t";
                              video_asJson := "{...}" |} ];
     predictions := None;
     result_asJson := "{...}" |}.

Definition running : OpData :=
  {| op_done := false; op_response := None; op_error := None |}.

(** The provider answers 500 to the submission; the bucket works. *)
Definition submissionFails : Env :=
  {| keyFilePath := Some "./service-account.json";
     randomSuffix := "k3x9q2m1z";
     nowJobId := 1700000000000; nowStart := 1700000000000;
     nowCompleted := 1700000001000; nowUpload := 1700000001000;
     authClient := Resolved tt;
     accessToken := Resolved (Some "ya29.token");
     startResponse := Rejected "Request failed with status code 500";
     pollClient := λ _, Resolved tt;
     pollToken := λ _, Resolved (Some "ya29.token");
     opResponse := λ _, Resolved running;
     bucketUpload := Resolved tt;
     bucketSignedUrl := Resolved "https://storage.googleapis.com/signed";
     cwd := "/srv/veoflow";
     mkdirFault := None;
     writeFault := λ _ _, None;
     stringifyFault := λ _, None |}.

(** The same, on a disk that is mounted read-only. *)
Definition readOnlyDisk : Env :=
  {| keyFilePath := keyFilePath submissionFails;
     randomSuffix := randomSuffix submissionFails;
     nowJobId := nowJobId submissionFails;
     nowStart := nowStart submissionFails;
     nowCompleted := nowCompleted submissionFails;
     nowUpload := nowUpload submissionFails;
     authClient := authClient submissionFails;
     accessToken := accessToken submissionFails;
     startResponse := startResponse submissionFails;
     pollClient := pollClient submissionFails;
     pollToken := pollToken submissionFails;
     opResponse := opResponse submissionFails;
     bucketUpload := bucketUpload submissionFails;
     bucketSignedUrl := bucketSignedUrl submissionFails;
     cwd := "/srv/veoflow";
     mkdirFault :=
       Some "EROFS: read-only file system, mkdir '/srv/veoflow/uploads/videos'";
     writeFault := λ path _,
       Some ("EROFS: read-only file system, open '/srv/veoflow/" +:+ path +:+ "'");
     stringifyFault := λ _, None |}.

(** The operation is accepted and never reported done; the bucket is
    down. *)
Definition neverDone : Env :=
  {| keyFilePath := Some "./service-account.json";
     randomSuffix := "k3x9q2m1z";
     nowJobId := 1700000000000; nowStart := 1700000000000;
     nowCompleted := 1700000600000; nowUpload := 1700000600000;
     authClient := Resolved tt;
     accessToken := Resolved (Some "ya29.token");
     startResponse :=
       Resolved {| start_done := false; start_name := Some "operations/42";
                   start_response := Js.Undefined |};
     pollClient := λ _, Resolved tt;
     pollToken := λ _, Resolved (Some "ya29.token");
     opResponse := λ _, Resolved running;
     bucketUpload := Rejected "getaddrinfo ENOTFOUND storage.googleapis.com";
     bucketSignedUrl := Resolved "https://storage.googleapis.com/signed";
     cwd := "/srv/veoflow";
     mkdirFault := None;
     writeFault := λ _ _, None;
     stringifyFault := λ _, None |}.

(** The third poll reports done with a video; the bucket works. *)
Definition succeeds : Env :=
  {| keyFilePath := Some "./service-account.json";
     randomSuffix := "k3x9q2m1z";
     nowJobId := 1700000000000; nowStart := 1700000000000;
     nowCompleted := 1700000015000; nowUpload := 1700000015000;
     authClient := Resolved tt;
     accessToken := Resolved (Some "ya29.token");
     startResponse :=
       Resolved {| start_done := false; start_name := Some "operations/42";
                   start_response := Js.Undefined |};
     pollClient := λ _, Resolved tt;
     pollToken := λ _, Resolved (Some "ya29.token");
     opResponse := λ n,
       if bool_decide (n = 3%nat)
       then Resolved {| op_done := true; op_response := Some oneVideo;
                        op_error := None |}
       else Resolved running;
     bucketUpload := Resolved tt;
     bucketSignedUrl := Resolved "https://storage.googleapis.com/signed";
     cwd := "/srv/veoflow";
     mkdirFault := None;
     writeFault := λ _ _, None;
     stringifyFault := λ _, None |}.

(** No credentials. *)
Definition unconfigured : Env :=
  {| keyFilePath := None;
     randomSuffix := "k3x9q2m1z";
     nowJobId := 1700000000000; nowStart := 1700000000000;
     nowCompleted := 1700000001000; nowUpload := 1700000001000;
     authClient := Rejected "Could not load the default credentials";
     accessToken := Rejected "Could not load the default credentials";
     startResponse := Rejected "Request failed with status code 401";
     pollClient := λ _, Rejected "Could not load the default credentials";
     pollToken := λ _, Rejected "Could not load the default credentials";
     opResponse := λ _, Rejected "Request failed with status code 401";
     bucketUpload := Rejected "Could not load the default credentials";
     bucketSignedUrl := Rejected "Could not load the default credentials";
     cwd := "/srv/veoflow";
     mkdirFault := None;
     writeFault := λ _ _, None;
     stringifyFault := λ _, None |}.

Definition jobId : string := "job_1700000000000_k3x9q2m1z".

(** The background task [generateVideo] starts, run with nothing else
    in between. *)
Definition task (env : Env) : Run unit :=
  processVideoGeneration env jobId "A lighthouse at dawn" options0
    (register env jobId "A lighthouse at dawn" options0 emptyWorld).

End Scenario.

(** * The rest of the service *)

(** ** More of JavaScript *)

Module JsLib.

(** [s.startsWith(t)] *)
Fixpoint startsWith (s t : string) {struct t} : bool :=
  match t, s with
  | EmptyString, _ => true
  | String b t, String a s => bool_decide (a = b) && startsWith s t
  | String _ _, EmptyString => false
  end.

(** [s.includes(t)] *)
Fixpoint includes (s t : string) : bool :=
  startsWith s t ||
  match s with
  | EmptyString => false
  | String _ s => includes s t
  end.

(** The pieces of [s] between the occurrences of a non-empty separator,
    found from left to right; [skip] characters of an occurrence just
    found are still to be passed over.  The head of the list is the piece
    being read. *)
Fixpoint pieces (sep : string) (skip : nat) (s : string) : list string :=
  match s with
  | EmptyString => [EmptyString]
  | String c s' =>
      match skip with
      | S skip => pieces sep skip s'
      | O =>
          if startsWith s sep
          then EmptyString :: pieces sep (Nat.pred (String.length sep)) s'
          else
            match pieces sep O s' with
            | piece :: rest => String c piece :: rest
            | [] => [String c EmptyString]
            end
      end
  end.

(** [s.split(sep)]; with the empty separator, the characters of [s].
    A separator made of ASCII characters cuts a [string] where it cuts the
    JavaScript string it stands for. *)
Definition split (s sep : string) : list string :=
  match sep with
  | EmptyString => (λ c, String c EmptyString) <$> String.list_ascii_of_string s
  | _ => pieces sep 0 s
  end.

(** [a || b] for a number [a] *)
Definition orNumber (a : option Z) (b : Z) : Z :=
  match a with
  | Some 0 | None => b
  | Some n => n
  end.

End JsLib.

(** ** gcsService.js, the other two requests *)

(** What the constructor reads and what [this.bucket] answers. *)
Record Bucket : Type := {
  GCS_BUCKET_NAME : option string;            (* process.env.GCS_BUCKET_NAME *)
  file_delete : string → Outcome unit;        (* this.bucket.file(fileName).delete() *)
  getFiles : string → Outcome (list string);  (* this.bucket.getFiles({ prefix }): each file.name *)
}.

Section GCSService.

Variable bucket : Bucket.

(** [this.bucketName = process.env.GCS_BUCKET_NAME || 'veoflow-videos'] *)
Definition bucketName : string :=
  Js.template (Js.or (GCS_BUCKET_NAME bucket) (Some "veoflow-videos")).

(** [deleteVideo(videoUrl)] *)
Definition deleteVideo (videoUrl : string) : Async unit :=
  tryCatch
    (let fileName := JsLib.split videoUrl (bucketName +:+ "/") !! 1%nat in
     if negb (Js.truthy fileName) then throw "Invalid video URL format"
     else await (file_delete bucket (Js.template fileName)))
    (λ message, throw ("Failed to delete video from GCS: " +:+ message)).

(** [listProjectVideos(projectId)] *)
Definition listProjectVideos (projectId : string) : Async (list string) :=
  tryCatch
    (files ← await (getFiles bucket ("videos/" +:+ projectId +:+ "/"));
     let videoUrls :=
       (λ file, "https://storage.googleapis.com/" +:+ bucketName +:+ "/" +:+ file)
         <$> files in
     mret videoUrls)
    (λ message, throw ("Failed to list videos: " +:+ message)).

End GCSService.

(** ** middleware/auth.js *)

Module Auth.

(** [jwt.verify(token, config.jwtSecret)]: the decoded payload, or the
    [name] of the error thrown. *)
Inductive Verdict (Payload : Type) : Type :=
| Decoded (payload : Payload)
| Thrown (name : string).
Global Arguments Decoded {Payload} payload.
Global Arguments Thrown {Payload} name.

Record Config (Payload : Type) : Type := {
  NODE_ENV : option string;                  (* process.env.NODE_ENV *)
  verify : string → Verdict Payload;         (* jwt.verify(_, config.jwtSecret) *)
  userId : Payload → option string;          (* decoded.userId *)
}.
Global Arguments NODE_ENV {Payload} c.
Global Arguments verify {Payload} c token.
Global Arguments userId {Payload} c payload.

(** [req.user] *)
Inductive User (Payload : Type) : Type :=
| Developer     (* { userId: DEV_USER_ID, name: 'Developer', email: 'dev@localhost' } *)
| Bearer (decoded : Payload).
Global Arguments Developer {Payload}.
Global Arguments Bearer {Payload} decoded.

(** What the middleware does with a request: [next()], with [req.userId]
    and [req.user] set, or [res.status(code).json({ message })]. *)
Inductive Passage (Payload : Type) : Type :=
| Next (req_userId : option string) (req_user : User Payload)
| Refuse (statusCode : Z) (message : string).
Global Arguments Next {Payload} req_userId req_user.
Global Arguments Refuse {Payload} statusCode message.

Definition DEV_USER_ID : string := "000000000000000000000001".

Section AuthMiddleware.

Context {Payload : Type} (config : Config Payload).

(** [config.nodeEnv]: [process.env.NODE_ENV || 'development'] *)
Definition nodeEnv : string :=
  Js.template (Js.or (NODE_ENV config) (Some "development")).

(** [authMiddleware(req, res, next)]; [authorization] is
    [req.headers.authorization].  The middleware ends with [next()]: what
    the handlers after it do is not its own. *)
Definition authMiddleware (authorization : option string) : Passage Payload :=
  if bool_decide (nodeEnv = "development") then Next (Some DEV_USER_ID) Developer
  else
    let authHeader := authorization in
    if negb (Js.truthy authHeader) then Refuse 401 "No token provided"
    else
      let token := JsLib.split (Js.template authHeader) " " !! 1%nat in
      if negb (Js.truthy token) then Refuse 401 "Invalid authorization header"
      else
        match verify config (Js.template token) with
        | Decoded decoded => Next (userId config decoded) (Bearer decoded)
        | Thrown name =>
            if bool_decide (name = "JsonWebTokenError") then Refuse 401 "Invalid token"
            else if bool_decide (name = "TokenExpiredError") then Refuse 401 "Token expired"
            else Refuse 401 "Authentication failed"
        end.

End AuthMiddleware.

End Auth.

(** ** controllers/videoController.js *)

Module VideoController.

(** [res.status(statusCode).json({ message, data })] *)
Record Response (A : Type) : Type := {
  statusCode : Z;
  message : string;
  data : option A;
}.
Global Arguments statusCode {A} r.
Global Arguments message {A} r.
Global Arguments data {A} r.

(** The fields of [req.body] that reach the service, for [generateVideo].
    Numbers are integers. *)
Record Body : Type := {
  sceneId : option string;
  body_projectId : option string;
  body_quality : option string;
  body_prompt : option string;
  body_duration : option Z;
  body_captions : option Captions;
}.

(** [data] of the reply 202 *)
Record Queued : Type := {
  queued_jobId : string;
  queued_status : Status;
  queued_sceneId : option string;
}.

Section Handlers.

Variable env : Env.

(** [googleVideoService.generateVideo(prompt, options)] as a call: the
    promise it returns is settled when the call returns; the value carries
    the driving sequence the call has started. *)
Definition submit (prompt : string) (options : Options)
    : Async (Ticket * option (Run unit)) :=
  λ w,
    match generateVideo env prompt options w with
    | (Return ticket, w1, task) => Done (Return (ticket, task)) w1
    | (Throw message, w1, _) => Done (Throw message) w1
    end.

(** [generateVideo(req, res)].  The reply, and the driving sequence
    started on the way, if any. *)
Definition generateVideo (body : Body)
    : Async (Response Queued * option (Run unit)) :=
  tryCatch
    (if negb (Js.truthy (sceneId body)) && negb (Js.truthy (body_prompt body))
     then mret ({| statusCode := 400; message := "Scene ID or prompt required";
                   data := None |}, None)
     else
       let videoPrompt :=
         Js.template
           (Js.or (body_prompt body)
                  (Some ("Video scene " +:+ Js.template (sceneId body)))) in
       pause ;;      (* await import('../services/googleVideoService.js') *)
       job ← awaitCall
               (submit videoPrompt
                  {| quality := Js.or (body_quality body) (Some "standard");
                     duration := Some (JsLib.orNumber (body_duration body) 5);
                     captions := body_captions body;
                     projectId := body_projectId body |});
       mret ({| statusCode := 202; message := "Video generation queued";
                data := Some {| queued_jobId := ticket_jobId job.1;
                                queued_status := ticket_status job.1;
                                queued_sceneId := sceneId body |} |},
             job.2))
    (λ message, mret ({| statusCode := 400; message := message; data := None |}, None)).

(** [getJobStatus(req, res)]; [jobId] is [req.params.jobId], and [data]
    of the reply stands for its [data.job]. *)
Definition getJobStatus (now : Z) (signer : Outcome string) (jobId : string)
    : Async (Response StatusData) :=
  tryCatch
    (pause ;;      (* await import('../services/googleVideoService.js') *)
     status ← awaitCall (getVideoStatus now signer jobId);
     mret {| statusCode := 200; message := "Job status retrieved";
             data := Some {| sd_jobId := sd_jobId status;
                             sd_status := sd_status status;
                             sd_progress := sd_progress status;
                             estimatedTimeRemaining := estimatedTimeRemaining status;
                             sd_error := sd_error status;
                             sd_videoUrl := Js.or (sd_videoUrl status) None;
                             localPath := localPath status |} |})
    (λ message, mret {| statusCode := 404; message := message; data := None |}).

End Handlers.

End VideoController.

(** ** routes/videoRoutes.js *)

Module VideoRoutes.

Section Router.

Context {Payload : Type} (config : Auth.Config Payload) (env : Env).

(** [router.post('/generate-video', authMiddleware, generateVideo)] *)
Definition post_generate_video (authorization : option string)
    (body : VideoController.Body)
    : Async (VideoController.Response VideoController.Queued * option (Run unit)) :=
  match Auth.authMiddleware config authorization with
  | Auth.Next _ _ => VideoController.generateVideo env body
  | Auth.Refuse statusCode message =>
      mret ({| VideoController.statusCode := statusCode;
               VideoController.message := message;
               VideoController.data := None |}, None)
  end.

End Router.

End VideoRoutes.

(** ** services/videoGenerationService.js *)

Module VideoGenerationService.

(** The fields of a [VideoGenerationJob] document that [getJobStatus]
    reads. *)
Record Document : Type := {
  googleJobId : option string;
  doc_status : Status;
  createdAt : Z;
  updatedAt : Z;
}.

(** What [getJobStatus] resolves to. *)
Record JobStatus : Type := {
  js_jobId : string;
  js_status : Status;
  js_progress : Z;
  js_estimatedTimeRemaining : option Z;
  js_createdAt : Z;
  js_updatedAt : Z;
}.

(** [getJobStatus(jobId)]; [found] is what
    [VideoGenerationJob.findById(jobId)] answers.  With [googleJobId]
    [null], [this.jobs.get(null)] finds nothing. *)
Definition getJobStatus (found : Outcome (option Document)) (now : Z)
    (signer : Outcome string) (jobId : string) : Async JobStatus :=
  tryCatch
    (job ← await found;
     match job with
     | None => throw "Job not found"
     | Some job =>
         status ←
           awaitCall
             match googleJobId job with
             | Some id => getVideoStatus now signer id
             | None => throw "Failed to get video status: Job not found"
             end;
         mret {| js_jobId := jobId;
                 js_status := doc_status job;
                 js_progress := sd_progress status;
                 js_estimatedTimeRemaining := estimatedTimeRemaining status;
                 js_createdAt := createdAt job;
                 js_updatedAt := updatedAt job |}
     end)
    (λ message, throw ("Failed to get job status: " +:+ message)).

End VideoGenerationService.

(** ** Where the artifact ends up *)

(** The object name [uploadVideo] chooses for the artifact of a job. *)
Definition objectName (env : Env) (options : Options) : string :=
  "videos/" +:+ namespace options +:+ "/" +:+ pretty (nowUpload env) +:+ ".mp4".

(** Whether the bucket takes a file and signs its URL. *)
Definition uploads (env : Env) : bool :=
  match bucketUpload env, bucketSignedUrl env with
  | Resolved _, Resolved _ => true
  | _, _ => false
  end.

(** Program points of the driving sequence.  Nothing is in the bucket,
    no local path and no error are recorded: *)
Definition Unstored : Job → list Action → option Buffer → Prop :=
  λ j _ _, gcsFileName j = None ∧ videoPath j = None ∧ error j = None.

(** ... the artifact is on disk, the placeholder if [fellBack]: *)
Definition OnDisk (fellBack : bool) : Job → list Action → option Buffer → Prop :=
  λ j _ f, gcsFileName j = None ∧ is_Some f ∧
           if fellBack then is_Some (error j) else error j = None.

(** ... the driving sequence is over, having ended normally: *)
Definition Settled (env : Env) (jobId : string) (options : Options) (fellBack : bool)
    : Job → list Action → option Buffer → Prop :=
  λ j _ f,
    status j = completed ∧
    is_Some f ∧
    gcsFileName j = (if uploads env then Some (objectName env options) else None) ∧
    videoPath j = (if uploads env && fellBack then None else Some (videoFile jobId)) ∧
    if fellBack then is_Some (error j) else error j = None.

(** ... or it is over because the [catch] block threw. *)
Definition Stranded : Job → list Action → option Buffer → Prop :=
  λ j _ _, status j = failed ∧ is_Some (error j) ∧
           gcsFileName j = None ∧ videoPath j = None.

(** ** Requests to the provider *)

(** The submissions to [:predictLongRunning], in order: the prompt and
    the duration sent. *)
Fixpoint submitsIn (l : list Action) : list (string * string) :=
  match l with
  | [] => []
  | Submit enhancedPrompt videoDuration :: l =>
      (enhancedPrompt, videoDuration) :: submitsIn l
  | _ :: l => submitsIn l
  end.

(** Whether the driving sequence gets an access token. *)
Definition authorized (env : Env) : bool :=
  Js.truthy (keyFilePath env) &&
  match authClient env, accessToken env with
  | Resolved _, Resolved token => Js.truthy token
  | _, _ => false
  end.

(** Since the actions [base], [n] submissions were made ... *)
Definition Submitted (base : list Action) (n : nat)
    : Job → list Action → option Buffer → Prop :=
  λ _ a _, ∃ l, a = base ++ l ∧ length (submitsIn l) = n.

(** ... and [n] requests to [fetchPredictOperation] were sent. *)
Definition PolledTimes (base : list Action) (n : nat)
    : Job → list Action → option Buffer → Prop :=
  λ _ a _, ∃ l, a = base ++ l ∧ pollsIn l = n.

Definition PolledAtMost (base : list Action) (n : nat)
    : Job → list Action → option Buffer → Prop :=
  λ j a f, ∃ c, (c ≤ n)%nat ∧ PolledTimes base c j a f.

(** The provider answers the [n]-th poll with [done] or with an error. *)
Definition settlesAt (env : Env) (n : nat) : Prop :=
  ∃ d, opResponse env n = Resolved d ∧ (op_done d = true ∨ is_Some (op_error d)).

(** ** More scenarios *)

Module Requests.

Definition defaultBucket : Bucket :=
  {| GCS_BUCKET_NAME := None;
     file_delete := λ _, Resolved tt;
     getFiles := λ _, Resolved ["videos/default/1700000015000.mp4"] |}.

(** A deployment with [NODE_ENV=production] whose only valid token is
    ["eyJ.valid"], issued to user ["u1"]. *)
Definition production : Auth.Config string :=
  {| Auth.NODE_ENV := Some "production";
     Auth.verify := λ token,
       if bool_decide (token = "eyJ.valid") then Auth.Decoded "u1"
       else Auth.Thrown "JsonWebTokenError";
     Auth.userId := λ payload, Some payload |}.

(** The same, with [NODE_ENV] not set. *)
Definition unset : Auth.Config string :=
  {| Auth.NODE_ENV := None;
     Auth.verify := Auth.verify production;
     Auth.userId := Auth.userId production |}.

(** [Scenario.succeeds], for a submission made one millisecond later. *)
Definition oneMillisecondLater : Env :=
  {| keyFilePath := keyFilePath Scenario.succeeds;
     randomSuffix := randomSuffix Scenario.succeeds;
     nowJobId := nowJobId Scenario.succeeds + 1;
     nowStart := nowStart Scenario.succeeds + 1;
     nowCompleted := nowCompleted Scenario.succeeds + 1;
     nowUpload := nowUpload Scenario.succeeds + 1;
     authClient := authClient Scenario.succeeds;
     accessToken := accessToken Scenario.succeeds;
     startResponse := startResponse Scenario.succeeds;
     pollClient := pollClient Scenario.succeeds;
     pollToken := pollToken Scenario.succeeds;
     opResponse := opResponse Scenario.succeeds;
     bucketUpload := bucketUpload Scenario.succeeds;
     bucketSignedUrl := bucketSignedUrl Scenario.succeeds;
     cwd := cwd Scenario.succeeds;
     mkdirFault := mkdirFault Scenario.succeeds;
     writeFault := writeFault Scenario.succeeds;
     stringifyFault := stringifyFault Scenario.succeeds |}.

Definition body0 : VideoController.Body :=
  {| VideoController.sceneId := None;
     VideoController.body_projectId := None;
     VideoController.body_quality := None;
     VideoController.body_prompt := Some "A lighthouse at dawn";
     VideoController.body_duration := None;
     VideoController.body_captions := None |}.

End Requests.

(** * The program logic *)

Section Logic.

Context (rely : relation World) (O : World → Prop).

Lemma runs_bindRun {A B} (r : Run A) (f : A → Async B) seen res w' :
  runs rely (bindRun r f) seen res w' →
  ∃ seen1 res1 w1,
    runs rely r seen1 res1 w1 ∧
    match res1 with
    | Return a => ∃ seen2, runs rely (f a w1) seen2 res w' ∧ seen = seen1 ++ seen2
    | Throw e => seen = seen1 ∧ res = Throw e ∧ w' = w1
    end.
Proof.
  revert seen. induction r as [r w|w k IH]; [destruct r as [a|e]|]; simpl; intros seen Hrun.
  - exists [], (Return a), w. split; [apply runs_Done|]. by exists seen.
  - inversion Hrun; subst. eexists [], (Throw e), _. split; [apply runs_Done|done].
  - inversion Hrun as [|? w1 ? seen0 ? ? Hrely Hk]; subst.
    destruct (IH _ _ Hk) as (seen1 & res1 & w2 & Hr & Hrest).
    exists (w :: seen1), res1, w2. split; [by econstructor|].
    destruct res1; [|by destruct Hrest as (-> & -> & ->)].
    destruct Hrest as (seen2 & ? & ->). by exists seen2.
Qed.

Lemma runs_catchRun {A} (r : Run A) (h : string → Async A) seen res w' :
  runs rely (catchRun r h) seen res w' →
  ∃ seen1 res1 w1,
    runs rely r seen1 res1 w1 ∧
    match res1 with
    | Return a => seen = seen1 ∧ res = Return a ∧ w' = w1
    | Throw e => ∃ seen2, runs rely (h e w1) seen2 res w' ∧ seen = seen1 ++ seen2
    end.
Proof.
  revert seen. induction r as [r w|w k IH]; [destruct r as [a|e]|]; simpl; intros seen Hrun.
  - inversion Hrun; subst. eexists [], (Return a), _. split; [apply runs_Done|done].
  - exists [], (Throw e), w. split; [apply runs_Done|]. by exists seen.
  - inversion Hrun as [|? w1 ? seen0 ? ? Hrely Hk]; subst.
    destruct (IH _ _ Hk) as (seen1 & res1 & w2 & Hr & Hrest).
    exists (w :: seen1), res1, w2. split; [by econstructor|].
    destruct res1; [by destruct Hrest as (-> & -> & ->)|].
    destruct Hrest as (seen2 & ? & ->). by exists seen2.
Qed.

Lemma triple_ret {A} (P : World → Prop) (a : A) Q E :
  (∀ w, P w → Q a w) → triple rely O P (mret a) Q E.
Proof. intros HQ w seen res w' HP Hrun. inversion Hrun; subst. split; [constructor|]. by apply HQ. Qed.

Lemma triple_throw {A} (P : World → Prop) e (Q : A → World → Prop) (E : string → World → Prop) :
  (∀ w, P w → E e w) → triple rely O P (throw e) Q E.
Proof. intros HE w seen res w' HP Hrun. inversion Hrun; subst. split; [constructor|]. by apply HE. Qed.

Lemma triple_bind {A B} P (m : Async A) (f : A → Async B) R Q E :
  triple rely O P m R E →
  (∀ a, triple rely O (R a) (f a) Q E) →
  triple rely O P (m ≫= f) Q E.
Proof.
  intros Hm Hf w seen res w' HP Hrun.
  apply runs_bindRun in Hrun as (seen1 & res1 & w1 & Hr & Hrest).
  destruct (Hm _ _ _ _ HP Hr) as [Hseen1 Hpost].
  destruct res1 as [a|e]; simpl in Hpost.
  - destruct Hrest as (seen2 & Hr2 & ->).
    destruct (Hf a _ _ _ _ Hpost Hr2) as [Hseen2 Hpost2].
    split; [by apply Forall_app|done].
  - destruct Hrest as (-> & -> & ->). done.
Qed.

Lemma triple_catch {A} P (m : Async A) (h : string → Async A) R Q E :
  triple rely O P m Q R →
  (∀ e, triple rely O (R e) (h e) Q E) →
  triple rely O P (tryCatch m h) Q E.
Proof.
  intros Hm Hh w seen res w' HP Hrun.
  apply runs_catchRun in Hrun as (seen1 & res1 & w1 & Hr & Hrest).
  destruct (Hm _ _ _ _ HP Hr) as [Hseen1 Hpost].
  destruct res1 as [a|e]; simpl in Hpost.
  - destruct Hrest as (-> & -> & ->). done.
  - destruct Hrest as (seen2 & Hr2 & ->).
    destruct (Hh e _ _ _ _ Hpost Hr2) as [Hseen2 Hpost2].
    split; [by apply Forall_app|done].
Qed.

Lemma triple_conseq {A} (P P' : World → Prop) (m : Async A) (Q Q' : A → World → Prop)
    (E E' : string → World → Prop) :
  triple rely O P' m Q' E' →
  (∀ w, P w → P' w) →
  (∀ a w, Q' a w → Q a w) →
  (∀ e w, E' e w → E e w) →
  triple rely O P m Q E.
Proof.
  intros Hm HP HQ HE w seen res w' Hw Hrun.
  destruct (Hm _ _ _ _ (HP _ Hw) Hrun) as [? Hpost]. split; [done|].
  destruct res; simpl in *; eauto.
Qed.

Lemma triple_pre {A} (P P' : World → Prop) (m : Async A) Q E :
  triple rely O P' m Q E → (∀ w, P w → P' w) → triple rely O P m Q E.
Proof. intros Hm HP. eapply triple_conseq; eauto. Qed.

Lemma triple_exn {A} (P : World → Prop) (m : Async A) Q (E E' : string → World → Prop) :
  triple rely O P m Q E' → (∀ e w, E' e w → E e w) → triple rely O P m Q E.
Proof. intros Hm HE. eapply triple_conseq; eauto. Qed.

Lemma triple_pure {A} (Φ : Prop) (P : World → Prop) (m : Async A) Q E :
  (Φ → triple rely O P m Q E) → triple rely O (λ w, Φ ∧ P w) m Q E.
Proof. intros Hm w seen res w' [HΦ HP]. by apply Hm. Qed.

Lemma triple_pause (P : World → Prop) Q E :
  (∀ w, P w → O w) →
  (∀ w w1, P w → rely w w1 → Q tt w1) →
  triple rely O P pause Q E.
Proof.
  intros HO HQ w seen res w' HP Hrun.
  inversion Hrun as [|? w1 ? ? ? ? Hrely Hk]; subst.
  inversion Hk; subst. split; [repeat constructor; auto|]. simpl. eauto.
Qed.

Lemma triple_update (P : World → Prop) f Q E :
  (∀ w, P w → Q tt (f w)) → triple rely O P (update f) Q E.
Proof. intros HQ w seen res w' HP Hrun. inversion Hrun; subst. split; [constructor|]. by apply HQ. Qed.

Lemma triple_getJob (P : World → Prop) jobId Q E :
  (∀ w, P w → Q (jobs w !! jobId) w) → triple rely O P (getJob jobId) Q E.
Proof. intros HQ w seen res w' HP Hrun. inversion Hrun; subst. split; [constructor|]. by apply HQ. Qed.

Lemma triple_existsSync (P : World → Prop) path Q E :
  (∀ w b, P w → Q b w) → triple rely O P (existsSync path) Q E.
Proof. intros HQ w seen res w' HP Hrun. inversion Hrun; subst. split; [constructor|]. by apply HQ. Qed.

Lemma triple_isFile (P : World → Prop) path Q E :
  (∀ w b, P w → Q b w) → triple rely O P (isFile path) Q E.
Proof. intros HQ w seen res w' HP Hrun. inversion Hrun; subst. split; [constructor|]. by apply HQ. Qed.

Lemma triple_isDirectory (P : World → Prop) path Q E :
  (∀ w b, P w → Q b w) → triple rely O P (isDirectory path) Q E.
Proof. intros HQ w seen res w' HP Hrun. inversion Hrun; subst. split; [constructor|]. by apply HQ. Qed.

Lemma triple_raise (P : World → Prop) fault Q (E : string → World → Prop) :
  (∀ w, P w → fault = None → Q tt w) →
  (∀ w e, P w → fault = Some e → E e w) →
  triple rely O P (raise fault) Q E.
Proof.
  intros HQ HE. destruct fault as [e|]; simpl.
  - apply triple_throw. eauto.
  - apply triple_ret. eauto.
Qed.

Lemma triple_and {A} (P1 P2 : World → Prop) (m : Async A) Q1 Q2
    (E1 E2 : string → World → Prop) :
  triple rely O P1 m Q1 E1 →
  triple rely O P2 m Q2 E2 →
  triple rely O (λ w, P1 w ∧ P2 w) m (λ a w, Q1 a w ∧ Q2 a w) (λ e w, E1 e w ∧ E2 e w).
Proof.
  intros H1 H2 w seen res w' [HP1 HP2] Hrun.
  destruct (H1 _ _ _ _ HP1 Hrun) as [Hseen Hpost1].
  destruct (H2 _ _ _ _ HP2 Hrun) as [_ Hpost2].
  split; [done|]. by destruct res.
Qed.

Lemma triple_absurd {A} (P : World → Prop) (m : Async A) Q E :
  (∀ w, ¬ P w) → triple rely O P m Q E.
Proof. intros HP w seen res w' Hw. by destruct (HP w). Qed.

Lemma triple_await {A} (P : World → Prop) (p : Outcome A) Q E :
  (∀ w, P w → O w) →
  (∀ w w1 a, P w → rely w w1 → p = Resolved a → Q a w1) →
  (∀ w w1 e, P w → rely w w1 → p = Rejected e → E e w1) →
  triple rely O P (await p) Q E.
Proof.
  intros HO HQ HE. unfold await.
  eapply triple_bind with (R := λ _ w1, ∃ w, P w ∧ rely w w1).
  - apply triple_pause; eauto.
  - intros []. destruct p as [a|e].
    + apply triple_ret. intros w1 (w & ? & ?). eauto.
    + apply triple_throw. intros w1 (w & ? & ?). eauto.
Qed.

Lemma triple_awaitCall {A} (P : World → Prop) (call : Async A) Q' E' Q E :
  triple rely O P call Q' E' →
  (∀ a w, Q' a w → O w) →
  (∀ e w, E' e w → O w) →
  (∀ a w w1, Q' a w → rely w w1 → Q a w1) →
  (∀ e w w1, E' e w → rely w w1 → E e w1) →
  triple rely O P (awaitCall call) Q E.
Proof.
  intros Hcall HOQ HOE HQ HE. unfold awaitCall.
  eapply triple_bind with (R := λ r w, post Q' E' r w).
  - eapply triple_catch with (R := E').
    + eapply triple_bind; [exact Hcall|]. intros a. by apply triple_ret.
    + intros e. by apply triple_ret.
  - intros r. eapply triple_bind with (R := λ _ w1, ∃ w, post Q' E' r w ∧ rely w w1).
    + apply triple_pause; [|eauto]. intros w Hw. destruct r; simpl in Hw; eauto.
    + intros []. destruct r as [a|e].
      * apply triple_ret. intros w1 (w & ? & ?). eauto.
      * apply triple_throw. intros w1 (w & ? & ?). eauto.
Qed.

End Logic.


(** * One driving sequence and its view *)

Lemma actionsOf_app jobId l l' :
  actionsOf jobId (l ++ l') = actionsOf jobId l ++ actionsOf jobId l'.
Proof.
  induction l as [|[id a] l IH]; simpl; [done|].
  case_decide; simpl; by rewrite IH.
Qed.

Lemma progressWrites_app l l' :
  progressWrites (l ++ l') = progressWrites l ++ progressWrites l'.
Proof. induction l as [|[] l IH]; simpl; by rewrite ?IH. Qed.

Lemma pollsIn_app l l' : pollsIn (l ++ l') = (pollsIn l + pollsIn l')%nat.
Proof. induction l as [|[] l IH]; simpl; by rewrite ?IH. Qed.

Lemma sleepsIn_app l l' : sleepsIn (l ++ l') = sleepsIn l ++ sleepsIn l'.
Proof. induction l as [|[] l IH]; simpl; by rewrite ?IH. Qed.

Global Instance Rely_equivalence jobId : Equivalence (Rely jobId).
Proof.
  unfold Rely. split.
  - by intros w.
  - by intros w w1.
  - intros w w1 w2 H1 H2. by rewrite H2.
Qed.

Section Steps.

Context (jobId : string) (O : World → Prop).

Local Abbreviation rely := (Rely jobId).
Local Abbreviation assertion := (Job → list Action → option Buffer → Prop).

Lemma At_stable (φ : assertion) : stable rely (At jobId φ).
Proof.
  intros w w1 (j & Hj & Hφ) Hrely. unfold Rely, view in Hrely.
  injection Hrely as Hjob Hacts Hfile. rewrite Hj in Hjob.
  destruct (jobs w1 !! jobId) as [j1|] eqn:Hj1; [|done].
  apply (inj Some) in Hjob as Hmask.
  exists j1. split; [done|]. by rewrite Hmask, Hacts, Hfile.
Qed.

Lemma step_getJob (φ : assertion) E :
  triple rely O (At jobId φ) (getJob jobId) (λ r w, is_Some r ∧ At jobId φ w) E.
Proof. apply triple_getJob. intros w (j & Hj & Hφ). rewrite Hj. split; [done|]. by exists j. Qed.

Lemma step_assign (φ ψ : assertion) (g : Job → Job) E :
  (∀ j a f, φ (set_videoUrl None j) a f → ψ (set_videoUrl None (g j)) a f) →
  triple rely O (At jobId φ) (assign jobId g) (λ _, At jobId ψ) E.
Proof.
  intros Hg. apply triple_update. intros w (j & Hj & Hφ).
  exists (g j). simpl. rewrite lookup_alter_eq, Hj. split; [done|]. by apply Hg.
Qed.

Lemma step_emit (φ ψ : assertion) (act : Action) E :
  (∀ j a f, φ j a f → ψ j (a ++ [act]) f) →
  triple rely O (At jobId φ) (emit jobId act) (λ _, At jobId ψ) E.
Proof.
  intros Hact. apply triple_update. intros w (j & Hj & Hφ).
  exists j. simpl. split; [done|]. rewrite actionsOf_app. simpl.
  rewrite decide_True by done. by apply Hact.
Qed.

Lemma step_setProgress (φ ψ : assertion) (v : Z) E :
  (∀ j a f, φ (set_videoUrl None j) a f →
            ψ (set_videoUrl None (set_progress v j)) (a ++ [SetProgress v]) f) →
  triple rely O (At jobId φ) (setProgress jobId v) (λ _, At jobId ψ) E.
Proof.
  intros Hv. unfold setProgress.
  eapply triple_bind;
    [apply (step_assign φ (λ j a f, ψ j (a ++ [SetProgress v]) f)); exact Hv|].
  intros []. by apply step_emit.
Qed.

Lemma step_existsSync (φ : assertion) path E :
  triple rely O (At jobId φ) (existsSync path) (λ _, At jobId φ) E.
Proof. apply triple_existsSync. auto. Qed.

Lemma step_isFile (φ : assertion) path E :
  triple rely O (At jobId φ) (isFile path) (λ _, At jobId φ) E.
Proof. apply triple_isFile. auto. Qed.

Lemma step_isDirectory (φ : assertion) path E :
  triple rely O (At jobId φ) (isDirectory path) (λ _, At jobId φ) E.
Proof. apply triple_isDirectory. auto. Qed.

Lemma step_raise (φ : assertion) fault :
  triple rely O (At jobId φ) (raise fault) (λ _, At jobId φ) (λ _, At jobId φ).
Proof. apply triple_raise; auto. Qed.

Lemma step_pause (φ : assertion) E :
  (∀ w, At jobId φ w → O w) → triple rely O (At jobId φ) pause (λ _, At jobId φ) E.
Proof. intros HO. apply triple_pause; [done|]. intros w w1 Hw Hr. by eapply At_stable. Qed.

Lemma step_await {A} (φ : assertion) (p : Outcome A) :
  (∀ w, At jobId φ w → O w) →
  triple rely O (At jobId φ) (await p) (λ _, At jobId φ) (λ _, At jobId φ).
Proof.
  intros HO. apply triple_await; [done|..]; intros; by eapply At_stable.
Qed.

Lemma step_sleep (φ ψ : assertion) ms E :
  (∀ w, At jobId ψ w → O w) →
  (∀ j a f, φ j a f → ψ j (a ++ [Sleep ms]) f) →
  triple rely O (At jobId φ) (sleep jobId ms) (λ _, At jobId ψ) E.
Proof.
  intros HO Hs. unfold sleep. eapply triple_bind; [by apply step_emit|].
  intros []. by apply step_pause.
Qed.

End Steps.

Section Frames.

Context (env : Env) (jobId : string) (O : World → Prop).

Local Abbreviation rely := (Rely jobId).
Local Abbreviation assertion := (Job → list Action → option Buffer → Prop).

Lemma step_awaitCall {A} (φ ψ χ : assertion) (call : Async A) :
  (∀ w, At jobId ψ w → O w) →
  (∀ w, At jobId χ w → O w) →
  triple rely O (At jobId φ) call (λ _, At jobId ψ) (λ _, At jobId χ) →
  triple rely O (At jobId φ) (awaitCall call) (λ _, At jobId ψ) (λ _, At jobId χ).
Proof.
  intros Hψ Hχ Hcall.
  eapply triple_awaitCall; [exact Hcall|simpl; auto..|idtac|idtac]; simpl;
    intros; by eapply At_stable.
Qed.

Lemma getSignedUrl_frame (φ : assertion) signer fileName expiresIn :
  (∀ w, At jobId φ w → O w) →
  triple rely O (At jobId φ) (getSignedUrl signer fileName expiresIn)
    (λ _, At jobId φ) (λ _, At jobId φ).
Proof.
  intros HO. unfold getSignedUrl.
  eapply triple_catch; [by apply step_await|].
  intros e. by apply triple_throw.
Qed.

Lemma uploadVideo_frame (φ : assertion) localFilePath projectId :
  (∀ w, At jobId φ w → O w) →
  triple rely O (At jobId φ) (uploadVideo env localFilePath projectId)
    (λ _, At jobId φ) (λ _, At jobId φ).
Proof.
  intros HO. unfold uploadVideo.
  eapply triple_catch with (R := λ _, At jobId φ); [|intros e; by apply triple_throw].
  eapply triple_bind; [apply step_existsSync|]. intros present.
  destruct present; simpl; [|by apply triple_throw].
  eapply triple_bind; [by apply step_await|]. intros [].
  eapply triple_bind; [apply step_awaitCall; [done..|by apply getSignedUrl_frame]|].
  intros url. by apply triple_ret.
Qed.

(** The calls into [fs]: what they throw leaves the world as it is. *)
Lemma step_mkdirSync (φ : assertion) :
  triple rely O (At jobId φ) (mkdirSync_uploads_videos env)
    (λ _, At jobId φ) (λ _, At jobId φ).
Proof.
  unfold mkdirSync_uploads_videos.
  eapply triple_bind; [apply step_isDirectory|]. intros there.
  destruct there; simpl; [by apply triple_ret|].
  eapply triple_bind; [apply step_isFile|]. intros blocked.
  destruct blocked; simpl; [by apply triple_throw|].
  eapply triple_bind; [apply step_isFile|]. intros taken.
  destruct taken; simpl; [by apply triple_throw|].
  eapply triple_bind; [apply step_raise|]. intros [].
  apply triple_update. intros w (j & Hj & Hφ). by exists j.
Qed.

Lemma step_writeFileSync (φ ψ : assertion) (data : Buffer) :
  (∀ j a f, φ j a f → ψ j a (Some data)) →
  triple rely O (At jobId φ) (writeFileSync env (videoFile jobId) data)
    (λ _, At jobId ψ) (λ _, At jobId φ).
Proof.
  intros Hf. unfold writeFileSync.
  eapply triple_bind; [apply step_isFile|]. intros blocked.
  destruct blocked; simpl; [by apply triple_throw|].
  eapply triple_bind; [apply step_isDirectory|]. intros inside.
  destruct inside; simpl; [|by apply triple_throw].
  eapply triple_bind; [apply step_isDirectory|]. intros taken.
  destruct taken; simpl; [by apply triple_throw|].
  eapply triple_bind; [apply step_raise|]. intros [].
  apply triple_update. intros w (j & Hj & Hφ).
  exists j. simpl. split; [done|]. rewrite lookup_insert_eq. by eapply Hf.
Qed.

Lemma createPlaceholderVideo_spec (φ ψ : assertion) prompt :
  (∀ j a f, φ j a f → ψ j a (Some minimalMP4)) →
  triple rely O (At jobId φ) (createPlaceholderVideo env jobId prompt)
    (λ _, At jobId ψ) (λ _, At jobId φ).
Proof.
  intros Hf. unfold createPlaceholderVideo.
  eapply triple_bind; [apply step_existsSync|]. intros present.
  eapply triple_bind with (R := λ _, At jobId φ).
  - destruct present; simpl; [by apply triple_ret|apply step_mkdirSync].
  - intros []. by apply step_writeFileSync.
Qed.

Lemma saveVideo_spec (φ ψ : assertion) videoBase64 :
  (∀ j a f, φ j a f → ψ j a (Some (Base64 videoBase64))) →
  triple rely O (At jobId φ) (saveVideo env jobId videoBase64)
    (λ _, At jobId ψ) (λ _, At jobId φ).
Proof.
  intros Hf. unfold saveVideo.
  eapply triple_bind; [apply step_existsSync|]. intros present.
  eapply triple_bind with (R := λ _, At jobId φ).
  - destruct present; simpl; [by apply triple_ret|apply step_mkdirSync].
  - intros []. by apply step_writeFileSync.
Qed.

Lemma extractAndSave_spec (φ ψ : assertion) result :
  (∀ j a f data, φ j a f → ψ j a (Some data)) →
  triple rely O (At jobId φ) (extractAndSave env jobId result)
    (λ _, At jobId ψ) (λ _, At jobId φ).
Proof.
  intros Hf. unfold extractAndSave.
  destruct result as [| |result]; [by apply triple_throw..|].
  destruct (videos result) as [[|[video|] ?]|]; [| |by apply triple_throw|].
  - destruct (predictions result) as [[|[prediction|] ?]|]; try by apply triple_throw.
    destruct (negb _); [by apply triple_throw|]. apply saveVideo_spec. intros. by eapply Hf.
  - destruct (negb _); [by apply triple_throw|]. apply saveVideo_spec. intros. by eapply Hf.
  - destruct (predictions result) as [[|[prediction|] ?]|]; try by apply triple_throw.
    destruct (negb _); [by apply triple_throw|]. apply saveVideo_spec. intros. by eapply Hf.
Qed.

End Frames.

(** * Progress *)

Lemma pollProgress_table :
  forallb (λ c, (20 <=? pollProgress c) && (pollProgress c <=? pollProgress (S c))
                && (pollProgress (S c) <=? 90))
          (seq 0 120) = true.
Proof. vm_compute. reflexivity. Qed.

Lemma pollProgress_step c :
  (c < 120)%nat →
  20 ≤ pollProgress c ∧ pollProgress c ≤ pollProgress (S c) ∧ pollProgress (S c) ≤ 90.
Proof.
  intros Hc. pose proof pollProgress_table as Htable.
  rewrite forallb_forall in Htable.
  specialize (Htable c). rewrite in_seq in Htable.
  specialize (Htable ltac:(lia)).
  rewrite !andb_true_iff, !Z.leb_le in Htable. tauto.
Qed.

Lemma pollProgress_0 : pollProgress 0 = 20.
Proof. vm_compute. reflexivity. Qed.

Lemma pollProgress_le_90 c : (c ≤ 120)%nat → pollProgress c ≤ 90.
Proof.
  intros Hc. destruct c as [|c].
  - rewrite pollProgress_0. lia.
  - apply pollProgress_step. lia.
Qed.

Lemma last_cons_default (b : Z) ws d d' :
  List.last (b :: ws) d = List.last (b :: ws) d'.
Proof.
  revert b. induction ws as [|c ws IH]; intros b; [done|].
  change (List.last (c :: ws) d = List.last (c :: ws) d'). apply IH.
Qed.

Lemma nondecreasing_snoc p0 ws v :
  nondecreasing (p0 :: ws) = true →
  List.last ws p0 ≤ v →
  nondecreasing (p0 :: ws ++ [v]) = true.
Proof.
  revert p0. induction ws as [|b ws IH]; intros p0 Hs Hv.
  - simpl in *. rewrite andb_true_r. by apply Z.leb_le.
  - change (nondecreasing (p0 :: b :: ws)) with ((p0 <=? b) && nondecreasing (b :: ws)) in Hs.
    apply andb_true_iff in Hs as [Hp Hs].
    change ((p0 <=? b) && nondecreasing (b :: ws ++ [v]) = true).
    apply andb_true_iff. split; [done|]. apply IH; [done|].
    destruct ws as [|c ws]; [done|].
    change (List.last (c :: ws) b ≤ v). change (List.last (c :: ws) p0 ≤ v) in Hv.
    by rewrite (last_cons_default c ws b p0).
Qed.

Lemma History_start base p0 : History base p0 p0 base.
Proof. exists []. by rewrite app_nil_r. Qed.

Lemma History_write base p0 p v a :
  History base p0 p a → p ≤ v → History base p0 v (a ++ [SetProgress v]).
Proof.
  intros (l & -> & Hs & ->) Hv. exists (l ++ [SetProgress v]).
  unfold lastWrite in *. rewrite progressWrites_app. simpl.
  split; [by rewrite app_assoc|]. split; [by apply nondecreasing_snoc|].
  by rewrite last_last.
Qed.

Lemma History_other base p0 p a act :
  progressWrites [act] = [] →
  History base p0 p a → History base p0 p (a ++ [act]).
Proof.
  intros Hact (l & -> & Hs & ->). exists (l ++ [act]).
  unfold lastWrite. rewrite progressWrites_app, Hact, app_nil_r.
  split; [by rewrite app_assoc|done].
Qed.

Section Progress.

Context (env : Env) (jobId : string) (base : list Action) (p0 : Z).

Local Abbreviation rely := (Rely jobId).
Local Abbreviation O := (At jobId (Consistent base p0)).

Lemma Running_Consistent hi w :
  At jobId (Running base p0 hi) w → O w.
Proof.
  intros (j & Hj & Hh & Hp & Hhi & Hs). exists j. split; [done|].
  split; [done|]. split; [lia|done].
Qed.

Lemma Finished_Consistent w : At jobId (Finished base p0) w → O w.
Proof.
  intros (j & Hj & Hh & Hp & Hs). exists j. split; [done|]. split; [done|]. done.
Qed.

Lemma Running_weaken hi hi' w :
  hi ≤ hi' → hi' < 100 →
  At jobId (Running base p0 hi) w → At jobId (Running base p0 hi') w.
Proof.
  intros ? ? (j & Hj & Hh & Hp & Hhi & Hs). exists j. split; [done|].
  split; [done|]. split; [lia|done].
Qed.

Local Ltac weaken :=
  intros; cbv beta in *;
  first [ eassumption
        | eapply Running_weaken; [| |eassumption]; lia ].

Lemma Running_setProgress hi v E :
  hi ≤ v → v < 100 →
  triple rely O (At jobId (Running base p0 hi)) (setProgress jobId v)
    (λ _, At jobId (Running base p0 v)) E.
Proof.
  intros Hv Hv'. apply step_setProgress.
  intros j a f (Hh & Hp & Hhi & Hs). simpl in *.
  split; [|done]. eapply History_write; [done|lia].
Qed.

Lemma Running_emit hi act E :
  progressWrites [act] = [] →
  triple rely O (At jobId (Running base p0 hi)) (emit jobId act)
    (λ _, At jobId (Running base p0 hi)) E.
Proof.
  intros Hact. apply step_emit. intros j a f (Hh & Hrest).
  split; [by apply History_other|done].
Qed.

Lemma Running_await {A} hi (p : Outcome A) :
  triple rely O (At jobId (Running base p0 hi)) (await p)
    (λ _, At jobId (Running base p0 hi)) (λ _, At jobId (Running base p0 hi)).
Proof. apply step_await. apply Running_Consistent. Qed.

Lemma Running_pollLoop operationName remaining pollCount :
  (pollCount + remaining = 120)%nat →
  triple rely O (At jobId (Running base p0 (pollProgress pollCount)))
    (pollLoop env jobId operationName remaining pollCount)
    (λ _, At jobId (Running base p0 90)) (λ _, At jobId (Running base p0 90)).
Proof.
  revert pollCount. induction remaining as [|remaining IH]; intros pollCount Hc.
  - apply triple_ret. intros w. apply Running_weaken; [|lia].
    apply pollProgress_le_90. lia.
  - destruct (pollProgress_step pollCount ltac:(lia)) as (Hlo & Hstep & Hhi).
    assert (∀ w, At jobId (Running base p0 (pollProgress pollCount)) w →
                 At jobId (Running base p0 90) w) as Hweak.
    { intros w. apply Running_weaken; lia. }
    simpl.
    eapply triple_bind.
    { apply step_sleep with (ψ := Running base p0 (pollProgress pollCount));
        [apply Running_Consistent|].
      intros j a f (Hh & Hrest). split; [by apply History_other|done]. }
    intros [].
    eapply triple_bind;
      [eapply triple_exn; [apply (Running_await (pollProgress pollCount))|auto]|].
    intros [].
    eapply triple_bind;
      [eapply triple_exn; [apply (Running_await (pollProgress pollCount))|auto]|].
    intros token.
    eapply triple_bind; [by apply Running_emit|]. intros [].
    eapply triple_bind;
      [eapply triple_exn; [apply (Running_await (pollProgress pollCount))|auto]|].
    intros opResponse.
    destruct (op_done opResponse); [by apply triple_ret|].
    destruct (op_error opResponse); [by apply triple_throw|].
    eapply triple_bind; [apply Running_setProgress; lia|]. intros [].
    apply IH. lia.
Qed.

Lemma Running_status hi (s : Status) E :
  s ≠ completed →
  triple rely O (At jobId (Running base p0 hi)) (assign jobId (set_status s))
    (λ _, At jobId (Running base p0 hi)) E.
Proof.
  intros Hs. apply step_assign. intros j a f (Hh & Hle & Hhi & _).
  by split_and!.
Qed.

Lemma Finished_assign (g : Job → Job) E :
  (∀ j, progress (set_videoUrl None (g j)) = progress j) →
  (∀ j, status (set_videoUrl None (g j)) = status j) →
  triple rely O (At jobId (Finished base p0)) (assign jobId g)
    (λ _, At jobId (Finished base p0)) E.
Proof.
  intros Hp Hs. apply step_assign. intros j a f (Hh & Hprog & Hst).
  unfold Finished. rewrite Hp, Hs. done.
Qed.

Lemma Finished_uploadVideo localFilePath projectId :
  triple rely O (At jobId (Finished base p0))
    (awaitCall (uploadVideo env localFilePath projectId))
    (λ _, At jobId (Finished base p0)) (λ _, At jobId (Finished base p0)).
Proof.
  apply step_awaitCall; [apply Finished_Consistent..|].
  apply uploadVideo_frame. apply Finished_Consistent.
Qed.

Lemma Written_setProgress hi E :
  triple rely O (At jobId (Running base p0 hi)) (setProgress jobId 100)
    (λ _, At jobId (Written base p0)) E.
Proof.
  apply step_setProgress. intros j a f (Hh & Hle & Hhi & Hst). simpl in *.
  split; [|done]. eapply History_write; [done|lia].
Qed.

Lemma Finished_status E :
  triple rely O (At jobId (Written base p0)) (assign jobId (set_status completed))
    (λ _, At jobId (Finished base p0)) E.
Proof. apply step_assign. by intros j a f (Hh & Hp & _). Qed.

Lemma tryBlock_progress prompt options :
  triple rely O (At jobId (Running base p0 10))
    (tryBlock env jobId prompt options)
    (λ _, At jobId (Finished base p0)) (λ _, At jobId (Running base p0 95)).
Proof.
  assert (∀ hi w, hi ≤ 95 → At jobId (Running base p0 hi) w →
                  At jobId (Running base p0 95) w) as Hweak.
  { intros hi w ?. apply Running_weaken; lia. }
  unfold tryBlock.
  eapply triple_bind; [apply step_getJob|]. intros job.
  destruct job as [job|];
    [|apply triple_absurd; by intros w [[]%is_Some_None _]].
  eapply triple_pre with (P' := At jobId (Running base p0 10));
    [|by intros w [_ ?]].
  eapply triple_bind; [apply (Running_setProgress 10 10); lia|]. intros [].
  eapply triple_bind; [by apply Running_status|]. intros [].
  eapply triple_bind with (R := λ _, At jobId (Running base p0 10)).
  { destruct (negb _); [apply triple_throw|apply triple_ret]; weaken. }
  intros [].
  eapply triple_bind;
    [eapply triple_exn; [apply (Running_await 10)|weaken]|].
  intros [].
  eapply triple_bind;
    [eapply triple_exn; [apply (Running_await 10)|weaken]|].
  intros token.
  eapply triple_bind with (R := λ _, At jobId (Running base p0 10)).
  { destruct (negb _); [apply triple_throw|apply triple_ret]; weaken. }
  intros [].
  eapply triple_bind; [apply (Running_setProgress 10 15); lia|]. intros [].
  eapply triple_bind; [by apply Running_emit|]. intros [].
  eapply triple_bind;
    [eapply triple_exn; [apply (Running_await 15)|weaken]|].
  intros startResponse.
  eapply triple_bind with (R := λ _, At jobId (Running base p0 90)).
  { destruct (start_done startResponse).
    - apply triple_ret. intros w. apply Running_weaken; lia.
    - eapply triple_bind; [apply (Running_setProgress 15 20); lia|]. intros [].
      eapply triple_bind.
      + eapply triple_conseq;
          [apply (Running_pollLoop _ 120 0); lia
          |by rewrite pollProgress_0|done|weaken].
      + intros [result|]; [apply triple_ret|apply triple_throw]; weaken. }
  intros result.
  eapply triple_bind; [apply (Running_setProgress 90 95); lia|]. intros [].
  eapply triple_bind;
    [by apply extractAndSave_spec with (ψ := Running base p0 95)|].
  intros [].
  eapply triple_bind; [apply Written_setProgress|]. intros [].
  eapply triple_bind; [apply Finished_status|]. intros [].
  eapply triple_bind; [by apply Finished_assign|]. intros [].
  eapply triple_bind; [by apply Finished_assign|]. intros [].
  eapply triple_catch with (R := λ _, At jobId (Finished base p0)).
  - eapply triple_bind; [apply Finished_uploadVideo|]. intros uploaded.
    eapply triple_bind; [by apply Finished_assign|]. intros [].
    by apply Finished_assign.
  - intros e. eapply triple_bind; [by apply Finished_assign|]. intros [].
    by apply Finished_assign.
Qed.

Lemma catchBlock_progress prompt options message :
  triple rely O (At jobId (Running base p0 95))
    (catchBlock env jobId prompt options message)
    (λ _, At jobId (Finished base p0)) (λ _, At jobId (Running base p0 95)).
Proof.
  unfold catchBlock.
  eapply triple_bind; [apply step_getJob|]. intros job.
  eapply triple_bind with (R := λ _, At jobId (Running base p0 95)).
  { destruct job as [job|].
    - eapply triple_pre with (P' := At jobId (Running base p0 95));
        [|by intros w [_ ?]].
      eapply triple_bind; [by apply Running_status|]. intros [].
      apply step_assign. intros j a f H. exact H.
    - apply triple_ret. by intros w [_ ?]. }
  intros [].
  eapply triple_bind; [apply step_raise|]. intros [].
  eapply triple_bind with (R := λ _, At jobId (Running base p0 95)).
  { apply step_awaitCall; [apply Running_Consistent..|].
    apply createPlaceholderVideo_spec. by intros j a f H. }
  intros [].
  eapply triple_bind; [apply step_getJob|]. intros fallbackJob.
  destruct fallbackJob as [fallbackJob|];
    [|apply triple_absurd; by intros w [[]%is_Some_None _]].
  eapply triple_pre with (P' := At jobId (Running base p0 95));
    [|by intros w [_ ?]].
  eapply triple_bind; [apply Written_setProgress|]. intros [].
  eapply triple_bind; [apply Finished_status|]. intros [].
  eapply triple_catch with (R := λ _, At jobId (Finished base p0)).
  - eapply triple_bind; [apply Finished_uploadVideo|]. intros uploaded.
    eapply triple_bind; [by apply Finished_assign|]. intros [].
    eapply triple_bind; [by apply Finished_assign|]. intros [].
    by apply Finished_assign.
  - intros e. by apply Finished_assign.
Qed.

Lemma processVideoGeneration_progress prompt options :
  triple rely O (At jobId (Running base p0 10))
    (processVideoGeneration env jobId prompt options)
    (λ _, At jobId (Finished base p0)) (λ _, At jobId (Running base p0 95)).
Proof.
  eapply triple_catch; [apply tryBlock_progress|].
  intros e. apply catchBlock_progress.
Qed.

End Progress.

(** * Polling *)

Lemma Polled_other base n slack j a f act :
  sleepsIn [act] = [] → pollsIn [act] = O →
  Polled base n slack j a f → Polled base n slack j (a ++ [act]) f.
Proof.
  intros Hs Hp (l & -> & Hall & Hle & Hn). exists (l ++ [act]).
  rewrite sleepsIn_app, pollsIn_app, Hs, Hp, app_nil_r, Nat.add_0_r.
  by rewrite app_assoc.
Qed.

Lemma Polled_sleep base n slack j a f :
  Polled base n slack j a f → Polled base (S n) (S slack) j (a ++ [Sleep 5000]) f.
Proof.
  intros (l & -> & Hall & Hle & Hn). exists (l ++ [Sleep 5000]).
  rewrite sleepsIn_app, pollsIn_app, length_app. simpl.
  split; [by rewrite app_assoc|]. split; [|lia].
  apply Forall_app. split; [done|]. by constructor.
Qed.

Lemma Polled_poll base n slack j a f c :
  Polled base n (S slack) j a f → Polled base n slack j (a ++ [Poll c]) f.
Proof.
  intros (l & -> & Hall & Hle & Hn). exists (l ++ [Poll c]).
  rewrite sleepsIn_app, pollsIn_app, app_nil_r. simpl.
  split; [by rewrite app_assoc|]. split; [done|]. lia.
Qed.

Lemma Polled_weaken base n n' j a f :
  (n ≤ n')%nat → Polled base n 0 j a f → Polled base n' 0 j a f.
Proof. intros ? (l & -> & Hall & Hle & Hn). exists l. split_and!; [done..|lia]. Qed.

Section Polling.

Context (env : Env) (jobId : string) (base : list Action).

Local Abbreviation rely := (Rely jobId).
Local Abbreviation O := (λ _ : World, True).

Local Ltac frame :=
  lazymatch goal with
  | |- triple _ _ (At _ ?φ) _ _ _ =>
      first
        [ apply step_assign with (ψ := φ); intros ? ? ? H; exact H
        | apply step_setProgress with (ψ := φ); intros ? ? ? H; by apply Polled_other
        | apply step_emit with (ψ := φ); intros ? ? ? H; by apply Polled_other
        | apply step_await; done ]
  end.

Local Ltac weak := intros; cbv beta in *; eauto.

Lemma Polled_pollLoop operationName remaining pollCount :
  triple rely O (At jobId (Polled base pollCount 0))
    (pollLoop env jobId operationName remaining pollCount)
    (λ r w, At jobId (Polled base (pollCount + remaining) 0) w ∧
            (is_Some r → reportsDone env))
    (λ _, At jobId (Polled base (pollCount + remaining) 0)).
Proof.
  revert pollCount. induction remaining as [|remaining IH]; intros pollCount.
  - apply triple_ret. intros w Hw. rewrite Nat.add_0_r.
    split; [done|]. by intros []%is_Some_None.
  - replace (pollCount + S remaining)%nat with (S (pollCount + remaining))%nat by lia.
    assert (∀ w slack, At jobId (Polled base (S pollCount) slack) w →
                 At jobId (Polled base (S (pollCount + remaining)) 0) w) as Hweak.
    { intros w slack (j & Hj & l & Hl & Hall & Hle & Hn). exists j. split; [done|].
      exists l. split_and!; [done..|lia|lia]. }
    simpl.
    eapply triple_bind.
    { apply step_sleep with (ψ := Polled base (S pollCount) 1); [done|].
      intros j a f. apply Polled_sleep. }
    intros [].
    eapply triple_bind; [eapply triple_exn; [frame|weak]|]. intros [].
    eapply triple_bind; [eapply triple_exn; [frame|weak]|]. intros token.
    eapply triple_bind.
    { apply step_emit with (ψ := Polled base (S pollCount) 0).
      intros j a f. apply Polled_poll. }
    intros [].
    eapply triple_bind.
    { apply triple_await with
        (Q := λ d w, opResponse env (S pollCount) = Resolved d ∧
                     At jobId (Polled base (S pollCount) 0) w)
        (P := At jobId (Polled base (S pollCount) 0)); [done|..].
      - intros w w1 d Hw Hr Heq. split; [done|]. by eapply At_stable.
      - intros w w1 e Hw Hr _. eapply Hweak, At_stable; done. }
    intros opResponse.
    destruct (op_done opResponse) eqn:Hdone.
    + apply triple_ret. intros w [Heq Hw]. split; [by eapply Hweak|].
      intros _. right. eauto.
    + eapply triple_pre with (P' := At jobId (Polled base (S pollCount) 0));
        [|by intros w [_ ?]].
      destruct (op_error opResponse); [apply triple_throw; weak|].
      eapply triple_bind; [frame|]. intros []. apply (IH (S pollCount)).
Qed.

Lemma Completed_assign (g : Job → Job) E :
  (∀ j, progress (set_videoUrl None (g j)) = progress j) →
  (∀ j, status (set_videoUrl None (g j)) = status j) →
  triple rely O (At jobId (Completed base)) (assign jobId g)
    (λ _, At jobId (Completed base)) E.
Proof.
  intros Hp Hs. apply step_assign. intros j a f (Hl & Hst & Hprog).
  unfold Completed. rewrite Hp, Hs. done.
Qed.

Lemma Completed_uploadVideo localFilePath projectId :
  triple rely O (At jobId (Completed base))
    (awaitCall (uploadVideo env localFilePath projectId))
    (λ _, At jobId (Completed base)) (λ _, At jobId (Completed base)).
Proof.
  apply step_awaitCall; [done..|]. by apply uploadVideo_frame.
Qed.

Lemma tryBlock_polls prompt options :
  triple rely O (At jobId (Polled base 0 0))
    (tryBlock env jobId prompt options)
    (λ _ w, reportsDone env ∧ At jobId (Stored jobId base) w)
    (λ _, At jobId (Polled base 120 0)).
Proof.
  assert (∀ w, At jobId (Polled base 0 0) w →
               At jobId (Polled base 120 0) w) as Hweak.
  { intros w (j & Hj & Hl). exists j. split; [done|].
    eapply Polled_weaken; [|done]. lia. }
  unfold tryBlock.
  eapply triple_bind; [apply step_getJob|]. intros job.
  destruct job as [job|];
    [|apply triple_absurd; by intros w [[]%is_Some_None _]].
  eapply triple_pre with (P' := At jobId (Polled base 0 0));
    [|by intros w [_ ?]].
  eapply triple_bind; [frame|]. intros [].
  eapply triple_bind; [frame|]. intros [].
  eapply triple_bind with (R := λ _, At jobId (Polled base 0 0)).
  { destruct (negb _); [apply triple_throw|apply triple_ret]; weak. }
  intros [].
  eapply triple_bind; [eapply triple_exn; [frame|weak]|]. intros [].
  eapply triple_bind; [eapply triple_exn; [frame|weak]|]. intros token.
  eapply triple_bind with (R := λ _, At jobId (Polled base 0 0)).
  { destruct (negb _); [apply triple_throw|apply triple_ret]; weak. }
  intros [].
  eapply triple_bind; [frame|]. intros [].
  eapply triple_bind; [frame|]. intros [].
  eapply triple_bind.
  { apply triple_await with
      (Q := λ d w, startResponse env = Resolved d ∧ At jobId (Polled base 0 0) w)
      (P := At jobId (Polled base 0 0)); [done|..].
    - intros w w1 d Hw Hr Heq. split; [done|]. by eapply At_stable.
    - intros w w1 e Hw Hr _. eapply Hweak, At_stable; done. }
  intros startResponse.
  eapply triple_bind with
    (R := λ _ w, reportsDone env ∧ At jobId (Polled base 120 0) w).
  { destruct (start_done startResponse) eqn:Hdone.
    - apply triple_ret. intros w [Heq Hw]. split; [left; eauto|weak].
    - eapply triple_pre with (P' := At jobId (Polled base 0 0));
        [|by intros w [_ ?]].
      eapply triple_bind; [frame|]. intros [].
      eapply triple_bind; [apply (Polled_pollLoop _ 120 0)|].
      intros [result|].
      + apply triple_ret. intros w [Hw Hd]. split; [by apply Hd|done].
      + apply triple_throw. by intros w [Hw _]. }
  intros result. apply triple_pure. intros Hdone.
  eapply triple_bind; [frame|]. intros [].
  eapply triple_bind;
    [apply extractAndSave_spec with (ψ := Polled base 120 0); by intros|].
  intros [].
  eapply triple_bind.
  { apply step_setProgress with
      (ψ := λ j a f, Polled base 120 0 j a f ∧ progress j = 100).
    intros j a f H. split; [by apply Polled_other|done]. }
  intros [].
  eapply triple_bind.
  { apply step_assign with (ψ := Completed base).
    intros j a f [Hl Hp]. by split_and!. }
  intros [].
  eapply triple_conseq with
    (Q' := λ _, At jobId (Stored jobId base)) (E' := λ _ _, False);
    [|done|by intros; split|done].
  eapply triple_bind; [by apply Completed_assign|]. intros [].
  eapply triple_bind.
  { apply step_assign with (ψ := Stored jobId base). by intros j a f H. }
  intros [].
  assert (∀ (g : Job → Job) E,
    (∀ j a f, Stored jobId base (set_videoUrl None j) a f →
              Stored jobId base (set_videoUrl None (g j)) a f) →
    triple rely O (At jobId (Stored jobId base)) (assign jobId g)
      (λ _, At jobId (Stored jobId base)) E) as Hassign.
  { intros g E Hg. by apply step_assign. }
  eapply triple_catch with (R := λ _, At jobId (Stored jobId base)).
  - eapply triple_bind.
    { apply step_awaitCall; [done..|]. by apply uploadVideo_frame. }
    intros uploaded.
    eapply triple_bind; [by apply Hassign|]. intros [].
    by apply Hassign.
  - intros e. eapply triple_bind; [by apply Hassign|]. intros [].
    by apply Hassign.
Qed.

Lemma videoFile_inside jobId' :
  videoFile jobId' ≠ "" ∧ dirname (videoFile jobId') ≠ "".
Proof. done. Qed.

(** [createPlaceholderVideo] has no [await]: it is over when the call
    returns, with the placeholder written if the disk takes it and with no
    file changed otherwise. *)
Lemma createPlaceholderVideo_run prompt w :
  if takes env jobId minimalMP4 w
  then ∃ d, createPlaceholderVideo env jobId prompt w
            = Done (Return tt)
                {| jobs := jobs w;
                   files := <[videoFile jobId := minimalMP4]> (files w);
                   dirs := d; log := log w |}
  else ∃ e d, createPlaceholderVideo env jobId prompt w
              = Done (Throw e)
                  {| jobs := jobs w; files := files w; dirs := d; log := log w |}.
Proof.
  destruct (videoFile_inside jobId) as [Hpath Hdirname].
  assert (∀ (x : string) (D : gset string),
            x ≠ "" → bool_decide (x = "" ∨ x ∈ D) = bool_decide (x ∈ D)) as Hin.
  { intros x D Hx. apply bool_decide_ext. tauto. }
  unfold takes, createPlaceholderVideo, writeFileSync, mkdirSync_uploads_videos,
    raise, mbind, Async_bind, existsSync, isFile, isDirectory, update, throw,
    mret, Async_ret.
  cbn [bindRun].
  destruct (bool_decide (uploadDir ∈ dirs w)) eqn:Hdir;
    [|destruct (bool_decide (is_Some (files w !! uploadDir))) eqn:Hfile];
    cbn [orb negb andb bindRun].
  all: repeat first
         [ progress cbn [bindRun orb negb andb files dirs jobs log]
         | progress rewrite ?(Hin (videoFile jobId)), ?(Hin (dirname (videoFile jobId))),
             ?(Hin uploadDir) by done
         | match goal with
           | |- context [bool_decide ?P] => destruct (bool_decide P) eqn:?
           end
         | match goal with
           | |- context [match ?x with Some _ => _ | None => _ end] =>
               destruct x eqn:?
           end ];
       first [done | by eexists | destruct w; by do 2 eexists].
Qed.

Lemma createPlaceholderVideo_takes
    (φ ψ : Job → list Action → option Buffer → Prop) prompt b :
  (∀ j a f, φ j a f → ψ j a (Some minimalMP4)) →
  triple rely O
    (λ w, At jobId φ w ∧ takes env jobId minimalMP4 w = b)
    (createPlaceholderVideo env jobId prompt)
    (λ _ w, b = true ∧ At jobId ψ w)
    (λ _ w, b = false ∧ At jobId φ w).
Proof.
  intros Hf w seen res w' [(j & Hj & Hφ) Htakes] Hrun.
  pose proof (createPlaceholderVideo_run prompt w) as Hcall.
  rewrite Htakes in Hcall. destruct b.
  - destruct Hcall as [d Hcall]. rewrite Hcall in Hrun. inversion Hrun; subst.
    split; [constructor|]. split; [done|].
    exists j. simpl. rewrite lookup_insert_eq. split; [done|]. by eapply Hf.
  - destruct Hcall as (e & d & Hcall). rewrite Hcall in Hrun. inversion Hrun; subst.
    split; [constructor|]. split; [done|]. by exists j.
Qed.

(** The [catch] block: it falls back to the placeholder if the details of
    the error get rendered and the disk takes the placeholder, and throws
    otherwise, leaving the job [failed]. *)
Lemma catchBlock_fallback prompt options message b :
  triple rely O
    (λ w, At jobId (Polled base 120 0) w
          ∧ rendered env message && takes env jobId minimalMP4 w = b)
    (catchBlock env jobId prompt options message)
    (λ _ w, b = true
            ∧ At jobId (λ j a f, FellBack base message j a f ∧ Located jobId j) w)
    (λ _ w, b = false ∧ At jobId (Abandoned base message) w).
Proof.
  set (cond := λ w, rendered env message && takes env jobId minimalMP4 w).
  assert (∀ (φ ψ : Job → list Action → option Buffer → Prop) g E,
    (∀ j a f, φ (set_videoUrl None j) a f → ψ (set_videoUrl None (g j)) a f) →
    triple rely O (λ w, At jobId φ w ∧ cond w = b) (assign jobId g)
      (λ _ w, At jobId ψ w ∧ cond w = b) E) as Hdisk.
  { intros φ ψ g E Hg.
    eapply triple_exn with (E' := λ _ w, False ∧ False); [|by intros ? ? []].
    apply triple_and; [by apply step_assign|].
    apply triple_update. by intros w <-. }
  unfold catchBlock.
  eapply triple_bind.
  { apply triple_getJob with
      (Q := λ r w, is_Some r ∧ At jobId (Polled base 120 0) w ∧ cond w = b).
    intros w [(j & Hj & Hφ) Hb]. rewrite Hj. split; [done|]. split; [by exists j|done]. }
  intros job.
  destruct job as [job|];
    [|apply triple_absurd; by intros w [[]%is_Some_None _]].
  eapply triple_pre with
    (P' := λ w, At jobId (Polled base 120 0) w ∧ cond w = b);
    [|by intros w [_ ?]].
  eapply triple_bind with
    (R := λ _ w, At jobId (Abandoned base message) w ∧ cond w = b).
  { eapply triple_bind.
    - apply Hdisk with (ψ := λ j a f, Polled base 120 0 j a f ∧ status j = failed).
      by intros j a f H.
    - intros []. apply Hdisk. by intros j a f [? ?]. }
  intros [].
  eapply triple_bind with
    (R := λ _ w, At jobId (Abandoned base message) w
                 ∧ takes env jobId minimalMP4 w = b).
  { apply triple_raise.
    - intros w [Hw Hb] Hfault. split; [done|].
      unfold cond, rendered in Hb. by rewrite Hfault in Hb.
    - intros w e [Hw Hb] Hfault. split; [|done].
      unfold cond, rendered in Hb. by rewrite Hfault in Hb. }
  intros [].
  eapply triple_bind with
    (R := λ _ w, b = true
                 ∧ At jobId (λ j a f, Abandoned base message j a f
                                      ∧ f = Some minimalMP4) w).
  { eapply triple_awaitCall;
      [apply createPlaceholderVideo_takes with
         (ψ := λ j a f, Abandoned base message j a f ∧ f = Some minimalMP4);
       by intros
      |done|done|..].
    - intros [] w w1 [Hb Hw] Hr. split; [done|]. by eapply At_stable.
    - intros e w w1 [Hb Hw] Hr. split; [done|]. by eapply At_stable. }
  intros []. apply triple_pure. intros ->.
  eapply triple_conseq with
    (Q' := λ _, At jobId (λ j a f, FellBack base message j a f ∧ Located jobId j))
    (E' := λ _ _, False); [|done|by intros|done].
  eapply triple_bind; [apply step_getJob|]. intros fallbackJob.
  destruct fallbackJob as [fallbackJob|];
    [|apply triple_absurd; by intros w [[]%is_Some_None _]].
  eapply triple_pre; [|by intros w [_ H]; exact H].
  eapply triple_bind.
  { apply step_setProgress with
      (ψ := λ j a f, Polled base 120 0 j a f ∧ error j = Some message
                     ∧ f = Some minimalMP4 ∧ progress j = 100).
    intros j a f ((Hl & _ & He) & Hf). split_and!; [by apply Polled_other|done..]. }
  intros [].
  eapply triple_bind.
  { apply step_assign with (ψ := FellBack base message).
    intros j a f (Hl & He & Hf & Hp). by split_and!. }
  intros [].
  assert (∀ (g : Job → Job) E,
    (∀ j, progress (set_videoUrl None (g j)) = progress j) →
    (∀ j, status (set_videoUrl None (g j)) = status j) →
    (∀ j, error (set_videoUrl None (g j)) = error j) →
    triple rely O (At jobId (FellBack base message)) (assign jobId g)
      (λ _, At jobId (FellBack base message)) E) as Hassign.
  { intros g E Hp Hs He. apply step_assign.
    intros j a f ((Hl & Hst & Hprog) & Herr & Hf).
    unfold FellBack, Completed. rewrite Hp, Hs, He. done. }
  eapply triple_catch with (R := λ _, At jobId (FellBack base message)).
  - eapply triple_bind.
    { apply step_awaitCall; [done..|]. by apply uploadVideo_frame. }
    intros uploaded.
    eapply triple_bind.
    { apply step_assign with
        (ψ := λ j a f, FellBack base message j a f ∧ is_Some (gcsFileName j)).
      intros j a f H. split; [exact H|]. simpl. eauto. }
    intros [].
    eapply triple_bind.
    { apply step_assign with
        (ψ := λ j a f, FellBack base message j a f ∧ is_Some (gcsFileName j)).
      by intros j a f H. }
    intros [].
    apply step_assign. intros j a f [H Hkey]. split; [exact H|]. by right.
  - intros e. apply step_assign. intros j a f H. split; [exact H|]. by left.
Qed.

Lemma catchBlock_spec prompt options message :
  triple rely O (At jobId (Polled base 120 0))
    (catchBlock env jobId prompt options message)
    (λ _, At jobId (λ j a f, FellBack base message j a f ∧ Located jobId j))
    (λ _, At jobId (Abandoned base message)).
Proof.
  intros w seen res w' Hw Hrun.
  destruct (catchBlock_fallback prompt options message _ w seen res w'
              (conj Hw eq_refl) Hrun) as [Hseen Hpost].
  split; [done|]. destruct res; simpl in *; tauto.
Qed.


Lemma processVideoGeneration_located prompt options :
  triple rely O (At jobId (Polled base 0 0))
    (processVideoGeneration env jobId prompt options)
    (λ _, At jobId (λ j a f,
            status j = completed ∧
            (videoPath j = Some (videoFile jobId) ∨
             (is_Some (error j) ∧ Located jobId j))))
    (λ _ _, True).
Proof.
  eapply triple_catch; [eapply triple_conseq; [apply tryBlock_polls|done| |done]|].
  - intros [] w [_ (j & Hj & (_ & Hst & _) & Hpath)]. exists j.
    split; [done|]. split; [done|by left].
  - intros e. eapply triple_conseq; [apply catchBlock_spec|done| |done].
    intros [] w (j & Hj & ((_ & Hst & _) & He & _) & Hloc). exists j.
    split; [done|]. split; [done|]. right. by rewrite He.
Qed.

End Polling.

(** * A task run alone *)

Lemma runs_complete {A} (rely : relation World) `{!Reflexive rely} (r : Run A) :
  runs rely r (observations r) (result r) (final r).
Proof.
  induction r as [res w|w k IH].
  - apply runs_Done.
  - specialize (IH w). unfold observations, result, final in *. simpl.
    destruct (complete (k w)) as [seen [res w']]. simpl in *.
    by apply runs_Paused with (w1 := w).
Qed.

Lemma catchRun_throw {A} (r : Run A) (h : string → Async A) e :
  result r = Throw e →
  result (catchRun r h) = result (h e (final r)) ∧
  final (catchRun r h) = final (h e (final r)).
Proof.
  induction r as [res w|w k IH]; intros Hres.
  - unfold result in Hres. simpl in Hres. by subst res.
  - unfold observations, result, final in *. simpl in *.
    specialize (IH w).
    destruct (complete (k w)) as [seen [res w']]. simpl in *.
    destruct (complete (catchRun (k w) h)) as [seen' [res' w'']]. simpl in *.
    by apply IH.
Qed.

Lemma current_seen {A} (rely : relation World) (r : Run A) seen res w' :
  runs rely r seen res w' → current r ∈ seen ++ [w'].
Proof. intros Hrun. destruct Hrun; simpl; set_solver. Qed.

Lemma At_present jobId w :
  is_Some (jobs w !! jobId) →
  At jobId (Polled (actionsOf jobId (log w)) 0 0) w.
Proof.
  intros [j Hj]. exists j. split; [done|]. exists [].
  rewrite app_nil_r. simpl. split_and!; [done|constructor|lia|lia].
Qed.

Lemma complete_bindRun {A B} (r : Run A) (f : A → Async B) :
  complete (bindRun r f) =
    match complete r with
    | (seen, (Return a, w)) =>
        let '(seen', out) := complete (f a w) in (seen ++ seen', out)
    | (seen, (Throw e, w)) => (seen, (Throw e, w))
    end.
Proof.
  induction r as [res w|w k IH]; simpl.
  - destruct res; [|done]. by destruct (complete _).
  - rewrite IH. destruct (complete (k w)) as [seen [[a|e] w']]; [|done].
    by destruct (complete (f a w')).
Qed.

Lemma bindRun_return {A B} (r : Run A) (f : A → Async B) a :
  result r = Return a →
  result (bindRun r f) = result (f a (final r)) ∧
  final (bindRun r f) = final (f a (final r)).
Proof.
  unfold result, final. rewrite complete_bindRun.
  destruct (complete r) as [seen [res w]]. simpl. intros ->.
  by destruct (complete (f a w)).
Qed.

Lemma bindRun_throw {A B} (r : Run A) (f : A → Async B) e :
  result r = Throw e →
  result (bindRun r f) = Throw e ∧ final (bindRun r f) = final r.
Proof.
  unfold result, final. rewrite complete_bindRun.
  destruct (complete r) as [seen [res w]]. simpl. by intros ->.
Qed.

Lemma result_Paused {A} w (k : World → Run A) : result (Paused w k) = result (k w).
Proof. unfold result. simpl. by destruct (complete (k w)). Qed.

Lemma final_Paused {A} w (k : World → Run A) : final (Paused w k) = final (k w).
Proof. unfold final. simpl. by destruct (complete (k w)). Qed.

Lemma final_throw {A} e w : final (@throw A e w) = w.
Proof. reflexivity. Qed.

(** * Why the [try] block throws *)

Lemma pollLoop_S env jobId operationName remaining pollCount :
  pollLoop env jobId operationName (S remaining) pollCount =
    (sleep jobId 5000 ;;
     await (pollClient env (S pollCount)) ;;
     await (pollToken env (S pollCount)) ;;
     emit jobId (Poll (S pollCount)) ;;
     opResponse ← await (opResponse env (S pollCount));
     if op_done opResponse then mret (op_response opResponse)
     else
       match op_error opResponse with
       | Some e => throw ("Veo 3 API error: " +:+ e)
       | None =>
           setProgress jobId (pollProgress (S pollCount)) ;;
           pollLoop env jobId operationName remaining (S pollCount)
       end).
Proof. reflexivity. Qed.

Section Failures.

Context (env : Env) (jobId prompt : string) (options : Options) (w : World).

Hypothesis registered : is_Some (jobs w !! jobId).
Hypothesis configured : Js.truthy (keyFilePath env) = true.

Local Arguments pollLoop : simpl never.
Local Arguments extractAndSave : simpl never.

(** The OAuth client cannot be obtained. *)
Lemma throws_without_client message :
  authClient env = Rejected message →
  result (tryBlock env jobId prompt options w) = Throw message.
Proof.
  destruct registered as [job Hjob]. intros Hclient.
  unfold tryBlock, mbind, Async_bind, getJob, result. simpl.
  rewrite Hjob. simpl. rewrite configured. simpl. by rewrite Hclient.
Qed.

(** No access token. *)
Lemma throws_without_token token :
  authClient env = Resolved tt →
  accessToken env = Resolved token → Js.truthy token = false →
  result (tryBlock env jobId prompt options w) = Throw "Failed to get access token".
Proof.
  destruct registered as [job Hjob]. intros Hclient Htoken Hfalsy.
  unfold tryBlock, mbind, Async_bind, getJob, result. simpl.
  rewrite Hjob. simpl. rewrite configured. simpl. rewrite Hclient. simpl.
  rewrite Htoken. simpl. by rewrite Hfalsy.
Qed.

Hypothesis client : authClient env = Resolved tt.
Hypothesis token : ∃ t, accessToken env = Resolved t ∧ Js.truthy t = true.

(** The submission is refused or does not get through. *)
Lemma throws_when_submission_fails message :
  startResponse env = Rejected message →
  result (tryBlock env jobId prompt options w) = Throw message.
Proof.
  destruct registered as [job Hjob]. destruct token as (t & Htoken & Htruthy).
  intros Hstart.
  unfold tryBlock, mbind, Async_bind, getJob, result. simpl.
  rewrite Hjob. simpl. rewrite configured. simpl. rewrite client. simpl.
  rewrite Htoken. simpl. rewrite Htruthy. simpl. by rewrite Hstart.
Qed.

(** The operation is done at once, with nothing to extract. *)
Lemma throws_when_nothing_to_extract d r :
  startResponse env = Resolved d → start_done d = true →
  start_response d = Js.Just r →
  videos r = None → predictions r = None →
  result (tryBlock env jobId prompt options w)
  = Throw ("No video content in response: " +:+ result_asJson r).
Proof.
  destruct registered as [job Hjob]. destruct token as (t & Htoken & Htruthy).
  intros Hstart Hdone Hr Hv Hp.
  unfold tryBlock, mbind, Async_bind, getJob, result. simpl.
  rewrite Hjob. simpl. rewrite configured. simpl. rewrite client. simpl.
  rewrite Htoken. simpl. rewrite Htruthy. simpl. rewrite Hstart. simpl.
  rewrite Hdone. simpl. unfold extractAndSave. by rewrite Hr, Hv, Hp.
Qed.

Local Arguments result : simpl never.
Local Arguments final : simpl never.

(** The first poll reports an error. *)
Lemma throws_when_poll_reports_error d t op e :
  startResponse env = Resolved d → start_done d = false →
  pollClient env 1 = Resolved tt → pollToken env 1 = Resolved t →
  opResponse env 1 = Resolved op → op_done op = false → op_error op = Some e →
  result (tryBlock env jobId prompt options w) = Throw ("Veo 3 API error: " +:+ e).
Proof.
  destruct registered as [job Hjob]. destruct token as (t0 & Htoken & Htruthy).
  intros Hstart Hdone Hc Ht Hop Hopdone Herr.
  unfold tryBlock, mbind, Async_bind, getJob. simpl.
  rewrite Hjob. simpl. rewrite configured. simpl. rewrite !result_Paused.
  rewrite client. simpl. rewrite !result_Paused.
  rewrite Htoken. simpl. rewrite Htruthy. simpl. rewrite !result_Paused.
  rewrite Hstart. simpl. rewrite Hdone. simpl.
  unfold maxPolls. rewrite pollLoop_S. unfold mbind, Async_bind. simpl.
  rewrite !result_Paused.
  rewrite Hc. simpl. rewrite !result_Paused.
  rewrite Ht. simpl. rewrite !result_Paused.
  rewrite Hop. simpl. by rewrite Hopdone, Herr.
Qed.

Hypothesis pollClients : ∀ n, pollClient env n = Resolved tt.
Hypothesis pollTokens : ∀ n, ∃ t, pollToken env n = Resolved t.
Hypothesis stillRunning :
  ∀ n, ∃ op, opResponse env n = Resolved op ∧ op_done op = false ∧ op_error op = None.

Lemma pollLoop_exhausts operationName remaining pollCount w0 :
  let run := pollLoop env jobId operationName remaining pollCount w0 in
  result run = Return None ∧
  pollsIn (actionsOf jobId (log (final run)))
  = (pollsIn (actionsOf jobId (log w0)) + remaining)%nat ∧
  sleepsIn (actionsOf jobId (log (final run)))
  = sleepsIn (actionsOf jobId (log w0)) ++ replicate remaining 5000.
Proof.
  revert pollCount w0. induction remaining as [|remaining IH]; intros pollCount w0.
  - simpl. split; [done|]. by rewrite Nat.add_0_r, app_nil_r.
  - destruct (pollTokens (S pollCount)) as [t Ht].
    destruct (stillRunning (S pollCount)) as (op & Hop & Hdone & Herr).
    cbv zeta. rewrite pollLoop_S. unfold mbind, Async_bind. simpl.
    rewrite !result_Paused, !final_Paused.
    rewrite pollClients. simpl. rewrite !result_Paused, !final_Paused.
    rewrite Ht. simpl. rewrite !result_Paused, !final_Paused.
    rewrite Hop. simpl. rewrite Hdone, Herr. simpl.
    destruct (IH (S pollCount)
      {| jobs := alter (set_progress (pollProgress (S pollCount))) jobId (jobs w0);
         files := files w0; dirs := dirs w0;
         log := ((log w0 ++ [(jobId, Sleep 5000)]) ++ [(jobId, Poll (S pollCount))])
                  ++ [(jobId, SetProgress (pollProgress (S pollCount)))] |})
      as (Hres & Hpolls & Hsleeps).
    split; [exact Hres|]. rewrite Hpolls, Hsleeps. simpl.
    rewrite !actionsOf_app, !pollsIn_app, !sleepsIn_app. simpl.
    rewrite !decide_True by done. simpl.
    split; [lia|]. by rewrite !app_nil_r, <- !app_assoc.
Qed.

(** Every poll answers "still running": the bound is reached. *)
Lemma throws_timeout_after_120_polls d :
  startResponse env = Resolved d → start_done d = false →
  let run := tryBlock env jobId prompt options w in
  result run = Throw "Video generation timeout - operation took too long" ∧
  pollsIn (actionsOf jobId (log (final run)))
  = (pollsIn (actionsOf jobId (log w)) + 120)%nat ∧
  sleepsIn (actionsOf jobId (log (final run)))
  = sleepsIn (actionsOf jobId (log w)) ++ replicate 120 5000.
Proof.
  destruct registered as [job Hjob]. destruct token as (t0 & Htoken & Htruthy).
  intros Hstart Hdone run. subst run.
  unfold tryBlock, mbind, Async_bind, getJob.
  remember (pollLoop env jobId) as loop eqn:Hloop. simpl.
  rewrite Hjob. simpl. rewrite configured. simpl.
  rewrite !result_Paused, !final_Paused.
  rewrite client. simpl. rewrite !result_Paused, !final_Paused.
  rewrite Htoken. simpl. rewrite Htruthy. simpl.
  rewrite !result_Paused, !final_Paused.
  rewrite Hstart. simpl. rewrite Hdone. simpl.
  match goal with
  | |- context [bindRun (bindRun (loop ?op ?r ?c ?w5) ?g) ?h] =>
      destruct (pollLoop_exhausts op r c w5) as (Hres & Hpolls & Hsleeps);
      rewrite <- Hloop in Hres, Hpolls, Hsleeps;
      destruct (bindRun_return (loop op r c w5) g None Hres) as [Hres' Hfin'];
      simpl in Hres', Hfin';
      destruct (bindRun_throw (bindRun (loop op r c w5) g) h _ Hres') as [-> ->]
  end.
  rewrite Hfin', !final_throw. split; [done|].
  rewrite Hpolls, Hsleeps. simpl.
  rewrite !actionsOf_app, !pollsIn_app, !sleepsIn_app. simpl.
  rewrite !decide_True by done. simpl.
  by rewrite !app_nil_r, !Nat.add_0_r.
Qed.

End Failures.

(** * The driving sequence *)

Lemma runs_catch_throw {A} (rely : relation World) (r : Run A)
    (h : string → Async A) seen e w1 seen' res w' :
  runs rely r seen (Throw e) w1 →
  runs rely (h e w1) seen' res w' →
  runs rely (catchRun r h) (seen ++ seen') res w'.
Proof.
  intros Hr Hh. remember (Throw e) as res1 eqn:Hres.
  induction Hr as [res1 w|w w2 k seen res1 w1 Hrely Hk IH]; subst; simpl.
  - done.
  - econstructor; [done|]. by apply IH.
Qed.

(** A [try] block that throws was started on a registered job. *)
Lemma tryBlock_registered env jobId prompt options w seen message wT :
  runs (Rely jobId) (tryBlock env jobId prompt options w) seen (Throw message) wT →
  is_Some (jobs w !! jobId).
Proof.
  intros Hrun. destruct (jobs w !! jobId) as [j|] eqn:Hj; [done|].
  unfold tryBlock, mbind, Async_bind, getJob in Hrun. simpl in Hrun.
  rewrite Hj in Hrun. inversion Hrun.
Qed.

(** What the [catch] block makes of a throw. *)
Lemma caught env jobId prompt options w seen message wT seen' res w' :
  runs (Rely jobId) (tryBlock env jobId prompt options w) seen (Throw message) wT →
  runs (Rely jobId) (catchBlock env jobId prompt options message wT) seen' res w' →
  if rendered env message && takes env jobId minimalMP4 wT
  then res = Return tt ∧
       At jobId (λ j a f, FellBack (actionsOf jobId (log w)) message j a f ∧
                          Located jobId j) w'
  else (∃ e, res = Throw e) ∧
       At jobId (Abandoned (actionsOf jobId (log w)) message) w'.
Proof.
  intros Htry Hcatch.
  pose proof (tryBlock_registered _ _ _ _ _ _ _ _ Htry) as Hjob.
  destruct (tryBlock_polls env jobId _ prompt options _ _ _ _
              (At_present _ _ Hjob) Htry) as [_ HwT]. simpl in HwT.
  destruct (catchBlock_fallback env jobId _ prompt options message _ _ _ _ _
              (conj HwT eq_refl) Hcatch) as [_ Hpost].
  destruct res as [[]|e]; simpl in Hpost; destruct Hpost as [-> Hw']; eauto.
Qed.

(** C1, as the code has it.  Whenever the [try] block of the driving
    sequence throws, for whatever reason and under whatever schedule
    leaves the job alone, the [catch] block records the message of the
    failure in [error].  If the details of the error get rendered for the
    console and the disk takes the placeholder, it writes the placeholder
    at the artifact path of the job, and the job ends with status
    [completed] and progress 100; the driving sequence ends normally.
    Otherwise the [catch] block throws itself, and with it the driving
    sequence: the job is left [failed]. *)
Theorem fallback_on_failure env jobId prompt options w seen message wT seen' res w' :
  runs (Rely jobId) (tryBlock env jobId prompt options w) seen (Throw message) wT →
  runs (Rely jobId) (catchBlock env jobId prompt options message wT) seen' res w' →
  runs (Rely jobId) (processVideoGeneration env jobId prompt options w)
    (seen ++ seen') res w' ∧
  ∃ j, jobs w' !! jobId = Some j ∧ error j = Some message ∧
       if rendered env message && takes env jobId minimalMP4 wT
       then res = Return tt ∧ status j = completed ∧ progress j = 100 ∧
            files w' !! videoFile jobId = Some minimalMP4
       else (∃ e, res = Throw e) ∧ status j = failed.
Proof.
  intros Htry Hcatch.
  split; [by eapply runs_catch_throw|].
  pose proof (caught _ _ _ _ _ _ _ _ _ _ _ Htry Hcatch) as Hpost.
  destruct (rendered env message && takes env jobId minimalMP4 wT).
  - destruct Hpost as (-> & j & Hj & ((_ & Hst & Hp) & He & Hf) & _).
    exists j. by split_and!.
  - destruct Hpost as (Hres & j & Hj & _ & Hst & He).
    exists j. by split_and!.
Qed.

Lemma fallback_on_failure_witness :
  let env := Scenario.submissionFails in
  let w := register env Scenario.jobId "A lighthouse at dawn" Scenario.options0
             Scenario.emptyWorld in
  let message := "Request failed with status code 500" in
  let tried := tryBlock env Scenario.jobId "A lighthouse at dawn" Scenario.options0 w in
  let handled := catchBlock env Scenario.jobId "A lighthouse at dawn" Scenario.options0
                   message (final tried) in
  runs (Rely Scenario.jobId) tried (observations tried) (Throw message) (final tried) ∧
  runs (Rely Scenario.jobId) handled (observations handled) (result handled)
    (final handled) ∧
  rendered env message && takes env Scenario.jobId minimalMP4 (final tried) = true ∧
  runs (Rely Scenario.jobId)
    (processVideoGeneration env Scenario.jobId "A lighthouse at dawn" Scenario.options0 w)
    (observations tried ++ observations handled) (result handled) (final handled) ∧
  ∃ j, jobs (final handled) !! Scenario.jobId = Some j ∧ error j = Some message ∧
       if rendered env message && takes env Scenario.jobId minimalMP4 (final tried)
       then result handled = Return tt ∧ status j = completed ∧ progress j = 100 ∧
            files (final handled) !! videoFile Scenario.jobId = Some minimalMP4
       else (∃ e, result handled = Throw e) ∧ status j = failed.
Proof.
  intros env w message tried handled.
  assert (runs (Rely Scenario.jobId) tried (observations tried) (Throw message)
            (final tried)) as Htry
    by exact (runs_complete (Rely Scenario.jobId) tried).
  assert (runs (Rely Scenario.jobId) handled (observations handled) (result handled)
            (final handled)) as Hcatch
    by exact (runs_complete (Rely Scenario.jobId) handled).
  split_and!; [exact Htry|exact Hcatch|reflexivity|..];
    apply (fallback_on_failure env Scenario.jobId "A lighthouse at dawn"
             Scenario.options0 w _ message _ _ _ _ Htry Hcatch).
Defined.

(** C1, as the specification has it, fails where the disk does not take
    the placeholder.  Here the provider rejects the submission and the disk
    is read-only: the driving sequence fails, the [catch] block throws
    while making the placeholder, and the job is left [failed] at progress
    15, with no file at its artifact path. *)
Lemma fallback_without_placeholder_counterexample :
  let env := Scenario.readOnlyDisk in
  let w := register env Scenario.jobId "A lighthouse at dawn" Scenario.options0
             Scenario.emptyWorld in
  let task := Scenario.task env in
  result (tryBlock env Scenario.jobId "A lighthouse at dawn" Scenario.options0 w)
  = Throw "Request failed with status code 500" ∧
  result task
  = Throw "EROFS: read-only file system, mkdir '/srv/veoflow/uploads/videos'" ∧
  files (final task) !! videoFile Scenario.jobId = None ∧
  jobs (final task) !! Scenario.jobId
  = Some {| status := failed; prompt := "A lighthouse at dawn";
            options := Scenario.options0; startTime := 1700000000000;
            progress := 15; completedAt := None; videoPath := None;
            gcsFileName := None; videoUrl := None;
            error := Some "Request failed with status code 500" |}.
Proof. vm_compute. done. Qed.



(** With every poll answered "still running", the bound is reached and the
    failure is the timeout; the run then ends normally. *)
Example neverDone_times_out :
  let task := Scenario.task Scenario.neverDone in
  let w := final task in
  result task = Return tt ∧
  pollsIn (actionsOf Scenario.jobId (log w)) = 120%nat ∧
  sleepsIn (actionsOf Scenario.jobId (log w)) = replicate 120 5000 ∧
  error <$> jobs w !! Scenario.jobId =
    Some (Some "Video generation timeout - operation took too long").
Proof. vm_compute. done. Qed.

(** In general: with every poll answered "still running", the job ends
    with the timeout as its error. *)
Corollary timeout_is_recorded env jobId prompt options w d :
  is_Some (jobs w !! jobId) →
  Js.truthy (keyFilePath env) = true →
  authClient env = Resolved tt →
  (∃ t, accessToken env = Resolved t ∧ Js.truthy t = true) →
  startResponse env = Resolved d → start_done d = false →
  (∀ n, pollClient env n = Resolved tt) →
  (∀ n, ∃ t, pollToken env n = Resolved t) →
  (∀ n, ∃ op, opResponse env n = Resolved op ∧
              op_done op = false ∧ op_error op = None) →
  ∃ j, jobs (final (processVideoGeneration env jobId prompt options w)) !! jobId
       = Some j ∧
       error j = Some "Video generation timeout - operation took too long".
Proof.
  intros Hjob Hkey Hclient Htoken Hstart Hdone Hclients Htokens Hrunning.
  destruct (throws_timeout_after_120_polls env jobId prompt options w
              Hjob Hkey Hclient Htoken Hclients Htokens Hrunning d Hstart Hdone)
    as (Hthrow & _).
  pose proof (runs_complete (Rely jobId) (tryBlock env jobId prompt options w)) as Htry.
  rewrite Hthrow in Htry.
  pose proof (runs_complete (Rely jobId)
                (catchBlock env jobId prompt options
                   "Video generation timeout - operation took too long"
                   (final (tryBlock env jobId prompt options w)))) as Hcatch.
  destruct (catchRun_throw _ (catchBlock env jobId prompt options) _ Hthrow)
    as [_ Hfin].
  unfold processVideoGeneration, tryCatch. rewrite Hfin.
  pose proof (caught _ _ _ _ _ _ _ _ _ _ _ Htry Hcatch) as Hpost.
  destruct (rendered env _ && takes env jobId minimalMP4 _).
  - destruct Hpost as (_ & j & Hj & (_ & He & _) & _). by exists j.
  - destruct Hpost as (_ & j & Hj & _ & _ & He). by exists j.
Qed.

(** * What the other tasks do to a job *)

Lemma length_append s t :
  String.length (s +:+ t) = (String.length s + String.length t)%nat.
Proof. induction s as [|a s IH]; simpl; by rewrite ?IH. Qed.

Lemma append_inj_r s1 s2 t : s1 +:+ t = s2 +:+ t → s1 = s2.
Proof.
  revert s2. induction s1 as [|a s1 IH]; intros [|b s2] Heq; simpl in *.
  - done.
  - apply (f_equal String.length) in Heq. simpl in Heq.
    rewrite !length_append in Heq. simpl in Heq. lia.
  - apply (f_equal String.length) in Heq. simpl in Heq.
    rewrite !length_append in Heq. simpl in Heq. lia.
  - injection Heq as -> Heq. by rewrite (IH _ Heq).
Qed.

Global Instance videoFile_inj : Inj (=) (=) videoFile.
Proof.
  intros id id' Heq. unfold videoFile in Heq.
  apply (inj (String.app uploadDir)), (inj (String.app "/")) in Heq.
  by apply append_inj_r in Heq.
Qed.

Section Guarantee.

Context (jobId other : string) (distinct : other ≠ jobId).
Context (v : option Job * list Action * option Buffer).

Local Abbreviation untouched := (λ w : World, view jobId w = v).
Local Abbreviation keeps m :=
  (triple (Rely jobId) untouched untouched m (λ _, untouched) (λ _, untouched)).

Lemma keeps_ret {A} (a : A) : keeps (mret a).
Proof. by apply triple_ret. Qed.

Lemma keeps_throw {A} e : keeps (@throw A e).
Proof. by apply triple_throw. Qed.

Lemma keeps_bind {A B} (m : Async A) (f : A → Async B) :
  keeps m → (∀ a, keeps (f a)) → keeps (m ≫= f).
Proof. intros Hm Hf. eapply triple_bind; [exact Hm|exact Hf]. Qed.

Lemma keeps_catch {A} (m : Async A) h :
  keeps m → (∀ e, keeps (h e)) → keeps (tryCatch m h).
Proof. intros Hm Hh. eapply triple_catch; [exact Hm|exact Hh]. Qed.

Lemma keeps_pause : keeps pause.
Proof.
  apply triple_pause; [done|]. intros w w1 Hw Hr. unfold Rely in Hr. congruence.
Qed.

Lemma keeps_await {A} (p : Outcome A) : keeps (await p).
Proof.
  unfold await. apply keeps_bind; [apply keeps_pause|]. intros [].
  destruct p; [apply keeps_ret|apply keeps_throw].
Qed.

Lemma keeps_awaitCall {A} (call : Async A) : keeps call → keeps (awaitCall call).
Proof.
  intros Hcall. unfold awaitCall.
  eapply triple_bind with (R := λ _, untouched).
  - eapply triple_catch with (R := λ _, untouched).
    + eapply triple_bind; [exact Hcall|]. intros a. by apply triple_ret.
    + intros e. by apply triple_ret.
  - intros r. apply keeps_bind; [apply keeps_pause|]. intros [].
    destruct r; [apply keeps_ret|apply keeps_throw].
Qed.

Lemma keeps_getJob id : keeps (getJob id).
Proof. by apply triple_getJob. Qed.

Lemma keeps_existsSync path : keeps (existsSync path).
Proof. by apply triple_existsSync. Qed.

Lemma keeps_isFile path : keeps (isFile path).
Proof. by apply triple_isFile. Qed.

Lemma keeps_isDirectory path : keeps (isDirectory path).
Proof. by apply triple_isDirectory. Qed.

Lemma keeps_raise fault : keeps (raise fault).
Proof. by apply triple_raise. Qed.

Lemma keeps_assign g : keeps (assign other g).
Proof.
  apply triple_update. intros w <-. unfold view. simpl.
  by rewrite lookup_alter_ne.
Qed.

Lemma keeps_emit act : keeps (emit other act).
Proof.
  apply triple_update. intros w <-. unfold view. simpl.
  rewrite actionsOf_app. simpl. rewrite decide_False by done.
  by rewrite app_nil_r.
Qed.

Lemma keeps_setProgress value : keeps (setProgress other value).
Proof.
  unfold setProgress. apply keeps_bind; [apply keeps_assign|].
  intros []. apply keeps_emit.
Qed.

Lemma keeps_sleep ms : keeps (sleep other ms).
Proof.
  unfold sleep. apply keeps_bind; [apply keeps_emit|]. intros []. apply keeps_pause.
Qed.

Local Ltac keeps_basic :=
  first
    [ apply keeps_ret | apply keeps_throw | apply keeps_pause
    | apply keeps_await | apply keeps_getJob | apply keeps_existsSync
    | apply keeps_isFile | apply keeps_isDirectory | apply keeps_raise
    | apply keeps_assign | apply keeps_emit
    | apply keeps_setProgress | apply keeps_sleep
    | apply keeps_awaitCall
    | apply keeps_bind; [|intros ?]
    | apply keeps_catch; [|intros ?]
    | match goal with
      | |- triple _ _ _ (if ?b then _ else _) _ _ => destruct b
      | |- triple _ _ _ (match ?x with _ => _ end) _ _ => destruct x
      end ].

Lemma keeps_mkdirSync env : keeps (mkdirSync_uploads_videos env).
Proof. unfold mkdirSync_uploads_videos. repeat keeps_basic. by apply triple_update. Qed.

Lemma keeps_writeFileSync env data : keeps (writeFileSync env (videoFile other) data).
Proof.
  unfold writeFileSync. repeat keeps_basic.
  apply triple_update. intros w <-. unfold view. simpl.
  rewrite lookup_insert_ne; [done|]. intros Heq. by apply (inj videoFile) in Heq.
Qed.

Local Ltac keeps_step :=
  first [ apply keeps_mkdirSync | apply keeps_writeFileSync | keeps_basic ].

Local Ltac keeps := repeat keeps_step.

Lemma keeps_getSignedUrl signer fileName expiresIn :
  keeps (getSignedUrl signer fileName expiresIn).
Proof. unfold getSignedUrl. keeps. Qed.

Lemma keeps_uploadVideo env localFilePath projectId :
  keeps (uploadVideo env localFilePath projectId).
Proof. unfold uploadVideo. keeps. Qed.

Lemma keeps_createPlaceholderVideo env prompt :
  keeps (createPlaceholderVideo env other prompt).
Proof. unfold createPlaceholderVideo. keeps. Qed.

Lemma keeps_extractAndSave env result : keeps (extractAndSave env other result).
Proof. unfold extractAndSave, saveVideo. keeps. Qed.

Lemma keeps_pollLoop env operationName remaining pollCount :
  keeps (pollLoop env other operationName remaining pollCount).
Proof.
  revert pollCount. induction remaining as [|remaining IH]; intros pollCount.
  - apply keeps_ret.
  - rewrite pollLoop_S. keeps. apply IH.
Qed.

Local Ltac keeps_calls :=
  repeat first
    [ apply keeps_pollLoop | apply keeps_extractAndSave
    | apply keeps_uploadVideo | apply keeps_createPlaceholderVideo
    | keeps_step ].

Lemma keeps_tryBlock env prompt options : keeps (tryBlock env other prompt options).
Proof. unfold tryBlock. keeps_calls. Qed.

Lemma keeps_catchBlock env prompt options message :
  keeps (catchBlock env other prompt options message).
Proof. unfold catchBlock. keeps_calls. Qed.

(** The driving sequence of another job leaves this one's view alone,
    step by step. *)
Lemma processVideoGeneration_keeps env prompt options :
  keeps (processVideoGeneration env other prompt options).
Proof.
  unfold processVideoGeneration.
  apply keeps_catch; [apply keeps_tryBlock|]. intros e. apply keeps_catchBlock.
Qed.

(** So does entering another job. *)
Lemma register_keeps env prompt options w :
  Rely jobId w (register env other prompt options w).
Proof. unfold Rely, view, register. simpl. by rewrite lookup_insert_ne. Qed.

End Guarantee.

Section Queries.

Context (jobId : string) (v : option Job * list Action * option Buffer).

Local Abbreviation untouched := (λ w : World, view jobId w = v).
Local Abbreviation keeps m :=
  (triple (Rely jobId) untouched untouched m (λ _, untouched) (λ _, untouched)).

Lemma keeps_videoUrl id url : keeps (assign id (set_videoUrl url)).
Proof.
  apply triple_update. intros w <-. unfold view. simpl.
  destruct (decide (id = jobId)) as [->|Hne].
  - rewrite lookup_alter_eq. by destruct (jobs w !! jobId).
  - by rewrite lookup_alter_ne.
Qed.

Lemma keeps_deref id job : keeps (deref id job).
Proof.
  intros w seen res w' Hw Hrun. inversion Hrun; subst. split; [constructor|done].
Qed.

(** A status query, on this job or another, leaves this job's view
    alone, step by step. *)
Lemma getVideoStatus_keeps now signer id : keeps (getVideoStatus now signer id).
Proof.
  unfold getVideoStatus.
  apply keeps_catch; [|intros e; apply keeps_throw].
  apply keeps_bind; [apply keeps_getJob|]. intros [job|]; [|apply keeps_throw].
  apply keeps_bind.
  - destruct (_ && _).
    + apply keeps_catch; [|intros e; apply keeps_ret].
      apply keeps_bind.
      { apply keeps_awaitCall. unfold getSignedUrl.
        apply keeps_catch; [apply keeps_await|intros e; apply keeps_throw]. }
      intros url. apply keeps_bind; [apply keeps_videoUrl|].
      intros []. apply keeps_ret.
    + destruct (Js.truthy _); apply keeps_ret.
  - intros url. apply keeps_bind; [apply keeps_deref|]. intros job'. apply keeps_ret.
Qed.

(** So does a request for the artifact. *)
Lemma getVideoUrl_keeps signer id : keeps (getVideoUrl signer id).
Proof.
  unfold getVideoUrl.
  apply keeps_catch; [|intros e; apply keeps_throw].
  apply keeps_bind; [apply keeps_getJob|]. intros [job|]; [|apply keeps_throw].
  destruct (negb _); [apply keeps_throw|].
  destruct (Js.truthy _); [|apply keeps_ret].
  apply keeps_bind; [|intros url; apply keeps_ret].
  apply keeps_awaitCall. unfold getSignedUrl.
  apply keeps_catch; [apply keeps_await|intros e; apply keeps_throw].
Qed.

End Queries.

(** * The life of a job *)

(** The two theorems below hold for every schedule of the background task
    in which the other tasks stay within [Rely]: status queries, requests
    for the artifact and the driving sequences of other jobs do
    ([getVideoStatus_keeps], [getVideoUrl_keeps],
    [processVideoGeneration_keeps], [register_keeps]). *)

Lemma lifecycle_consistent env prompt options w0 ticket w1 task seen res w' :
  generateVideo env prompt options w0 = (Return ticket, w1, Some task) →
  runs (Rely (ticket_jobId ticket)) task seen res w' →
  Forall (At (ticket_jobId ticket)
            (Consistent (actionsOf (ticket_jobId ticket) (log w0)) 0))
         (w1 :: seen ++ [w']).
Proof.
  unfold generateVideo. destruct (negb _); [done|].
  intros [= <- <- <-] Hrun. simpl in *.
  set (jobId := generateJobId env) in *.
  set (base := actionsOf jobId (log w0)).
  assert (At jobId (Running base 0 10) (register env jobId prompt options w0)) as Hstart.
  { exists (newJob env prompt options). simpl. rewrite lookup_insert_eq.
    split; [done|]. split; [apply History_start|]. simpl. split_and!; [lia|lia|done]. }
  destruct (processVideoGeneration_progress env jobId base 0 prompt options
              _ _ _ _ Hstart Hrun) as [Hseen Hfinal].
  assert (Forall (At jobId (Consistent base 0)) (seen ++ [w'])) as Hall.
  { apply Forall_app. split; [done|]. apply Forall_singleton.
    destruct res; [by apply Finished_Consistent|by eapply Running_Consistent]. }
  apply Forall_cons. split; [|done].
  rewrite Forall_forall in Hall. apply Hall. by eapply current_seen.
Qed.

(** C4. From the moment [generateVideo] returns, at every pause of the
    driving sequence and at its end, whatever other tasks did in between
    to the rest of the world: the registry entry of the job has progress
    100 if and only if it has status [completed]. *)
Theorem progress_100_iff_completed env prompt options w0 ticket w1 task seen res w' :
  generateVideo env prompt options w0 = (Return ticket, w1, Some task) →
  runs (Rely (ticket_jobId ticket)) task seen res w' →
  Forall (λ w, ∃ j, jobs w !! ticket_jobId ticket = Some j ∧
                    (progress j = 100 ↔ status j = completed))
         (w1 :: seen ++ [w']).
Proof.
  intros Hgen Hrun.
  eapply Forall_impl; [by eapply lifecycle_consistent|].
  intros w (j & Hj & _ & Hiff). by exists j.
Qed.

Lemma progress_100_iff_completed_witness :
  let task := Scenario.task Scenario.succeeds in
  runs (Rely Scenario.jobId) task (observations task) (result task) (final task) ∧
  Forall (λ w, ∃ j, jobs w !! Scenario.jobId = Some j ∧
                    (progress j = 100 ↔ status j = completed))
         (current task :: observations task ++ [final task]).
Proof.
  split; [apply runs_complete, _|].
  apply (progress_100_iff_completed Scenario.succeeds "A lighthouse at dawn"
           Scenario.options0 Scenario.emptyWorld
           {| ticket_status := queued; ticket_jobId := Scenario.jobId;
              estimatedProcessingTime := Js.Num 60;
              videoPrompt := "A lighthouse at dawn" |}
           _ (Scenario.task Scenario.succeeds) _ (Return tt)).
  - reflexivity.
  - apply (runs_complete (Rely Scenario.jobId)).
Defined.

(** C5. At each of those moments, the values assigned to [job.progress]
    since the job was registered with progress 0 form a non-decreasing
    sequence, and the value stored in the registry is the last of them. *)
Theorem progress_never_decreases env prompt options w0 ticket w1 task seen res w' :
  generateVideo env prompt options w0 = (Return ticket, w1, Some task) →
  runs (Rely (ticket_jobId ticket)) task seen res w' →
  Forall (λ w, ∃ j l,
            jobs w !! ticket_jobId ticket = Some j ∧
            actionsOf (ticket_jobId ticket) (log w) =
              actionsOf (ticket_jobId ticket) (log w0) ++ l ∧
            nondecreasing (0 :: progressWrites l) = true ∧
            progress j = lastWrite 0 l)
         (w1 :: seen ++ [w']).
Proof.
  intros Hgen Hrun.
  eapply Forall_impl; [by eapply lifecycle_consistent|].
  intros w (j & Hj & (l & Hl & Hs & Hp) & _). by exists j, l.
Qed.

Lemma progress_never_decreases_witness :
  let task := Scenario.task Scenario.succeeds in
  runs (Rely Scenario.jobId) task (observations task) (result task) (final task) ∧
  Forall (λ w, ∃ j l,
            jobs w !! Scenario.jobId = Some j ∧
            actionsOf Scenario.jobId (log w) = [] ++ l ∧
            nondecreasing (0 :: progressWrites l) = true ∧
            progress j = lastWrite 0 l)
         (current task :: observations task ++ [final task]).
Proof.
  split; [apply runs_complete, _|].
  apply (progress_never_decreases Scenario.succeeds "A lighthouse at dawn"
           Scenario.options0 Scenario.emptyWorld
           {| ticket_status := queued; ticket_jobId := Scenario.jobId;
              estimatedProcessingTime := Js.Num 60;
              videoPrompt := "A lighthouse at dawn" |}
           _ (Scenario.task Scenario.succeeds) _ (Return tt)).
  - reflexivity.
  - apply (runs_complete (Rely Scenario.jobId)).
Defined.

(** The values a successful run assigns, and the timed-out run: 95 is
    assigned only once a result is in hand. *)
Example progress_values_succeeds :
  progressWrites (actionsOf Scenario.jobId (log (final (Scenario.task Scenario.succeeds))))
  = [10; 15; 20; 20; 21; 95; 100].
Proof. vm_compute. reflexivity. Qed.

Example progress_values_submissionFails :
  progressWrites (actionsOf Scenario.jobId (log (final (Scenario.task Scenario.submissionFails))))
  = [10; 15; 100].
Proof. vm_compute. reflexivity. Qed.

(** * Submission *)

Lemma generateVideo_configured env prompt options w :
  Js.truthy (keyFilePath env) = true →
  let jobId := generateJobId env in
  let task :=
    processVideoGeneration env jobId prompt options
      (register env jobId prompt options w) in
  generateVideo env prompt options w =
    (Return {| ticket_status := queued;
               ticket_jobId := jobId;
               estimatedProcessingTime :=
                 getProcessingTime (default "standard" (quality options));
               videoPrompt := prompt |},
     current task, Some task).
Proof. intros Hkey. unfold generateVideo. by rewrite Hkey. Qed.

Lemma first_pause env jobId prompt options w :
  Js.truthy (keyFilePath env) = true →
  jobs (current (processVideoGeneration env jobId prompt options
                   (register env jobId prompt options w))) !! jobId
  = Some (set_status processing (set_progress 10 (newJob env prompt options))).
Proof.
  intros Hkey.
  unfold processVideoGeneration, tryCatch, tryBlock, mbind, Async_bind, getJob.
  simpl. rewrite lookup_insert_eq. simpl. rewrite Hkey. simpl.
  by rewrite !lookup_alter_eq, lookup_insert_eq.
Qed.

(** C6, as the code has it.  With credentials configured, [generateVideo]
    enters the job with status [processing] and progress 0, then starts
    the driving sequence, which runs up to its first [await]; only then
    does it return.  The value returned says [queued]; the registry entry
    says [processing], with progress 10 by then. *)
Theorem registered_as_processing env prompt options w :
  Js.truthy (keyFilePath env) = true →
  let jobId := generateJobId env in
  let entered := register env jobId prompt options w in
  let task := processVideoGeneration env jobId prompt options entered in
  (∃ j, jobs entered !! jobId = Some j ∧ status j = processing ∧ progress j = 0) ∧
  (∃ ticket, generateVideo env prompt options w = (Return ticket, current task, Some task) ∧
             ticket_jobId ticket = jobId ∧ ticket_status ticket = queued) ∧
  (∃ j, jobs (current task) !! jobId = Some j ∧
        status j = processing ∧ progress j = 10).
Proof.
  intros Hkey jobId entered task. split_and!.
  - exists (newJob env prompt options). split; [apply lookup_insert_eq|done].
  - eexists. split; [by apply generateVideo_configured|done].
  - eexists. split; [by apply first_pause|done].
Qed.

Lemma registered_as_processing_witness :
  let env := Scenario.succeeds in
  let entered := register env Scenario.jobId "A lighthouse at dawn"
                   Scenario.options0 Scenario.emptyWorld in
  Js.truthy (keyFilePath env) = true ∧
  (∃ j, jobs entered !! Scenario.jobId = Some j ∧
        status j = processing ∧ progress j = 0) ∧
  (∃ ticket, generateVideo env "A lighthouse at dawn" Scenario.options0
               Scenario.emptyWorld
             = (Return ticket, current (Scenario.task env), Some (Scenario.task env)) ∧
             ticket_jobId ticket = Scenario.jobId ∧ ticket_status ticket = queued) ∧
  (∃ j, jobs (current (Scenario.task env)) !! Scenario.jobId = Some j ∧
        status j = processing ∧ progress j = 10).
Proof.
  split; [reflexivity|].
  apply (registered_as_processing Scenario.succeeds "A lighthouse at dawn"
           Scenario.options0 Scenario.emptyWorld).
  reflexivity.
Defined.

(** C6, as the specification has it, fails: neither when the job is
    entered nor when [generateVideo] returns does the registry hold it with
    status [queued]. *)
Lemma registered_as_queued_counterexample :
  let env := Scenario.succeeds in
  let entered := register env Scenario.jobId "A lighthouse at dawn"
                   Scenario.options0 Scenario.emptyWorld in
  let returned := (generateVideo env "A lighthouse at dawn" Scenario.options0
                     Scenario.emptyWorld).1.2 in
  ¬ ∃ w j, (w = entered ∨ w = returned) ∧
           jobs w !! Scenario.jobId = Some j ∧
           status j = queued ∧ progress j = 0.
Proof.
  intros env entered returned (w & j & [->| ->] & Hj & Hs & _).
  - vm_compute in Hj. injection Hj as <-. discriminate Hs.
  - vm_compute in Hj. injection Hj as <-. discriminate Hs.
Qed.

(** C9. Without credentials [generateVideo] fails with the configuration
    error, the registry (and the rest of the world) is as before, and no
    driving sequence is started. *)
Theorem unconfigured_submission_fails env prompt options w :
  Js.truthy (keyFilePath env) = false →
  generateVideo env prompt options w =
    (Throw "Video generation failed: Google Service Account Key not configured. Check GOOGLE_APPLICATION_CREDENTIALS in .env",
     w, None).
Proof. intros Hkey. unfold generateVideo. by rewrite Hkey. Qed.

Lemma unconfigured_submission_fails_witness :
  Js.truthy (keyFilePath Scenario.unconfigured) = false ∧
  generateVideo Scenario.unconfigured "A lighthouse at dawn" Scenario.options0
    Scenario.emptyWorld =
    (Throw "Video generation failed: Google Service Account Key not configured. Check GOOGLE_APPLICATION_CREDENTIALS in .env",
     Scenario.emptyWorld, None).
Proof.
  split; [reflexivity|].
  apply (unconfigured_submission_fails Scenario.unconfigured). reflexivity.
Defined.

(** * Status queries *)

(** C7, as the code has it.  [getVideoStatus] leaves the disk and the log
    alone and writes one thing to the registry: when the job is
    [completed], has a [gcsFileName] and the bucket signs, the fresh URL
    goes into [videoUrl] of that job. *)
Theorem getVideoStatus_only_refreshes_videoUrl now signer jobId w :
  let w' := final (getVideoStatus now signer jobId w) in
  files w' = files w ∧ dirs w' = dirs w ∧ log w' = log w ∧
  jobs w' =
    match jobs w !! jobId, signer with
    | Some job, Resolved url =>
        if bool_decide (status job = completed) && Js.truthy (gcsFileName job)
        then alter (set_videoUrl (Some url)) jobId (jobs w)
        else jobs w
    | _, _ => jobs w
    end.
Proof.
  unfold getVideoStatus, tryCatch, mbind, Async_bind, getJob, final. simpl.
  destruct (jobs w !! jobId) as [job|] eqn:Hjob; simpl; [|done].
  destruct (bool_decide (status job = completed) && Js.truthy (gcsFileName job)); simpl.
  - destruct signer as [url|e]; simpl; by rewrite ?lookup_alter_eq, ?Hjob.
  - destruct signer; destruct (Js.truthy (videoUrl job)); simpl; by rewrite ?Hjob.
Qed.

(** C7, as the specification has it, fails: a status query on a completed,
    uploaded job changes its registry entry. *)
Lemma getVideoStatus_read_only_counterexample :
  let w := final (Scenario.task Scenario.succeeds) in
  let w' := final (getVideoStatus 1700000020000
                     (Resolved "https://storage.googleapis.com/fresh")
                     Scenario.jobId w) in
  jobs w' !! Scenario.jobId ≠ jobs w !! Scenario.jobId.
Proof.
  intros w w' Heq. apply (f_equal (fmap videoUrl)) in Heq.
  vm_compute in Heq. discriminate Heq.
Qed.

(** What the query answers for the remaining time. *)
Lemma getVideoStatus_estimate now signer jobId w job data :
  jobs w !! jobId = Some job →
  result (getVideoStatus now signer jobId w) = Return data →
  estimatedTimeRemaining data =
    match getProcessingTime
            (Js.template (Js.or (quality (options job)) (Some "standard"))) with
    | Js.Num n =>
        Some (Z.max 0 (n - Js.floor (Js.div (Js.number (now - startTime job))
                                            (Js.number 1000))))
    | Js.Member _ => None
    end.
Proof.
  intros Hjob.
  unfold getVideoStatus, tryCatch, mbind, Async_bind, getJob, result. simpl.
  rewrite Hjob. simpl.
  destruct (bool_decide (status job = completed) && Js.truthy (gcsFileName job)); simpl.
  - destruct signer; simpl; by intros [= <-].
  - destruct (Js.truthy (videoUrl job)); simpl; by intros [= <-].
Qed.

(** * Retrieval *)

Lemma getVideoUrl_unknown signer jobId w :
  jobs w !! jobId = None →
  result (getVideoUrl signer jobId w) = Throw "Failed to retrieve video: Job not found".
Proof.
  intros Hjob. unfold getVideoUrl, tryCatch, mbind, Async_bind, getJob, result.
  simpl. by rewrite Hjob.
Qed.


Lemma getVideoUrl_signed url jobId w job :
  jobs w !! jobId = Some job → status job = completed →
  Js.truthy (gcsFileName job) = true →
  result (getVideoUrl (Resolved url) jobId w) = Return (Some url).
Proof.
  intros Hjob Hst Hkey. unfold getVideoUrl, tryCatch, mbind, Async_bind, getJob, result.
  simpl. rewrite Hjob. simpl. rewrite bool_decide_true by done. simpl. by rewrite Hkey.
Qed.

Lemma getVideoUrl_local signer jobId w job :
  jobs w !! jobId = Some job → status job = completed →
  Js.truthy (gcsFileName job) = false →
  result (getVideoUrl signer jobId w) = Return (Js.or (videoPath job) (videoUrl job)).
Proof.
  intros Hjob Hst Hkey. unfold getVideoUrl, tryCatch, mbind, Async_bind, getJob, result.
  simpl. rewrite Hjob. simpl. rewrite bool_decide_true by done. simpl. by rewrite Hkey.
Qed.

Lemma getVideoUrl_unsigned message jobId w job :
  jobs w !! jobId = Some job → status job = completed →
  Js.truthy (gcsFileName job) = true →
  result (getVideoUrl (Rejected message) jobId w)
  = Throw ("Failed to retrieve video: Failed to generate signed URL: " +:+ message).
Proof.
  intros Hjob Hst Hkey. unfold getVideoUrl, tryCatch, mbind, Async_bind, getJob, result.
  simpl. rewrite Hjob. simpl. rewrite bool_decide_true by done. simpl. by rewrite Hkey.
Qed.

(** C8 fails where the bucket refuses to sign.  The job below was
    generated and uploaded, its file is on disk and its [videoPath] is
    set; [getVideoUrl] does not fall back to it but fails. *)
Theorem getVideoUrl_fails_when_signing_fails :
  let w := final (Scenario.task Scenario.succeeds) in
  (∃ j, jobs w !! Scenario.jobId = Some j ∧ status j = completed ∧
        videoPath j = Some "uploads/videos/job_1700000000000_k3x9q2m1z.mp4" ∧
        is_Some (files w !! "uploads/videos/job_1700000000000_k3x9q2m1z.mp4")) ∧
  result (getVideoUrl (Rejected "socket hang up") Scenario.jobId w)
  = Throw "Failed to retrieve video: Failed to generate signed URL: socket hang up".
Proof.
  split.
  - eexists. split; [vm_compute; reflexivity|]. split_and!; [done..|].
    vm_compute. eauto.
  - vm_compute. reflexivity.
Qed.

(** * Artifacts *)

(** Every job whose driving sequence ends normally ends [completed].  Its
    local path is set then, unless it ended through the [catch] block:
    there it is set only if the upload of the placeholder failed, and
    reset to [null] otherwise. *)
Lemma completed_job_location env jobId prompt options w seen w' :
  is_Some (jobs w !! jobId) →
  runs (Rely jobId) (processVideoGeneration env jobId prompt options w)
    seen (Return tt) w' →
  ∃ j, jobs w' !! jobId = Some j ∧
       status j = completed ∧
       (videoPath j = Some (videoFile jobId) ∨
        (is_Some (error j) ∧ videoPath j = None ∧ is_Some (gcsFileName j))).
Proof.
  intros Hjob Hrun.
  destruct (processVideoGeneration_located env jobId _ prompt options _ _ _ _
              (At_present _ _ Hjob) Hrun) as [_ Hpost].
  simpl in Hpost.
  destruct Hpost as (j & Hj & Hst & [Hpath|[He [Hpath|[Hpath Hkey]]]]);
    exists j; eauto 10.
Qed.

(** C3 fails on the fallback path.  Here the provider rejects the
    submission and the bucket works: the job ends [completed] with the
    placeholder on disk and [videoPath] reset to [null]. *)
Theorem completed_without_videoPath :
  let w := final (Scenario.task Scenario.submissionFails) in
  ∃ j, jobs w !! Scenario.jobId = Some j ∧
       status j = completed ∧ videoPath j = None ∧
       is_Some (gcsFileName j) ∧
       files w !! videoFile Scenario.jobId = Some minimalMP4.
Proof.
  eexists. split; [vm_compute; reflexivity|]. split_and!; [done..|eauto|].
  vm_compute. reflexivity.
Qed.

(** Also while the placeholder is being uploaded, whatever the bucket
    answers later: the job is already [completed], [videoPath] not yet
    set. *)
Example completed_before_videoPath :
  Exists (λ w, ∃ j, jobs w !! Scenario.jobId = Some j ∧
                    status j = completed ∧ videoPath j = None)
         (observations (Scenario.task Scenario.neverDone)).
Proof.
  apply Exists_exists.
  exists (default Scenario.emptyWorld
            (last (observations (Scenario.task Scenario.neverDone)))).
  split.
  - apply list_elem_of_lookup.
    exists (Nat.pred (length (observations (Scenario.task Scenario.neverDone)))).
    vm_compute. reflexivity.
  - eexists. split; [vm_compute; reflexivity|done].
Qed.

(** * Time estimates *)

Lemma getProcessingTime_tiers :
  getProcessingTime "fast" = Js.Num 30 ∧
  getProcessingTime "standard" = Js.Num 60 ∧
  getProcessingTime "high" = Js.Num 120.
Proof. by vm_compute. Qed.

(** For other tiers that no object inherits as a property, 60. *)
Lemma getProcessingTime_default quality :
  quality ∉ ["fast"; "standard"; "high"] →
  Js.inherited quality = false →
  getProcessingTime quality = Js.Num 60.
Proof.
  intros Htier Hown. unfold getProcessingTime, Js.get, times.
  rewrite !lookup_insert_ne, lookup_empty, Hown by set_solver. done.
Qed.

(** For those that one does, the inherited member. *)
Lemma getProcessingTime_inherited quality :
  Js.inherited quality = true →
  getProcessingTime quality = Js.Member quality.
Proof.
  intros Hin. unfold Js.inherited in Hin. apply bool_decide_eq_true in Hin.
  unfold Js.objectPrototypeKeys in Hin.
  repeat (apply elem_of_cons in Hin as [->|Hin]; [by vm_compute|]).
  by apply elem_of_nil in Hin.
Qed.

(** An absent tier is [standard]. *)
Lemma getProcessingTime_absent env prompt options w ticket w1 task :
  quality options = None →
  generateVideo env prompt options w = (Return ticket, w1, task) →
  estimatedProcessingTime ticket = Js.Num 60.
Proof.
  intros Hq. unfold generateVideo. destruct (negb _); [done|].
  intros [= <- _ _]. simpl. by rewrite Hq.
Qed.

(** C10 fails for the tiers an object literal inherits from
    [Object.prototype].  With [quality: "constructor"], [times[quality]] is
    the function [Object]: [generateVideo] returns it as the estimate and
    [getVideoStatus] computes [NaN] from it. *)
Theorem processing_time_of_inherited_key :
  let options := {| duration := Some 5; quality := Some "constructor";
                    captions := None; projectId := None |} in
  let submitted := generateVideo Scenario.succeeds "A lighthouse at dawn" options
                     Scenario.emptyWorld in
  getProcessingTime "constructor" = Js.Member "constructor" ∧
  estimatedProcessingTime <$> (match submitted.1.1 with
                               | Return ticket => Some ticket
                               | Throw _ => None
                               end) = Some (Js.Member "constructor") ∧
  estimatedTimeRemaining <$> (match result (getVideoStatus 1700000002000
                                              (Rejected "unused")
                                              Scenario.jobId submitted.1.2) with
                              | Return data => Some data
                              | Throw _ => None
                              end) = Some None.
Proof. vm_compute. done. Qed.

(** * Splitting strings *)

Lemma append_cons a (s t : string) : String a s +:+ t = String a (s +:+ t).
Proof. done. Qed.

Lemma append_assoc (s t u : string) : (s +:+ t) +:+ u = s +:+ t +:+ u.
Proof. induction s as [|a s IH]; [done|]. by rewrite !append_cons, IH. Qed.

Lemma append_empty_r (s : string) : s +:+ "" = s.
Proof. induction s as [|a s IH]; [done|]. by rewrite append_cons, IH. Qed.

Lemma startsWith_append s t : JsLib.startsWith (t +:+ s) t = true.
Proof.
  induction t as [|b t IH]; [done|]. rewrite append_cons. simpl.
  by rewrite bool_decide_true, IH.
Qed.

(** Whether [s] starts with [t] is decided by the first [length t]
    characters of [s]. *)
Lemma startsWith_append_l s u t :
  (String.length t ≤ String.length s)%nat →
  JsLib.startsWith (s +:+ u) t = JsLib.startsWith s t.
Proof.
  revert s. induction t as [|b t IH]; intros [|a s] Hlen; simpl in *; try done; [lia|].
  rewrite ?append_cons. simpl. rewrite IH by lia. done.
Qed.

Lemma split_pieces s sep : sep ≠ "" → JsLib.split s sep = JsLib.pieces sep 0 s.
Proof. by destruct sep. Qed.

Lemma pieces_skip sep x s :
  JsLib.pieces sep (String.length x) (x +:+ s) = JsLib.pieces sep 0 s.
Proof. induction x as [|a x IH]; [done|]. by rewrite append_cons. Qed.

Lemma pieces_separator sep s :
  sep ≠ "" → JsLib.pieces sep 0 (sep +:+ s) = "" :: JsLib.pieces sep 0 s.
Proof.
  destruct sep as [|c sep]; [done|]. intros _.
  rewrite append_cons. cbn [JsLib.pieces]. rewrite <- append_cons.
  rewrite startsWith_append. simpl. by rewrite pieces_skip.
Qed.

(** A string in which the separator does not occur is one piece. *)
Lemma pieces_whole sep s :
  sep ≠ "" → JsLib.includes s sep = false → JsLib.pieces sep 0 s = [s].
Proof.
  intros Hsep. induction s as [|a s IH]; [done|].
  cbn [JsLib.includes JsLib.pieces]. intros [Hhere Hlater]%orb_false_iff.
  rewrite Hhere, IH by done. done.
Qed.

(** The first piece ends where the separator first occurs: at the end of
    [a] if no occurrence starts inside [a].  [last] is the last character
    of the separator. *)
Lemma pieces_first init last a s :
  String.length last = 1%nat →
  let sep := init +:+ last in
  JsLib.includes (a +:+ init) sep = false →
  JsLib.pieces sep 0 (a +:+ sep +:+ s) = a :: JsLib.pieces sep 0 s.
Proof.
  intros Hlast sep. destruct last as [|c [|]]; try done.
  assert (sep ≠ "") as Hsep by (unfold sep; by destruct init).
  induction a as [|y a IH]; intros Hfree.
  - change ("" +:+ sep +:+ s) with (sep +:+ s). by apply pieces_separator.
  - assert (JsLib.startsWith (String y a +:+ init) sep = false
            ∧ JsLib.includes (a +:+ init) sep = false) as [Hhere Hlater].
    { by apply orb_false_iff. }
    rewrite append_cons. cbn [JsLib.pieces].
    replace (String y (a +:+ sep +:+ s))
      with ((String y a +:+ init) +:+ (String c "" +:+ s)).
    2:{ unfold sep. by rewrite !append_cons, !append_assoc. }
    rewrite startsWith_append_l, Hhere.
    2:{ unfold sep. rewrite !length_append. simpl. lia. }
    by rewrite (IH Hlater).
Qed.

(** [s.split(sep)[1]] for [s] with one occurrence of the separator ... *)
Lemma split_second init last a b :
  String.length last = 1%nat →
  let sep := init +:+ last in
  JsLib.includes (a +:+ init) sep = false →
  JsLib.includes b sep = false →
  JsLib.split (a +:+ sep +:+ b) sep !! 1%nat = Some b.
Proof.
  intros Hlast sep Ha Hb.
  assert (sep ≠ "") as Hsep by (unfold sep; destruct init; by destruct last).
  rewrite split_pieces by done. unfold sep. rewrite pieces_first by done.
  fold sep. by rewrite pieces_whole.
Qed.

(** ... and with more. *)
Lemma split_second_of_more init last a b s :
  String.length last = 1%nat →
  let sep := init +:+ last in
  JsLib.includes (a +:+ init) sep = false →
  JsLib.includes (b +:+ init) sep = false →
  JsLib.split (a +:+ sep +:+ b +:+ sep +:+ s) sep !! 1%nat = Some b.
Proof.
  intros Hlast sep Ha Hb.
  assert (sep ≠ "") as Hsep by (unfold sep; destruct init; by destruct last).
  rewrite split_pieces by done. unfold sep.
  rewrite pieces_first by done. by rewrite pieces_first by done.
Qed.

Lemma split_absent s sep :
  sep ≠ "" → JsLib.includes s sep = false → JsLib.split s sep !! 1%nat = None.
Proof. intros Hsep Hs. by rewrite split_pieces, pieces_whole. Qed.

(** * The bucket *)

Lemma separator_nonempty init : init +:+ "/" ≠ "".
Proof. by destruct init. Qed.

Lemma deleteVideo_of bucket videoUrl fileName w :
  JsLib.split videoUrl (bucketName bucket +:+ "/") !! 1%nat = Some fileName →
  fileName ≠ "" →
  result (deleteVideo bucket videoUrl w) =
    match file_delete bucket fileName with
    | Resolved _ => Return tt
    | Rejected e => Throw ("Failed to delete video from GCS: " +:+ e)
    end.
Proof.
  intros Hsplit Hname. unfold deleteVideo, tryCatch. rewrite Hsplit. simpl.
  destruct (String.eqb_spec fileName "") as [|_]; [done|]. simpl.
  by destruct (file_delete bucket fileName) as [[]|e].
Qed.

(** X1. [deleteVideo] on a URL in which [<bucketName>/] does not occur
    fails at once with the format error: there is no [await] on the way,
    the bucket is not asked, the world is as before. *)
Theorem deleteVideo_rejects_foreign_url bucket videoUrl w :
  JsLib.includes videoUrl (bucketName bucket +:+ "/") = false →
  deleteVideo bucket videoUrl w
  = Done (Throw "Failed to delete video from GCS: Invalid video URL format") w.
Proof.
  intros Hfree. unfold deleteVideo, tryCatch.
  by rewrite split_absent by (done || apply separator_nonempty).
Qed.

Lemma deleteVideo_rejects_foreign_url_witness :
  JsLib.includes "https://cdn.example.com/videos/default/1700000015000.mp4"
    (bucketName Requests.defaultBucket +:+ "/") = false ∧
  deleteVideo Requests.defaultBucket
    "https://cdn.example.com/videos/default/1700000015000.mp4" Scenario.emptyWorld
  = Done (Throw "Failed to delete video from GCS: Invalid video URL format")
      Scenario.emptyWorld.
Proof.
  split; [reflexivity|].
  apply (deleteVideo_rejects_foreign_url Requests.defaultBucket). reflexivity.
Defined.

(** X2. Round trip through the bucket's public URLs.  If the bucket name
    followed by [/] does not occur in the host part of the URL before the
    bucket name ends, then for every file that [listProjectVideos] lists
    whose name is not empty and does not contain [<bucketName>/],
    [deleteVideo] of the URL listed asks the bucket to delete exactly
    that file, and fails only if the bucket does. *)
Theorem deleteVideo_of_listed_url bucket projectId names w :
  let sep := bucketName bucket +:+ "/" in
  JsLib.includes ("https://storage.googleapis.com/" +:+ bucketName bucket) sep = false →
  getFiles bucket ("videos/" +:+ projectId +:+ "/") = Resolved names →
  Forall (λ name, name ≠ "" ∧ JsLib.includes name sep = false) names →
  ∃ urls,
    result (listProjectVideos bucket projectId w) = Return urls ∧
    Forall2 (λ url name, ∀ w',
               result (deleteVideo bucket url w') =
                 match file_delete bucket name with
                 | Resolved _ => Return tt
                 | Rejected e => Throw ("Failed to delete video from GCS: " +:+ e)
                 end)
            urls names.
Proof.
  intros sep Hhost Hfiles Hnames.
  eexists. split.
  - unfold listProjectVideos, tryCatch, mbind, Async_bind, await, result. simpl.
    rewrite Hfiles. reflexivity.
  - apply Forall2_fmap_l, Forall_Forall2_diag.
    eapply Forall_impl; [exact Hnames|]. intros name [Hne Hfree] w'.
    apply deleteVideo_of; [|done].
    replace ("https://storage.googleapis.com/" +:+ bucketName bucket +:+ "/" +:+ name)
      with ("https://storage.googleapis.com/" +:+ (bucketName bucket +:+ "/") +:+ name)
      by (by rewrite append_assoc).
    by apply split_second.
Qed.

Lemma deleteVideo_of_listed_url_witness :
  let bucket := Requests.defaultBucket in
  let names := ["videos/default/1700000015000.mp4"] in
  JsLib.includes ("https://storage.googleapis.com/" +:+ bucketName bucket)
    (bucketName bucket +:+ "/") = false ∧
  getFiles bucket ("videos/" +:+ "default" +:+ "/") = Resolved names ∧
  Forall (λ name, name ≠ "" ∧ JsLib.includes name (bucketName bucket +:+ "/") = false)
    names ∧
  ∃ urls,
    result (listProjectVideos bucket "default" Scenario.emptyWorld) = Return urls ∧
    Forall2 (λ url name, ∀ w',
               result (deleteVideo bucket url w') =
                 match file_delete bucket name with
                 | Resolved _ => Return tt
                 | Rejected e => Throw ("Failed to delete video from GCS: " +:+ e)
                 end)
            urls names.
Proof.
  intros bucket names.
  assert (Forall (λ name, name ≠ "" ∧
                          JsLib.includes name (bucketName bucket +:+ "/") = false)
            names) as Hnames.
  { apply Forall_singleton. split; [discriminate|reflexivity]. }
  split_and!; [reflexivity|reflexivity|exact Hnames|].
  exact (deleteVideo_of_listed_url bucket "default" names Scenario.emptyWorld
           eq_refl eq_refl Hnames).
Defined.

(** X3. [deleteVideo] takes the text between the first and the second
    [<bucketName>/] for the file name.  For a file whose own name contains
    the bucket name followed by [/], it asks the bucket to delete another
    object: the one named by the part [b] of the file name before that. *)
Theorem deleteVideo_stops_at_second_bucket_name bucket a b c w :
  let sep := bucketName bucket +:+ "/" in
  JsLib.includes (a +:+ bucketName bucket) sep = false →
  JsLib.includes (b +:+ bucketName bucket) sep = false →
  b ≠ "" →
  result (deleteVideo bucket (a +:+ sep +:+ b +:+ sep +:+ c) w) =
    match file_delete bucket b with
    | Resolved _ => Return tt
    | Rejected e => Throw ("Failed to delete video from GCS: " +:+ e)
    end.
Proof.
  intros sep Ha Hb Hne. apply deleteVideo_of; [|done].
  by apply split_second_of_more.
Qed.

Lemma deleteVideo_stops_at_second_bucket_name_witness :
  let bucket := Requests.defaultBucket in
  JsLib.includes ("https://storage.googleapis.com/" +:+ bucketName bucket)
    (bucketName bucket +:+ "/") = false ∧
  JsLib.includes ("videos/" +:+ bucketName bucket) (bucketName bucket +:+ "/") = false ∧
  "videos/" ≠ "" ∧
  result (deleteVideo bucket
            ("https://storage.googleapis.com/" +:+ (bucketName bucket +:+ "/")
               +:+ "videos/" +:+ (bucketName bucket +:+ "/") +:+ "1700000015000.mp4")
            Scenario.emptyWorld) =
    match file_delete bucket "videos/" with
    | Resolved _ => Return tt
    | Rejected e => Throw ("Failed to delete video from GCS: " +:+ e)
    end.
Proof.
  intros bucket.
  assert ("videos/" ≠ "") as Hne by discriminate.
  split_and!; [reflexivity|reflexivity|exact Hne|].
  exact (deleteVideo_stops_at_second_bucket_name bucket
           "https://storage.googleapis.com/" "videos/" "1700000015000.mp4"
           Scenario.emptyWorld eq_refl eq_refl Hne).
Defined.

(** * Uploads *)

(** Reading a schedule off a run, pause by pause. *)
Ltac unroll Hrun :=
  simpl in Hrun;
  repeat lazymatch type of Hrun with
  | runs _ (Paused _ _) _ _ _ =>
      let Hrely := fresh "Hrely" in
      let Hk := fresh "Hk" in
      inversion Hrun as [|? ? ? ? ? ? Hrely Hk]; subst; clear Hrun;
      rename Hk into Hrun; simpl in Hrun
  | runs _ (Done _ _) _ _ _ =>
      inversion Hrun; subst; clear Hrun
  | runs _ (throw _ _) _ _ _ => unfold throw in Hrun
  | runs _ (mret _ _) _ _ _ => unfold mret, Async_ret in Hrun
  end.

(** The world at the end is the one at the start, but for what the other
    tasks did at the pauses. *)
Ltac interference :=
  repeat (eapply rtc_l; [eassumption|]); apply rtc_refl.

(** X4. [uploadVideo] of a path at which there is nothing fails at once
    with the file-not-found error, wrapped: there is no [await] on the way,
    so the bucket is not asked, and the world is as before. *)
Theorem uploadVideo_missing_file env localFilePath projectId w :
  localFilePath ∉ dirs w → files w !! localFilePath = None →
  uploadVideo env localFilePath projectId w
  = Done (Throw ("Failed to upload video to GCS: File not found: " +:+ localFilePath)) w.
Proof.
  intros Hdir Hfile.
  unfold uploadVideo, tryCatch, mbind, Async_bind, existsSync. simpl.
  rewrite bool_decide_false by done.
  rewrite bool_decide_false by (rewrite Hfile; by intros []).
  done.
Qed.

Lemma uploadVideo_missing_file_witness :
("uploads/videos/job_1700000000000_k3x9q2m1z.mp4" ∉ dirs Scenario.emptyWorld) ∧
  files Scenario.emptyWorld !! "uploads/videos/job_1700000000000_k3x9q2m1z.mp4" = None ∧
  uploadVideo Scenario.succeeds "uploads/videos/job_1700000000000_k3x9q2m1z.mp4"
    "default" Scenario.emptyWorld
  = Done (Throw ("Failed to upload video to GCS: File not found: "
                 +:+ "uploads/videos/job_1700000000000_k3x9q2m1z.mp4"))
      Scenario.emptyWorld.
Proof.
  assert ("uploads/videos/job_1700000000000_k3x9q2m1z.mp4" ∉ dirs Scenario.emptyWorld)
    as Hdir by (simpl; set_solver).
  split_and!; [exact Hdir|reflexivity|].
  exact (uploadVideo_missing_file Scenario.succeeds _ "default" Scenario.emptyWorld
           Hdir eq_refl).
Defined.

(** X5. [uploadVideo] of a path at which there is something, under any
    schedule.  It resolves to the object name
    [videos/<projectId>/<timestamp>.mp4] and the signed URL when the bucket
    takes the file and signs; it throws the bucket's error, wrapped once
    for the upload and twice for the signature, otherwise.  Either way it
    writes nothing itself: the world at the end differs from the one at the
    start only by what other tasks did meanwhile, so the local file is
    kept. *)
Theorem uploadVideo_outcome env rely localFilePath projectId w seen res w' :
  localFilePath ∈ dirs w ∨ is_Some (files w !! localFilePath) →
  runs rely (uploadVideo env localFilePath projectId w) seen res w' →
  res = match bucketUpload env, bucketSignedUrl env with
        | Resolved _, Resolved signedUrl =>
            Return ("videos/" +:+ projectId +:+ "/" +:+ pretty (nowUpload env) +:+ ".mp4",
                    signedUrl)
        | Resolved _, Rejected e =>
            Throw ("Failed to upload video to GCS: Failed to generate signed URL: " +:+ e)
        | Rejected e, _ => Throw ("Failed to upload video to GCS: " +:+ e)
        end ∧
  rtc rely w w'.
Proof.
  intros Hpresent Hrun.
  unfold uploadVideo, tryCatch, mbind, Async_bind, existsSync in Hrun. simpl in Hrun.
  assert (bool_decide (localFilePath ∈ dirs w)
          || bool_decide (is_Some (files w !! localFilePath)) = true) as Hb.
  { apply orb_true_iff. destruct Hpresent; [left|right]; by apply bool_decide_eq_true. }
  rewrite Hb in Hrun. clear Hb. simpl in Hrun.
  unfold await, getSignedUrl, awaitCall, tryCatch, await, mbind, Async_bind in Hrun.
  destruct (bucketUpload env) as [[]|e]; [destruct (bucketSignedUrl env) as [url|e]|];
    unroll Hrun; (split; [done|interference]).
Qed.

Lemma uploadVideo_outcome_witness :
  let w := final (Scenario.task Scenario.neverDone) in
  let run := uploadVideo Scenario.succeeds (videoFile Scenario.jobId) "default" w in
  (videoFile Scenario.jobId ∈ dirs w ∨ is_Some (files w !! videoFile Scenario.jobId)) ∧
  runs eq run (observations run) (result run) (final run) ∧
  result run = Return ("videos/default/1700000015000.mp4",
                       "https://storage.googleapis.com/signed") ∧
  rtc eq w (final run).
Proof.
  intros w run.
  assert (videoFile Scenario.jobId ∈ dirs w ∨ is_Some (files w !! videoFile Scenario.jobId))
    as Hpresent by (right; vm_compute; eauto).
  assert (runs eq run (observations run) (result run) (final run)) as Hrun
    by apply (runs_complete eq).
  split_and!; [exact Hpresent|exact Hrun|..];
    apply (uploadVideo_outcome Scenario.succeeds eq _ "default" w _ _ _ Hpresent Hrun).
Defined.

(** * Job identifiers *)

(** A number in decimal has no ["_"] in it. *)
Lemma pretty_N_go_plain x s :
  JsLib.includes s "_" = false → JsLib.includes (pretty_N_go x s) "_" = false.
Proof.
  revert s. induction (N.lt_wf_0 x) as [x _ IH]; intros s Hs.
  assert (x = 0 ∨ 0 < x)%N as [->|Hpos] by lia.
  - by rewrite pretty_N_go_0.
  - rewrite pretty_N_go_step by done. apply IH; [by apply N.div_lt|].
    cbn [JsLib.includes]. rewrite Hs, orb_false_r.
    unfold pretty_N_char. by repeat case_match.
Qed.

Lemma pretty_Z_plain (z : Z) : JsLib.includes (pretty z) "_" = false.
Proof.
  destruct z as [|p|p]; [done|..]; unfold pretty, pretty_Z, pretty, pretty_positive,
    pretty, pretty_N; simpl; by apply pretty_N_go_plain.
Qed.

Lemma generateJobId_inj env1 env2 :
  generateJobId env1 = generateJobId env2 →
  nowJobId env1 = nowJobId env2 ∧ randomSuffix env1 = randomSuffix env2.
Proof.
  unfold generateJobId. intros Heq.
  apply (inj (String.append "job_")) in Heq.
  assert (JsLib.pieces "_" 0 (pretty (nowJobId env1) +:+ "_" +:+ randomSuffix env1)
          = JsLib.pieces "_" 0 (pretty (nowJobId env2) +:+ "_" +:+ randomSuffix env2))
    as Hpieces by (by rewrite Heq).
  rewrite !(pieces_first "" "_") in Hpieces
    by (done || (rewrite append_empty_r; apply pretty_Z_plain)).
  injection Hpieces as Hnow _. apply (inj pretty) in Hnow.
  split; [done|]. rewrite Hnow in Heq.
  by apply (inj (String.append (pretty (nowJobId env2)))), (inj (String.append "_")) in Heq.
Qed.

(** X6. Two submissions that differ in the millisecond or in the random
    suffix get different job identifiers, hence different registry entries
    and different artifact files. *)
Theorem job_identifiers_differ env1 env2 :
  nowJobId env1 ≠ nowJobId env2 ∨ randomSuffix env1 ≠ randomSuffix env2 →
  generateJobId env1 ≠ generateJobId env2 ∧
  videoFile (generateJobId env1) ≠ videoFile (generateJobId env2).
Proof.
  intros Hdiff.
  assert (generateJobId env1 ≠ generateJobId env2) as Hne.
  { intros [Hnow Hsuffix]%generateJobId_inj. by destruct Hdiff. }
  split; [done|]. intros Heq. by apply (inj videoFile) in Heq.
Qed.

Lemma job_identifiers_differ_witness :
  (nowJobId Scenario.succeeds ≠ nowJobId Requests.oneMillisecondLater
   ∨ randomSuffix Scenario.succeeds ≠ randomSuffix Requests.oneMillisecondLater) ∧
  generateJobId Scenario.succeeds ≠ generateJobId Requests.oneMillisecondLater ∧
  videoFile (generateJobId Scenario.succeeds)
  ≠ videoFile (generateJobId Requests.oneMillisecondLater).
Proof.
  assert (nowJobId Scenario.succeeds ≠ nowJobId Requests.oneMillisecondLater
          ∨ randomSuffix Scenario.succeeds ≠ randomSuffix Requests.oneMillisecondLater)
    as Hdiff by (left; simpl; lia).
  split; [exact Hdiff|].
  exact (job_identifiers_differ Scenario.succeeds Requests.oneMillisecondLater Hdiff).
Defined.

(** * Jobs side by side *)

(** X7. Submitting a job leaves the other jobs alone: when [generateVideo]
    returns, every registry entry but the new job's own, every file, every
    directory and the actions logged for every other job are as before. *)
Theorem generateVideo_leaves_other_jobs env prompt options w res w1 task id :
  generateVideo env prompt options w = (res, w1, task) →
  id ≠ generateJobId env →
  jobs w1 !! id = jobs w !! id ∧
  files w1 = files w ∧ dirs w1 = dirs w ∧
  actionsOf id (log w1) = actionsOf id (log w).
Proof.
  unfold generateVideo. destruct (negb (Js.truthy (keyFilePath env))) eqn:Hkey.
  { by intros [= _ <- _]. }
  intros [= _ <- _] Hid.
  unfold processVideoGeneration, tryCatch, tryBlock, mbind, Async_bind, getJob.
  simpl. rewrite lookup_insert_eq. simpl. rewrite Hkey. simpl.
  rewrite !lookup_alter_ne, lookup_insert_ne by done.
  rewrite actionsOf_app. simpl. rewrite decide_False by done.
  by rewrite app_nil_r.
Qed.

Lemma generateVideo_leaves_other_jobs_witness :
  let w := final (Scenario.task Scenario.succeeds) in
  let env := Requests.oneMillisecondLater in
  let submitted := generateVideo env "A harbour at dusk" Scenario.options0 w in
  submitted = (submitted.1.1, submitted.1.2, submitted.2) ∧
  Scenario.jobId ≠ generateJobId env ∧
  jobs submitted.1.2 !! Scenario.jobId = jobs w !! Scenario.jobId ∧
  files submitted.1.2 = files w ∧ dirs submitted.1.2 = dirs w ∧
  actionsOf Scenario.jobId (log submitted.1.2) = actionsOf Scenario.jobId (log w).
Proof.
  intros w env submitted.
  assert (submitted = (submitted.1.1, submitted.1.2, submitted.2)) as Hsub
    by (by destruct submitted as [[] ?]).
  assert (Scenario.jobId ≠ generateJobId env) as Hid by (by vm_compute).
  split_and!; [exact Hsub|exact Hid|..];
    apply (generateVideo_leaves_other_jobs env "A harbour at dusk" Scenario.options0 w
             _ _ _ Scenario.jobId Hsub Hid).
Defined.

(** X8. The driving sequence of one job never touches another job: under
    every schedule in which the other tasks leave the job [jobId] alone,
    at every pause of the driving sequence of [other] and at its end, the
    registry entry of [jobId] (up to a refreshed [videoUrl]), the actions
    logged for it and its artifact file are what they were. *)
Theorem driving_sequences_do_not_interfere env jobId other prompt options w
    seen res w' :
  other ≠ jobId →
  runs (Rely jobId) (processVideoGeneration env other prompt options w) seen res w' →
  Forall (λ w1, view jobId w1 = view jobId w) (seen ++ [w']).
Proof.
  intros Hne Hrun.
  destruct (processVideoGeneration_keeps jobId other Hne (view jobId w)
              env prompt options w seen res w' eq_refl Hrun) as [Hseen Hend].
  apply Forall_app. split; [done|]. apply Forall_singleton. by destruct res.
Qed.

Lemma driving_sequences_do_not_interfere_witness :
  let w := register Requests.oneMillisecondLater "job_1700000000001_k3x9q2m1z"
             "A harbour at dusk" Scenario.options0
             (final (Scenario.task Scenario.succeeds)) in
  let run := processVideoGeneration Requests.oneMillisecondLater
               "job_1700000000001_k3x9q2m1z" "A harbour at dusk" Scenario.options0 w in
  "job_1700000000001_k3x9q2m1z" ≠ Scenario.jobId ∧
  runs (Rely Scenario.jobId) run (observations run) (result run) (final run) ∧
  Forall (λ w1, view Scenario.jobId w1 = view Scenario.jobId w)
    (observations run ++ [final run]).
Proof.
  intros w run.
  assert ("job_1700000000001_k3x9q2m1z" ≠ Scenario.jobId) as Hne by (by vm_compute).
  assert (runs (Rely Scenario.jobId) run (observations run) (result run) (final run))
    as Hrun by apply (runs_complete (Rely Scenario.jobId)).
  split_and!; [exact Hne|exact Hrun|].
  exact (driving_sequences_do_not_interfere Requests.oneMillisecondLater Scenario.jobId
           "job_1700000000001_k3x9q2m1z" "A harbour at dusk" Scenario.options0 w
           _ _ _ Hne Hrun).
Defined.

(** * Authentication *)

Lemma truthy_Some s : Js.truthy (Some s) = true ↔ s ≠ "".
Proof.
  unfold Js.truthy. destruct (String.eqb_spec s ""); simpl; split; congruence.
Qed.

(** What the middleware does once it has a token in hand. *)
Lemma authMiddleware_token {Payload} (config : Auth.Config Payload) header token :
  Auth.nodeEnv config ≠ "development" →
  header ≠ "" →
  JsLib.split header " " !! 1%nat = Some token →
  token ≠ "" →
  Auth.authMiddleware config (Some header) =
    match Auth.verify config token with
    | Auth.Decoded decoded => Auth.Next (Auth.userId config decoded) (Auth.Bearer decoded)
    | Auth.Thrown name =>
        if bool_decide (name = "JsonWebTokenError") then Auth.Refuse 401 "Invalid token"
        else if bool_decide (name = "TokenExpiredError") then Auth.Refuse 401 "Token expired"
        else Auth.Refuse 401 "Authentication failed"
    end.
Proof.
  intros Hprod Hheader Hsplit Htoken. unfold Auth.authMiddleware.
  rewrite bool_decide_false by done.
  apply truthy_Some in Hheader. apply truthy_Some in Htoken.
  rewrite Hheader. change (Js.template (Some header)) with header.
  cbn [negb]. rewrite Hsplit, Htoken. done.
Qed.

(** X9. With [NODE_ENV] not set, empty or [development], the middleware
    lets every request through as the developer, whatever its
    [Authorization] header: no token is asked for and none is verified. *)
Theorem authMiddleware_bypassed_in_development {Payload}
    (config : Auth.Config Payload) authorization :
  Auth.NODE_ENV config = None ∨ Auth.NODE_ENV config = Some ""
  ∨ Auth.NODE_ENV config = Some "development" →
  Auth.authMiddleware config authorization
  = Auth.Next (Some "000000000000000000000001") Auth.Developer.
Proof.
  intros Henv. unfold Auth.authMiddleware, Auth.nodeEnv.
  by destruct Henv as [->|[->| ->]].
Qed.

Lemma authMiddleware_bypassed_in_development_witness :
  (Auth.NODE_ENV Requests.unset = None ∨ Auth.NODE_ENV Requests.unset = Some ""
   ∨ Auth.NODE_ENV Requests.unset = Some "development") ∧
  Auth.authMiddleware Requests.unset (Some "Bearer forged")
  = Auth.Next (Some "000000000000000000000001") Auth.Developer.
Proof.
  assert (Auth.NODE_ENV Requests.unset = None ∨ Auth.NODE_ENV Requests.unset = Some ""
          ∨ Auth.NODE_ENV Requests.unset = Some "development") as Henv
    by (left; reflexivity).
  split; [exact Henv|].
  exact (authMiddleware_bypassed_in_development Requests.unset (Some "Bearer forged") Henv).
Defined.

(** X10. Outside development mode a request gets through only with a
    header whose second space-separated field is a non-empty token that
    [jwt.verify] accepts, and then as the user the token names; every
    other request is answered 401. *)
Theorem authMiddleware_passes_verified_tokens_only {Payload}
    (config : Auth.Config Payload) authorization :
  Auth.nodeEnv config ≠ "development" →
  match Auth.authMiddleware config authorization with
  | Auth.Next req_userId req_user =>
      ∃ header token decoded,
        authorization = Some header ∧
        JsLib.split header " " !! 1%nat = Some token ∧ token ≠ "" ∧
        Auth.verify config token = Auth.Decoded decoded ∧
        req_userId = Auth.userId config decoded ∧ req_user = Auth.Bearer decoded
  | Auth.Refuse statusCode _ => statusCode = 401
  end.
Proof.
  intros Hprod. unfold Auth.authMiddleware. rewrite bool_decide_false by done.
  destruct authorization as [header|]; [|done].
  destruct (Js.truthy (Some header)) eqn:Hheader; [|done].
  change (Js.template (Some header)) with header. cbn [negb].
  destruct (JsLib.split header " " !! 1%nat) as [token|] eqn:Hsplit; [|done].
  destruct (Js.truthy (Some token)) eqn:Htoken; [|done].
  change (Js.template (Some token)) with token. cbn [negb].
  destruct (Auth.verify config token) as [decoded|name] eqn:Hverify.
  - exists header, token, decoded. by rewrite <- truthy_Some.
  - by repeat case_bool_decide.
Qed.

Lemma authMiddleware_passes_verified_tokens_only_witness :
  Auth.nodeEnv Requests.production ≠ "development" ∧
  match Auth.authMiddleware Requests.production (Some "Bearer eyJ.forged") with
  | Auth.Next req_userId req_user =>
      ∃ header token decoded,
        Some "Bearer eyJ.forged" = Some header ∧
        JsLib.split header " " !! 1%nat = Some token ∧ token ≠ "" ∧
        Auth.verify Requests.production token = Auth.Decoded decoded ∧
        req_userId = Auth.userId Requests.production decoded ∧
        req_user = Auth.Bearer decoded
  | Auth.Refuse statusCode _ => statusCode = 401
  end.
Proof.
  assert (Auth.nodeEnv Requests.production ≠ "development") as Hprod by (by vm_compute).
  split; [exact Hprod|].
  exact (authMiddleware_passes_verified_tokens_only Requests.production
           (Some "Bearer eyJ.forged") Hprod).
Defined.

(** X11. The middleware does not look at the authentication scheme, nor
    at anything after the token: outside development mode, a header made
    of any word without a space, a space and a token, with or without a
    space and more text after it, is treated as [Bearer <token>] is. *)
Theorem authMiddleware_ignores_the_scheme {Payload}
    (config : Auth.Config Payload) scheme token rest :
  Auth.nodeEnv config ≠ "development" →
  JsLib.includes scheme " " = false →
  JsLib.includes token " " = false →
  token ≠ "" →
  Auth.authMiddleware config (Some (scheme +:+ " " +:+ token))
  = Auth.authMiddleware config (Some ("Bearer " +:+ token)) ∧
  Auth.authMiddleware config (Some (scheme +:+ " " +:+ token +:+ " " +:+ rest))
  = Auth.authMiddleware config (Some ("Bearer " +:+ token)).
Proof.
  intros Hprod Hscheme Htoken Hne.
  assert (∀ a, JsLib.includes a " " = false →
               JsLib.split (a +:+ " " +:+ token) " " !! 1%nat = Some token) as Hone.
  { intros a Ha. apply (split_second "" " "); [done| |done]. by rewrite append_empty_r. }
  assert (JsLib.split (scheme +:+ " " +:+ token +:+ " " +:+ rest) " " !! 1%nat
          = Some token) as Hmore.
  { apply (split_second_of_more "" " "); [done|..]; by rewrite append_empty_r. }
  rewrite (authMiddleware_token config ("Bearer " +:+ token) token);
    [|done|done|by apply (Hone "Bearer")|done].
  split; apply authMiddleware_token; try done.
  - by destruct scheme.
  - by apply Hone.
  - by destruct scheme.
Qed.

Lemma authMiddleware_ignores_the_scheme_witness :
  Auth.nodeEnv Requests.production ≠ "development" ∧
  JsLib.includes "Basic" " " = false ∧
  JsLib.includes "eyJ.valid" " " = false ∧
  "eyJ.valid" ≠ "" ∧
  Auth.authMiddleware Requests.production (Some ("Basic" +:+ " " +:+ "eyJ.valid"))
  = Auth.authMiddleware Requests.production (Some ("Bearer " +:+ "eyJ.valid")) ∧
  Auth.authMiddleware Requests.production
    (Some ("Basic" +:+ " " +:+ "eyJ.valid" +:+ " " +:+ "and more"))
  = Auth.authMiddleware Requests.production (Some ("Bearer " +:+ "eyJ.valid")).
Proof.
  assert (Auth.nodeEnv Requests.production ≠ "development") as Hprod by (by vm_compute).
  assert ("eyJ.valid" ≠ "") as Hne by discriminate.
  split_and!; [exact Hprod|reflexivity|reflexivity|exact Hne|..];
    apply (authMiddleware_ignores_the_scheme Requests.production "Basic" "eyJ.valid"
             "and more" Hprod eq_refl eq_refl Hne).
Defined.

(** X12. Outside development mode, [POST /generate-video] without a token
    that verifies is answered 401 at once: the controller is not run, so
    nothing is entered in the registry, nothing is written and no driving
    sequence is started. *)
Theorem generate_video_needs_a_token {Payload} (config : Auth.Config Payload)
    env authorization body w :
  Auth.nodeEnv config ≠ "development" →
  (∀ token decoded, JsLib.split (Js.template authorization) " " !! 1%nat = Some token →
                    Auth.verify config token ≠ Auth.Decoded decoded) →
  ∃ message,
    VideoRoutes.post_generate_video config env authorization body w
    = Done (Return ({| VideoController.statusCode := 401;
                       VideoController.message := message;
                       VideoController.data := None |}, None)) w.
Proof.
  intros Hprod Hbad. unfold VideoRoutes.post_generate_video, Auth.authMiddleware.
  rewrite bool_decide_false by done.
  destruct (Js.truthy authorization) eqn:Hheader; [|by eexists]. cbn [negb].
  destruct (JsLib.split (Js.template authorization) " " !! 1%nat) as [token|] eqn:Hsplit;
    [|by eexists].
  destruct (Js.truthy (Some token)) eqn:Htoken; [|by eexists].
  change (Js.template (Some token)) with token. cbn [negb].
  destruct (Auth.verify config token) as [decoded|name] eqn:Hverify.
  - by destruct (Hbad token decoded).
  - repeat case_bool_decide; by eexists.
Qed.

Lemma generate_video_needs_a_token_witness :
  Auth.nodeEnv Requests.production ≠ "development" ∧
  (∀ token decoded,
     JsLib.split (Js.template (Some "Bearer eyJ.forged")) " " !! 1%nat = Some token →
     Auth.verify Requests.production token ≠ Auth.Decoded decoded) ∧
  ∃ message,
    VideoRoutes.post_generate_video Requests.production Scenario.succeeds
      (Some "Bearer eyJ.forged") Requests.body0 Scenario.emptyWorld
    = Done (Return ({| VideoController.statusCode := 401;
                       VideoController.message := message;
                       VideoController.data := None |}, None)) Scenario.emptyWorld.
Proof.
  assert (Auth.nodeEnv Requests.production ≠ "development") as Hprod by (by vm_compute).
  assert (∀ token decoded,
            JsLib.split (Js.template (Some "Bearer eyJ.forged")) " " !! 1%nat = Some token →
            Auth.verify Requests.production token ≠ Auth.Decoded decoded) as Hbad.
  { intros token decoded Htoken. vm_compute in Htoken. injection Htoken as <-.
    by vm_compute. }
  split_and!; [exact Hprod|exact Hbad|].
  exact (generate_video_needs_a_token Requests.production Scenario.succeeds
           (Some "Bearer eyJ.forged") Requests.body0 Scenario.emptyWorld Hprod Hbad).
Defined.

(** * Queries under interference *)

Lemma Rely_entry jobId w w1 j :
  Rely jobId w w1 → jobs w !! jobId = Some j →
  ∃ j1, jobs w1 !! jobId = Some j1 ∧ set_videoUrl None j1 = set_videoUrl None j.
Proof.
  unfold Rely, view. intros [= Hjob _ _] Hj. rewrite Hj in Hjob.
  destruct (jobs w1 !! jobId) as [j1|]; [|done].
  exists j1. split; [done|]. by apply (inj Some) in Hjob.
Qed.

Lemma Rely_absent jobId w w1 :
  Rely jobId w w1 → jobs w !! jobId = None → jobs w1 !! jobId = None.
Proof.
  unfold Rely, view. intros [= Hjob _ _] Hj. rewrite Hj in Hjob.
  by destruct (jobs w1 !! jobId).
Qed.

(** The fields of a registry entry that the other tasks leave alone. *)
Lemma masked_fields j1 j :
  set_videoUrl None j1 = set_videoUrl None j →
  status j1 = status j ∧ progress j1 = progress j ∧ error j1 = error j
  ∧ videoPath j1 = videoPath j ∧ gcsFileName j1 = gcsFileName j
  ∧ prompt j1 = prompt j ∧ options j1 = options j.
Proof. destruct j1, j. by intros [= -> -> -> -> -> -> -> -> ->]. Qed.

(** All that has happened between two worlds of a schedule. *)
Ltac meanwhile :=
  repeat match goal with
  | H1 : Rely ?id ?a ?b, H2 : Rely ?id ?b ?c |- _ =>
      let H := fresh "Hrely" in
      assert (Rely id a c) as H by (by etrans); clear H1 H2
  end.

(** X13. [getVideoUrl] writes nothing, whatever it answers: under every
    schedule the world at its end differs from the one at its start only
    by what other tasks did meanwhile.  Unlike [getVideoStatus], it does
    not store the URL it has had signed. *)
Theorem getVideoUrl_writes_nothing rely signer jobId w seen res w' :
  runs rely (getVideoUrl signer jobId w) seen res w' → rtc rely w w'.
Proof.
  intros Hrun.
  unfold getVideoUrl, tryCatch, mbind, Async_bind, getJob in Hrun. simpl in Hrun.
  destruct (jobs w !! jobId) as [job|]; [|unroll Hrun; interference].
  simpl in Hrun.
  destruct (negb (bool_decide (status job = completed))); [unroll Hrun; interference|].
  destruct (Js.truthy (gcsFileName job)); [|unroll Hrun; interference].
  unfold awaitCall, getSignedUrl, tryCatch, await, mbind, Async_bind in Hrun.
  destruct signer; unroll Hrun; interference.
Qed.

Lemma getVideoUrl_writes_nothing_witness :
  let w := final (Scenario.task Scenario.succeeds) in
  let run := getVideoUrl (Resolved "https://storage.googleapis.com/fresh")
               Scenario.jobId w in
  runs eq run (observations run) (result run) (final run) ∧ rtc eq w (final run).
Proof.
  intros w run.
  assert (runs eq run (observations run) (result run) (final run)) as Hrun
    by apply (runs_complete eq).
  split; [exact Hrun|].
  exact (getVideoUrl_writes_nothing eq (Resolved "https://storage.googleapis.com/fresh")
           Scenario.jobId w _ _ _ Hrun).
Defined.

(** X14. What [getVideoStatus] answers for a registered job, under every
    schedule in which the other tasks leave the job alone.  It never
    throws, whatever the bucket does.  Status, progress and error are
    those of the registry entry and [localPath] is its [videoPath].
    [videoUrl] is the freshly signed URL if the job is [completed] with a
    [gcsFileName] and the bucket signs, [null] if the bucket refuses, and
    the URL stored before in the other cases. *)
Theorem getVideoStatus_report now signer jobId w job seen res w' :
  jobs w !! jobId = Some job →
  runs (Rely jobId) (getVideoStatus now signer jobId w) seen res w' →
  ∃ data,
    res = Return data ∧
    sd_jobId data = jobId ∧
    sd_status data = status job ∧
    sd_progress data = progress job ∧
    sd_error data = error job ∧
    localPath data = videoPath job ∧
    sd_videoUrl data =
      if bool_decide (status job = completed) && Js.truthy (gcsFileName job)
      then match signer with
           | Resolved url => Some url
           | Rejected _ => None
           end
      else if Js.truthy (videoUrl job) then videoUrl job else None.
Proof.
  intros Hjob Hrun.
  unfold getVideoStatus, tryCatch, mbind, Async_bind, getJob in Hrun. simpl in Hrun.
  rewrite Hjob in Hrun. simpl in Hrun.
  destruct (bool_decide (status job = completed) && Js.truthy (gcsFileName job)).
  - unfold awaitCall, getSignedUrl, tryCatch, await, mbind, Async_bind in Hrun.
    destruct signer as [url|e]; unroll Hrun; meanwhile;
      destruct (Rely_entry _ _ _ _ Hrely1 Hjob) as (j1 & Hj1 & Hmask);
      apply masked_fields in Hmask as (? & ? & ? & _);
      eexists; (split; [reflexivity|]); simpl;
      rewrite ?lookup_alter_eq, Hj1; simpl; by split_and!.
  - destruct (Js.truthy (videoUrl job)); unroll Hrun; simpl in *;
      eexists; (split; [reflexivity|]); simpl; rewrite Hjob; by split_and!.
Qed.

Lemma getVideoStatus_report_witness :
  let w := final (Scenario.task Scenario.succeeds) in
  let run := getVideoStatus 1700000020000 (Rejected "socket hang up") Scenario.jobId w in
  ∃ job,
    jobs w !! Scenario.jobId = Some job ∧
    runs (Rely Scenario.jobId) run (observations run) (result run) (final run) ∧
    ∃ data,
      result run = Return data ∧
      sd_jobId data = Scenario.jobId ∧
      sd_status data = status job ∧
      sd_progress data = progress job ∧
      sd_error data = error job ∧
      localPath data = videoPath job ∧
      sd_videoUrl data =
        if bool_decide (status job = completed) && Js.truthy (gcsFileName job)
        then None
        else if Js.truthy (videoUrl job) then videoUrl job else None.
Proof.
  intros w run.
  assert (runs (Rely Scenario.jobId) run (observations run) (result run) (final run))
    as Hrun by apply (runs_complete (Rely Scenario.jobId)).
  destruct (jobs w !! Scenario.jobId) as [job|] eqn:Hjob; [|by vm_compute in Hjob].
  exists job. split_and!; [reflexivity|exact Hrun|].
  exact (getVideoStatus_report 1700000020000 (Rejected "socket hang up")
           Scenario.jobId w job _ _ _ Hjob Hrun).
Defined.

(** * The controller *)

(** What [submit] answers with credentials configured. *)
Lemma submit_configured env videoPrompt options w :
  Js.truthy (keyFilePath env) = true →
  let jobId := generateJobId env in
  let task :=
    processVideoGeneration env jobId videoPrompt options
      (register env jobId videoPrompt options w) in
  VideoController.submit env videoPrompt options w
  = Done (Return ({| ticket_status := queued; ticket_jobId := jobId;
                     estimatedProcessingTime :=
                       getProcessingTime (default "standard" (quality options));
                     videoPrompt := videoPrompt |},
                  Some task))
      (current task).
Proof.
  intros Hkey. unfold VideoController.submit.
  by rewrite generateVideo_configured.
Qed.

(** X15. [generateVideo] of the controller, with credentials configured
    and a scene id or a prompt in the body, under every schedule.  The
    reply is 202 with the identifier of the job and the status [queued],
    and a driving sequence has been started.  When the call to the service
    returned, the job had been entered in the registry and its driving
    sequence had run to its first [await]: the job had status
    [processing] and progress 10, the prompt of the body (for want of one,
    [Video scene <sceneId>]) and its quality and duration, [standard] and
    5 by default.  The reply is sent one turn of the event loop after
    that: the world then is what the tasks run in that turn, the driving
    sequence among them, have made of it. *)
Theorem generateVideo_accepted env (rely : relation World) body w seen res w' :
  Js.truthy (keyFilePath env) = true →
  Js.truthy (VideoController.sceneId body) = true
  ∨ Js.truthy (VideoController.body_prompt body) = true →
  runs rely (VideoController.generateVideo env body w) seen res w' →
  ∃ w0 task job,
    res = Return ({| VideoController.statusCode := 202;
                     VideoController.message := "Video generation queued";
                     VideoController.data :=
                       Some {| VideoController.queued_jobId := generateJobId env;
                               VideoController.queued_status := queued;
                               VideoController.queued_sceneId :=
                                 VideoController.sceneId body |} |},
                  Some task) ∧
    rely w w0 ∧
    task = processVideoGeneration env (generateJobId env) (prompt job) (options job)
             (register env (generateJobId env) (prompt job) (options job) w0) ∧
    seen = [w; current task] ∧
    jobs (current task) !! generateJobId env = Some job ∧
    status job = processing ∧ progress job = 10 ∧
    prompt job =
      Js.template (Js.or (VideoController.body_prompt body)
                         (Some ("Video scene "
                                +:+ Js.template (VideoController.sceneId body)))) ∧
    quality (options job) = Js.or (VideoController.body_quality body) (Some "standard") ∧
    duration (options job)
    = Some (JsLib.orNumber (VideoController.body_duration body) 5) ∧
    rely (current task) w'.
Proof.
  intros Hkey Hbody Hrun.
  unfold VideoController.generateVideo in Hrun.
  assert (negb (Js.truthy (VideoController.sceneId body))
          && negb (Js.truthy (VideoController.body_prompt body)) = false) as Hgiven.
  { by destruct Hbody as [-> | ->]; rewrite ?andb_false_r. }
  rewrite Hgiven in Hrun.
  unfold tryCatch, mbind, Async_bind, pause in Hrun. cbn [bindRun catchRun] in Hrun.
  inversion Hrun as [|? w0 ? ? ? ? Hrely Hk]; subst; clear Hrun.
  unfold awaitCall, tryCatch, mbind, Async_bind in Hk.
  rewrite submit_configured in Hk by done.
  unfold pause, mret, Async_ret in Hk. cbn [bindRun catchRun] in Hk.
  inversion Hk as [|? ? ? ? ? ? Hrely' Hk']; subst; clear Hk.
  cbn [bindRun catchRun fst snd] in Hk'. inversion Hk'; subst; clear Hk'.
  eexists w0, _, _.
  split_and!; [reflexivity|exact Hrely| |reflexivity|by apply first_pause
              |reflexivity..|exact Hrely'].
  reflexivity.
Qed.

Lemma generateVideo_accepted_witness :
  let env := Scenario.succeeds in
  let run := VideoController.generateVideo env Requests.body0 Scenario.emptyWorld in
  Js.truthy (keyFilePath env) = true ∧
  (Js.truthy (VideoController.sceneId Requests.body0) = true
   ∨ Js.truthy (VideoController.body_prompt Requests.body0) = true) ∧
  runs eq run (observations run) (result run) (final run) ∧
  ∃ w0 task job,
    result run
    = Return ({| VideoController.statusCode := 202;
                 VideoController.message := "Video generation queued";
                 VideoController.data :=
                   Some {| VideoController.queued_jobId := generateJobId env;
                           VideoController.queued_status := queued;
                           VideoController.queued_sceneId :=
                             VideoController.sceneId Requests.body0 |} |},
              Some task) ∧
    Scenario.emptyWorld = w0 ∧
    task = processVideoGeneration env (generateJobId env) (prompt job) (options job)
             (register env (generateJobId env) (prompt job) (options job) w0) ∧
    observations run = [Scenario.emptyWorld; current task] ∧
    jobs (current task) !! generateJobId env = Some job ∧
    status job = processing ∧ progress job = 10 ∧
    prompt job =
      Js.template (Js.or (VideoController.body_prompt Requests.body0)
                         (Some ("Video scene "
                                +:+ Js.template (VideoController.sceneId Requests.body0)))) ∧
    quality (options job)
    = Js.or (VideoController.body_quality Requests.body0) (Some "standard") ∧
    duration (options job)
    = Some (JsLib.orNumber (VideoController.body_duration Requests.body0) 5) ∧
    current task = final run.
Proof.
  intros env run.
  assert (Js.truthy (VideoController.sceneId Requests.body0) = true
          ∨ Js.truthy (VideoController.body_prompt Requests.body0) = true) as Hbody
    by (right; reflexivity).
  assert (runs eq run (observations run) (result run) (final run)) as Hrun
    by apply (runs_complete eq).
  split_and!; [reflexivity|exact Hbody|exact Hrun|].
  exact (generateVideo_accepted env eq Requests.body0 Scenario.emptyWorld
           _ _ _ eq_refl Hbody Hrun).
Defined.

(** X16. [generateVideo] of the controller without credentials, or with
    neither scene id nor prompt in the body: under every schedule the
    reply is 400 with the message of the cause and no driving sequence is
    started; nothing is written, so that the world at the end differs from
    the one at the start only by what other tasks did meanwhile. *)
Theorem generateVideo_declined env rely body w seen res w' :
  Js.truthy (keyFilePath env) = false
  ∨ (Js.truthy (VideoController.sceneId body) = false
     ∧ Js.truthy (VideoController.body_prompt body) = false) →
  runs rely (VideoController.generateVideo env body w) seen res w' →
  res = Return ({| VideoController.statusCode := 400;
                   VideoController.message :=
                     if negb (Js.truthy (VideoController.sceneId body))
                        && negb (Js.truthy (VideoController.body_prompt body))
                     then "Scene ID or prompt required"
                     else "Video generation failed: Google Service Account Key not configured. Check GOOGLE_APPLICATION_CREDENTIALS in .env";
                   VideoController.data := None |}, None) ∧
  rtc rely w w'.
Proof.
  intros Hcause Hrun.
  unfold VideoController.generateVideo in Hrun.
  destruct (negb (Js.truthy (VideoController.sceneId body))
            && negb (Js.truthy (VideoController.body_prompt body))) eqn:Hbody.
  { unfold tryCatch in Hrun. unroll Hrun. split; [done|interference]. }
  destruct Hcause as [Hkey|[Hs Hp]]; [|by rewrite Hs, Hp in Hbody].
  unfold tryCatch, mbind, Async_bind, awaitCall, tryCatch, mbind, Async_bind,
    VideoController.submit, generateVideo in Hrun.
  rewrite Hkey in Hrun. unroll Hrun. split; [done|interference].
Qed.

Lemma generateVideo_declined_witness :
  let run := VideoController.generateVideo Scenario.unconfigured Requests.body0
               Scenario.emptyWorld in
  (Js.truthy (keyFilePath Scenario.unconfigured) = false
   ∨ (Js.truthy (VideoController.sceneId Requests.body0) = false
      ∧ Js.truthy (VideoController.body_prompt Requests.body0) = false)) ∧
  runs eq run (observations run) (result run) (final run) ∧
  result run
  = Return ({| VideoController.statusCode := 400;
               VideoController.message :=
                 "Video generation failed: Google Service Account Key not configured. Check GOOGLE_APPLICATION_CREDENTIALS in .env";
               VideoController.data := None |}, None) ∧
  rtc eq Scenario.emptyWorld (final run).
Proof.
  intros run.
  assert (Js.truthy (keyFilePath Scenario.unconfigured) = false
          ∨ (Js.truthy (VideoController.sceneId Requests.body0) = false
             ∧ Js.truthy (VideoController.body_prompt Requests.body0) = false)) as Hcause
    by (left; reflexivity).
  assert (runs eq run (observations run) (result run) (final run)) as Hrun
    by apply (runs_complete eq).
  split_and!; [exact Hcause|exact Hrun|..];
    apply (generateVideo_declined Scenario.unconfigured eq Requests.body0
             Scenario.emptyWorld _ _ _ Hcause Hrun).
Defined.

(** The registry entry of a job, pause after pause. *)
Ltac carry :=
  repeat match goal with
  | Hj : jobs ?a !! ?id = Some ?j, H : Rely ?id ?a ?b |- _ =>
      let j' := fresh "j" in
      let Hj' := fresh "Hj" in
      let Hm := fresh "Hmask" in
      destruct (Rely_entry id a b j H Hj) as (j' & Hj' & Hm); clear H
  end;
  repeat match goal with
  | H : set_videoUrl None _ = set_videoUrl None _ |- _ =>
      apply masked_fields in H as (? & ? & ? & ? & ? & ? & ?)
  end.

Ltac entries :=
  rewrite ?lookup_alter_eq;
  repeat match goal with
  | H : jobs ?a !! ?id = Some _ |- context [jobs ?a !! ?id] => rewrite H
  end.

(** X17. [getJobStatus] of the controller on a registered job, under
    every schedule in which the other tasks leave the job alone: the reply
    is 200, whatever the bucket does, and carries the status, progress,
    error and [videoPath] of the registry entry.  For a [completed] job
    with a [gcsFileName], [videoUrl] is the freshly signed URL, and [null]
    when the bucket refuses to sign (or signs with the empty string). *)
Theorem getJobStatus_of_registered_job now signer jobId w job seen res w' :
  jobs w !! jobId = Some job →
  runs (Rely jobId) (VideoController.getJobStatus now signer jobId w) seen res w' →
  ∃ data,
    res = Return {| VideoController.statusCode := 200;
                    VideoController.message := "Job status retrieved";
                    VideoController.data := Some data |} ∧
    sd_jobId data = jobId ∧
    sd_status data = status job ∧
    sd_progress data = progress job ∧
    sd_error data = error job ∧
    localPath data = videoPath job ∧
    (status job = completed → Js.truthy (gcsFileName job) = true →
     sd_videoUrl data =
       match signer with
       | Resolved url => Js.or (Some url) None
       | Rejected _ => None
       end).
Proof.
  intros Hjob Hrun.
  unfold VideoController.getJobStatus, tryCatch, mbind, Async_bind, pause in Hrun.
  cbn [bindRun catchRun] in Hrun.
  inversion Hrun as [|? w1 ? ? ? ? Hrely Hk]; subst; clear Hrun.
  destruct (Rely_entry _ _ _ _ Hrely Hjob) as (j1 & Hj1 & Hmask).
  pose proof (masked_fields _ _ Hmask) as (Hst & Hpr & Her & Hvp & Hgcs & _).
  unfold awaitCall, getVideoStatus, tryCatch, mbind, Async_bind, getJob in Hk.
  cbn [bindRun catchRun] in Hk. rewrite Hj1 in Hk. cbn [bindRun catchRun] in Hk.
  rewrite Hst, Hgcs in Hk.
  destruct (bool_decide (status job = completed)) eqn:Hdone;
    [destruct (Js.truthy (gcsFileName job)) eqn:Hkey|]; cbn [andb] in Hk.
  - unfold awaitCall, getSignedUrl, tryCatch, await, mbind, Async_bind in Hk.
    destruct signer as [url|e]; unroll Hk; carry;
      eexists; (split; [reflexivity|]); simpl; entries; simpl;
      split_and!; (congruence || done).
  - destruct (Js.truthy (videoUrl j1)); unroll Hk;
      eexists; (split; [reflexivity|]); simpl; entries; simpl;
      split_and!; (congruence || done).
  - apply bool_decide_eq_false in Hdone.
    destruct (Js.truthy (videoUrl j1)); unroll Hk;
      eexists; (split; [reflexivity|]); simpl; entries; simpl;
      split_and!; (congruence || done).
Qed.

Lemma getJobStatus_of_registered_job_witness :
  let w := final (Scenario.task Scenario.succeeds) in
  let run := VideoController.getJobStatus 1700000020000 (Rejected "socket hang up")
               Scenario.jobId w in
  ∃ job,
    jobs w !! Scenario.jobId = Some job ∧
    runs (Rely Scenario.jobId) run (observations run) (result run) (final run) ∧
    ∃ data,
      result run = Return {| VideoController.statusCode := 200;
                             VideoController.message := "Job status retrieved";
                             VideoController.data := Some data |} ∧
      sd_jobId data = Scenario.jobId ∧
      sd_status data = status job ∧
      sd_progress data = progress job ∧
      sd_error data = error job ∧
      localPath data = videoPath job ∧
      (status job = completed → Js.truthy (gcsFileName job) = true →
       sd_videoUrl data = None).
Proof.
  intros w run.
  assert (runs (Rely Scenario.jobId) run (observations run) (result run) (final run))
    as Hrun by apply (runs_complete (Rely Scenario.jobId)).
  destruct (jobs w !! Scenario.jobId) as [job|] eqn:Hjob; [|by vm_compute in Hjob].
  exists job. split_and!; [reflexivity|exact Hrun|].
  exact (getJobStatus_of_registered_job 1700000020000 (Rejected "socket hang up")
           Scenario.jobId w job _ _ _ Hjob Hrun).
Defined.

(** X18. [getJobStatus] of the controller on an identifier that is not in
    the registry, under every schedule in which no other task enters it:
    the reply is 404 with the message of [getVideoStatus], and nothing is
    written. *)
Theorem getJobStatus_of_unknown_job now signer jobId w seen res w' :
  jobs w !! jobId = None →
  runs (Rely jobId) (VideoController.getJobStatus now signer jobId w) seen res w' →
  res = Return {| VideoController.statusCode := 404;
                  VideoController.message := "Failed to get video status: Job not found";
                  VideoController.data := None |} ∧
  rtc (Rely jobId) w w'.
Proof.
  intros Hjob Hrun.
  unfold VideoController.getJobStatus, tryCatch, mbind, Async_bind, pause in Hrun.
  cbn [bindRun catchRun] in Hrun.
  inversion Hrun as [|? w1 ? ? ? ? Hrely Hk]; subst; clear Hrun.
  pose proof (Rely_absent _ _ _ Hrely Hjob) as Hj1.
  unfold awaitCall, getVideoStatus, tryCatch, mbind, Async_bind, getJob in Hk.
  cbn [bindRun catchRun] in Hk. rewrite Hj1 in Hk.
  unroll Hk. split; [done|interference].
Qed.

Lemma getJobStatus_of_unknown_job_witness :
  let run := VideoController.getJobStatus 1700000020000
               (Resolved "https://storage.googleapis.com/fresh")
               "job_1600000000000_aaaaaaaaa" Scenario.emptyWorld in
  jobs Scenario.emptyWorld !! "job_1600000000000_aaaaaaaaa" = None ∧
  runs (Rely "job_1600000000000_aaaaaaaaa") run
    (observations run) (result run) (final run) ∧
  result run
  = Return {| VideoController.statusCode := 404;
              VideoController.message := "Failed to get video status: Job not found";
              VideoController.data := None |} ∧
  rtc (Rely "job_1600000000000_aaaaaaaaa") Scenario.emptyWorld (final run).
Proof.
  intros run.
  assert (runs (Rely "job_1600000000000_aaaaaaaaa") run
            (observations run) (result run) (final run)) as Hrun
    by apply (runs_complete (Rely "job_1600000000000_aaaaaaaaa")).
  split_and!; [reflexivity|exact Hrun|..];
    apply (getJobStatus_of_unknown_job 1700000020000
             (Resolved "https://storage.googleapis.com/fresh")
             "job_1600000000000_aaaaaaaaa" Scenario.emptyWorld _ _ _ eq_refl Hrun).
Defined.

(** * The job documents *)

(** X19. [getJobStatus] of [videoGenerationService] reports the status
    stored in the job document, not the one of the engine: for a document
    whose [googleJobId] is registered, under every schedule in which the
    other tasks leave that job alone, it resolves to the identifier asked
    for, the status and the dates of the document and the progress of the
    registry entry, whatever the status of that entry is. *)
Theorem getJobStatus_reports_the_document_status document id now signer jobId w job
    seen res w' :
  VideoGenerationService.googleJobId document = Some id →
  jobs w !! id = Some job →
  runs (Rely id)
    (VideoGenerationService.getJobStatus (Resolved (Some document)) now signer jobId w)
    seen res w' →
  ∃ report,
    res = Return report ∧
    VideoGenerationService.js_jobId report = jobId ∧
    VideoGenerationService.js_status report
    = VideoGenerationService.doc_status document ∧
    VideoGenerationService.js_progress report = progress job ∧
    VideoGenerationService.js_createdAt report
    = VideoGenerationService.createdAt document ∧
    VideoGenerationService.js_updatedAt report
    = VideoGenerationService.updatedAt document.
Proof.
  intros Hid Hjob Hrun.
  unfold VideoGenerationService.getJobStatus, tryCatch, mbind, Async_bind, await, pause
    in Hrun.
  cbn [bindRun catchRun] in Hrun.
  inversion Hrun as [|? w1 ? ? ? ? Hrely Hk]; subst; clear Hrun.
  destruct (Rely_entry _ _ _ _ Hrely Hjob) as (j1 & Hj1 & Hmask).
  pose proof (masked_fields _ _ Hmask) as (Hst & Hpr & Her & Hvp & Hgcs & _).
  rewrite Hid in Hk.
  unfold mret, Async_ret, awaitCall, getVideoStatus, tryCatch, mbind, Async_bind, getJob
    in Hk.
  cbn [bindRun catchRun] in Hk. rewrite Hj1 in Hk. cbn [bindRun catchRun] in Hk.
  destruct (bool_decide (status j1 = completed) && Js.truthy (gcsFileName j1)).
  - unfold awaitCall, getSignedUrl, tryCatch, await, mbind, Async_bind in Hk.
    destruct signer as [url|e]; unroll Hk; carry;
      eexists; (split; [reflexivity|]); simpl; entries; simpl;
      split_and!; (congruence || done).
  - destruct (Js.truthy (videoUrl j1)); unroll Hk;
      eexists; (split; [reflexivity|]); simpl; entries; simpl;
      split_and!; (congruence || done).
Qed.

Lemma getJobStatus_reports_the_document_status_witness :
  let document :=
    {| VideoGenerationService.googleJobId := Some Scenario.jobId;
       VideoGenerationService.doc_status := processing;
       VideoGenerationService.createdAt := 1700000000000;
       VideoGenerationService.updatedAt := 1700000000500 |} in
  let w := final (Scenario.task Scenario.succeeds) in
  let run := VideoGenerationService.getJobStatus (Resolved (Some document))
               1700000020000 (Resolved "https://storage.googleapis.com/fresh")
               "65a1b2c3d4e5f60718293a4b" w in
  ∃ job,
    VideoGenerationService.googleJobId document = Some Scenario.jobId ∧
    (jobs w !! Scenario.jobId = Some job ∧ status job = completed ∧ progress job = 100) ∧
    runs (Rely Scenario.jobId) run (observations run) (result run) (final run) ∧
    ∃ report,
      result run = Return report ∧
      VideoGenerationService.js_jobId report = "65a1b2c3d4e5f60718293a4b" ∧
      VideoGenerationService.js_status report = processing ∧
      VideoGenerationService.js_progress report = progress job ∧
      VideoGenerationService.js_createdAt report = 1700000000000 ∧
      VideoGenerationService.js_updatedAt report = 1700000000500.
Proof.
  intros document w run.
  assert (runs (Rely Scenario.jobId) run (observations run) (result run) (final run))
    as Hrun by apply (runs_complete (Rely Scenario.jobId)).
  destruct (jobs w !! Scenario.jobId) as [job|] eqn:Hjob; [|by vm_compute in Hjob].
  exists job. split_and!; [reflexivity|reflexivity|..|exact Hrun|].
  - vm_compute in Hjob. by injection Hjob as <-.
  - vm_compute in Hjob. by injection Hjob as <-.
  - exact (getJobStatus_reports_the_document_status document Scenario.jobId
             1700000020000 (Resolved "https://storage.googleapis.com/fresh")
             "65a1b2c3d4e5f60718293a4b" w job _ _ _ eq_refl Hjob Hrun).
Defined.

(** X20. A document whose [googleJobId] the registry does not hold,
    because it is [null] or because the registry, which is in memory, was
    started anew, cannot be queried: [getJobStatus] of
    [videoGenerationService], run with nothing in between, throws the
    not-found error of the engine wrapped twice, and writes nothing. *)
Theorem getJobStatus_of_lost_job document now signer jobId w :
  (∀ id, VideoGenerationService.googleJobId document = Some id → jobs w !! id = None) →
  let run := VideoGenerationService.getJobStatus (Resolved (Some document))
               now signer jobId w in
  result run
  = Throw "Failed to get job status: Failed to get video status: Job not found" ∧
  final run = w.
Proof.
  intros Hlost run. subst run. unfold VideoGenerationService.getJobStatus, tryCatch, mbind,
    Async_bind, await, pause, awaitCall, getVideoStatus, tryCatch, mbind, Async_bind,
    getJob, result, final.
  destruct document as [[id|] ? ? ?]; simpl in *; [|done].
  by rewrite (Hlost id eq_refl).
Qed.

Lemma getJobStatus_of_lost_job_witness :
  let document :=
    {| VideoGenerationService.googleJobId := Some Scenario.jobId;
       VideoGenerationService.doc_status := processing;
       VideoGenerationService.createdAt := 1700000000000;
       VideoGenerationService.updatedAt := 1700000000500 |} in
  let run := VideoGenerationService.getJobStatus (Resolved (Some document))
               1700000020000 (Resolved "https://storage.googleapis.com/fresh")
               "65a1b2c3d4e5f60718293a4b" Scenario.emptyWorld in
  (∀ id, VideoGenerationService.googleJobId document = Some id →
         jobs Scenario.emptyWorld !! id = None) ∧
  result run
  = Throw "Failed to get job status: Failed to get video status: Job not found" ∧
  final run = Scenario.emptyWorld.
Proof.
  intros document run.
  assert (∀ id, VideoGenerationService.googleJobId document = Some id →
                jobs Scenario.emptyWorld !! id = None) as Hlost
    by (intros id _; apply lookup_empty).
  split; [exact Hlost|].
  exact (getJobStatus_of_lost_job document 1700000020000
           (Resolved "https://storage.googleapis.com/fresh")
           "65a1b2c3d4e5f60718293a4b" Scenario.emptyWorld Hlost).
Defined.

(** * Where the artifact ends up *)

Section Storage.

Context (env : Env) (jobId : string).

Local Abbreviation rely := (Rely jobId).
Local Abbreviation O := (λ _ : World, True).
Local Abbreviation assertion := (Job → list Action → option Buffer → Prop).

(** A step that leaves [gcsFileName], [videoPath], [error] and the
    artifact file alone. *)
Local Ltac keep :=
  lazymatch goal with
  | |- triple _ _ (At _ ?φ) _ _ _ =>
      first
        [ apply step_assign with (ψ := φ); by intros [] ? ?
        | apply step_setProgress with (ψ := φ); by intros [] ? ?
        | apply step_emit with (ψ := φ); by intros ? ? ?
        | apply step_sleep with (ψ := φ); [done|by intros ? ? ?]
        | apply step_await; done ]
  end.

Lemma triple_present (P : World → Prop) path Q E :
  (∀ w, P w →
        Q (bool_decide (path ∈ dirs w) || bool_decide (is_Some (files w !! path))) w) →
  triple rely O P (existsSync path) Q E.
Proof.
  intros HQ w seen res w' HP Hrun. inversion Hrun; subst.
  split; [constructor|]. by apply HQ.
Qed.

(** [uploadVideo] of the artifact, once it is on disk. *)
Lemma uploadVideo_artifact (φ : assertion) projectId :
  (∀ j a f, φ j a f → is_Some f) →
  triple rely O (At jobId φ) (uploadVideo env (videoFile jobId) projectId)
    (λ r w, At jobId φ w ∧ uploads env = true ∧
            r.1 = "videos/" +:+ projectId +:+ "/" +:+ pretty (nowUpload env) +:+ ".mp4")
    (λ _ w, At jobId φ w ∧ uploads env = false).
Proof.
  intros Hfile. unfold uploadVideo.
  eapply triple_catch with (R := λ _ w, At jobId φ w ∧ uploads env = false);
    [|intros e; by apply triple_throw].
  eapply triple_bind.
  { apply triple_present with
      (Q := λ present w, present = true ∧ At jobId φ w).
    intros w Hw. split; [|done]. destruct Hw as (j & Hj & Hφ).
    apply Hfile in Hφ. apply orb_true_iff. right. by apply bool_decide_eq_true. }
  intros present. apply triple_pure. intros ->. simpl.
  eapply triple_bind.
  { apply triple_await with
      (Q := λ _ w, At jobId φ w ∧ ∃ u, bucketUpload env = Resolved u); [done|..].
    - intros w w1 u Hw Hr Heq. split; [by eapply At_stable|eauto].
    - intros w w1 e Hw Hr Heq. split; [by eapply At_stable|].
      unfold uploads. by rewrite Heq. }
  intros []. simpl.
  eapply triple_bind.
  { eapply triple_awaitCall with
      (Q' := λ _ w, (At jobId φ w ∧ ∃ u, bucketUpload env = Resolved u)
                    ∧ ∃ url, bucketSignedUrl env = Resolved url)
      (E' := λ _ w, At jobId φ w ∧ uploads env = false)
      (Q := λ _ w, At jobId φ w ∧ uploads env = true); [|done|done|..].
    - unfold getSignedUrl.
      eapply triple_catch with (R := λ _ w, At jobId φ w ∧ uploads env = false);
        [|intros e; by apply triple_throw].
      apply triple_await; [done|..].
      + intros w w1 url [Hw Hup] Hr Heq. split; [|eauto]. split; [|done].
        by eapply At_stable.
      + intros w w1 e [Hw [u Hup]] Hr Heq. split; [by eapply At_stable|].
        unfold uploads. by rewrite Hup, Heq.
    - intros url w w1 [[Hw [u Hup]] [url' Hsign]] Hr. split; [by eapply At_stable|].
      unfold uploads. by rewrite Hup, Hsign.
    - intros e w w1 [Hw Hup] Hr. split; [by eapply At_stable|done]. }
  intros signedUrl. apply triple_ret. by intros w [Hw Hup].
Qed.

Lemma Unstored_pollLoop operationName remaining pollCount :
  triple rely O (At jobId Unstored)
    (pollLoop env jobId operationName remaining pollCount)
    (λ _, At jobId Unstored) (λ _, At jobId Unstored).
Proof.
  revert pollCount. induction remaining as [|remaining IH]; intros pollCount.
  - by apply triple_ret.
  - rewrite pollLoop_S.
    eapply triple_bind; [keep|]. intros [].
    eapply triple_bind; [keep|]. intros [].
    eapply triple_bind; [keep|]. intros token.
    eapply triple_bind; [keep|]. intros [].
    eapply triple_bind; [keep|]. intros opResponse.
    destruct (op_done opResponse); [by apply triple_ret|].
    destruct (op_error opResponse); [by apply triple_throw|].
    eapply triple_bind; [keep|]. intros []. apply IH.
Qed.

Lemma tryBlock_settles prompt options :
  triple rely O (At jobId Unstored)
    (tryBlock env jobId prompt options)
    (λ _, At jobId (Settled env jobId options false))
    (λ _, At jobId Unstored).
Proof.
  set (Saved := λ (j : Job) (a : list Action) (f : option Buffer),
         OnDisk false j a f ∧ status j = completed
         ∧ videoPath j = Some (videoFile jobId)).
  unfold tryBlock.
  eapply triple_bind; [apply step_getJob|]. intros job.
  destruct job as [job|];
    [|apply triple_absurd; by intros w [[]%is_Some_None _]].
  eapply triple_pre with (P' := At jobId Unstored); [|by intros w [_ ?]].
  eapply triple_bind; [keep|]. intros [].
  eapply triple_bind; [keep|]. intros [].
  eapply triple_bind with (R := λ _, At jobId Unstored).
  { destruct (negb _); [by apply triple_throw|by apply triple_ret]. }
  intros [].
  eapply triple_bind; [keep|]. intros [].
  eapply triple_bind; [keep|]. intros token.
  eapply triple_bind with (R := λ _, At jobId Unstored).
  { destruct (negb _); [by apply triple_throw|by apply triple_ret]. }
  intros [].
  eapply triple_bind; [keep|]. intros [].
  eapply triple_bind; [keep|]. intros [].
  eapply triple_bind; [keep|]. intros startResponse.
  eapply triple_bind with (R := λ _, At jobId Unstored).
  { destruct (start_done startResponse); [by apply triple_ret|].
    eapply triple_bind; [keep|]. intros [].
    eapply triple_bind; [apply Unstored_pollLoop|].
    intros [result|]; [by apply triple_ret|by apply triple_throw]. }
  intros result.
  eapply triple_bind; [keep|]. intros [].
  eapply triple_bind.
  { apply extractAndSave_spec with (ψ := OnDisk false).
    intros j a f data (Hkey & _ & Herr). by split_and!. }
  intros [].
  eapply triple_conseq with
    (Q' := λ _, At jobId (Settled env jobId options false)) (E' := λ _ _, False);
    [|done|done|done].
  eapply triple_bind; [keep|]. intros [].
  eapply triple_bind.
  { apply step_assign with
      (ψ := λ j a f, OnDisk false j a f ∧ status j = completed).
    by intros [] a f H. }
  intros [].
  eapply triple_bind; [keep|]. intros [].
  eapply triple_bind.
  { apply step_assign with (ψ := Saved). by intros [] a f [H ?]. }
  intros [].
  eapply triple_catch with (R := λ _ w, uploads env = false ∧ At jobId Saved w).
  - eapply triple_bind.
    { eapply triple_awaitCall with
        (Q := λ r w, (uploads env = true ∧ r.1 = objectName env options)
                     ∧ At jobId Saved w);
        [apply uploadVideo_artifact; by intros j a f [(_ & ? & _) _]|done|done|..].
      - intros r w w1 (Hw & Hup & Hname) Hr. split; [done|by eapply At_stable].
      - intros e w w1 [Hw Hup] Hr. split; [done|by eapply At_stable]. }
    intros uploaded. apply triple_pure. intros [Hup Hname].
    eapply triple_bind.
    { apply step_assign with (ψ := Settled env jobId options false).
      intros [] a f ((_ & Hf & Herr) & Hst & Hpath). unfold Settled. simpl in *.
      rewrite Hup, Hname. by split_and!. }
    intros []. apply step_assign. by intros [] a f H.
  - intros e. apply triple_pure. intros Hup.
    eapply triple_bind; [keep|]. intros [].
    apply step_assign. intros [] a f ((_ & Hf & Herr) & Hst & Hpath). unfold Settled.
    simpl in *. rewrite Hup. by split_and!.
Qed.

Lemma catchBlock_settles prompt options message :
  triple rely O (At jobId Unstored)
    (catchBlock env jobId prompt options message)
    (λ _, At jobId (Settled env jobId options true))
    (λ _, At jobId Stranded).
Proof.
  set (Made := λ (j : Job) (a : list Action) (f : option Buffer),
         OnDisk true j a f ∧ status j = completed).
  unfold catchBlock.
  eapply triple_bind; [apply step_getJob|]. intros job.
  destruct job as [job|];
    [|apply triple_absurd; by intros w [[]%is_Some_None _]].
  eapply triple_pre with (P' := At jobId Unstored); [|by intros w [_ ?]].
  eapply triple_bind with (R := λ _, At jobId Stranded).
  { eapply triple_bind.
    - apply step_assign with (ψ := λ j a f, Unstored j a f ∧ status j = failed).
      by intros [] a f H.
    - intros []. apply step_assign. intros [] a f [(Hkey & Hpath & _) Hst].
      unfold Stranded. simpl in *. eauto. }
  intros [].
  eapply triple_bind; [apply step_raise|]. intros [].
  eapply triple_bind with (R := λ _, At jobId (OnDisk true)).
  { apply step_awaitCall; [done..|].
    apply createPlaceholderVideo_spec. intros j a f (_ & Herr & Hkey & _).
    by split_and!. }
  intros [].
  eapply triple_conseq with
    (Q' := λ _, At jobId (Settled env jobId options true)) (E' := λ _ _, False);
    [|done|done|done].
  eapply triple_bind; [apply step_getJob|]. intros fallbackJob.
  destruct fallbackJob as [fallbackJob|];
    [|apply triple_absurd; by intros w [[]%is_Some_None _]].
  eapply triple_pre with (P' := At jobId (OnDisk true)); [|by intros w [_ ?]].
  eapply triple_bind; [keep|]. intros [].
  eapply triple_bind.
  { apply step_assign with (ψ := Made). by intros [] a f H. }
  intros [].
  eapply triple_catch with (R := λ _ w, uploads env = false ∧ At jobId Made w).
  - eapply triple_bind.
    { eapply triple_awaitCall with
        (Q := λ r w, (uploads env = true ∧ r.1 = objectName env options)
                     ∧ At jobId Made w);
        [apply uploadVideo_artifact; by intros j a f [(_ & ? & _) _]|done|done|..].
      - intros r w w1 (Hw & Hup & Hname) Hr. split; [done|by eapply At_stable].
      - intros e w w1 [Hw Hup] Hr. split; [done|by eapply At_stable]. }
    intros uploaded. apply triple_pure. intros [Hup Hname].
    eapply triple_bind.
    { apply step_assign with
        (ψ := λ j a f, status j = completed ∧ is_Some f
                       ∧ gcsFileName j = Some (objectName env options)
                       ∧ is_Some (error j)).
      intros [] a f ((_ & Hf & Herr) & Hst). simpl in *. rewrite Hname. by split_and!. }
    intros [].
    eapply triple_bind; [keep|]. intros [].
    apply step_assign. intros [] a f (Hst & Hf & Hkey & Herr). unfold Settled. simpl in *.
    rewrite Hup. by split_and!.
  - intros e. apply triple_pure. intros Hup.
    apply step_assign. intros [] a f ((Hkey & Hf & Herr) & Hst). unfold Settled.
    simpl in *. rewrite Hup. by split_and!.
Qed.

Lemma processVideoGeneration_settles prompt options :
  triple rely O (At jobId Unstored)
    (processVideoGeneration env jobId prompt options)
    (λ _ w, ∃ fellBack, At jobId (Settled env jobId options fellBack) w)
    (λ _, At jobId Stranded).
Proof.
  eapply triple_catch.
  - eapply triple_conseq; [apply tryBlock_settles|done| |done]. intros [] w Hw. eauto.
  - intros e. eapply triple_conseq; [apply catchBlock_settles|done| |done].
    intros [] w Hw. eauto.
Qed.

End Storage.

Lemma submitted_task env prompt options w0 ticket w1 task :
  generateVideo env prompt options w0 = (Return ticket, w1, Some task) →
  ticket_jobId ticket = generateJobId env ∧
  task = processVideoGeneration env (generateJobId env) prompt options
           (register env (generateJobId env) prompt options w0).
Proof.
  unfold generateVideo. destruct (negb _); [done|]. by intros [= <- _ <-].
Qed.

Lemma registered_Unstored env jobId prompt options w :
  At jobId Unstored (register env jobId prompt options w).
Proof. exists (newJob env prompt options). simpl. by rewrite lookup_insert_eq. Qed.

(** X21. How a submitted job stands when its driving sequence is over,
    under every schedule in which the other tasks leave the job alone.
    If the driving sequence has ended normally, the job is [completed]
    and there is a file at its local path; [gcsFileName] is the object
    name [videos/<projectId, or default>/<timestamp>.mp4] if the bucket
    took the file and signed, and [null] otherwise; [videoPath] is the
    local path, except that it is [null] for a job that fell back to the
    placeholder and was uploaded.  If it has ended by throwing, which it
    does when the [catch] block throws, the job is left [failed] with its
    error recorded, and with neither [gcsFileName] nor [videoPath]. *)
Theorem finished_job_storage env prompt options w0 ticket w1 task seen res w' :
  generateVideo env prompt options w0 = (Return ticket, w1, Some task) →
  runs (Rely (ticket_jobId ticket)) task seen res w' →
  ∃ j, jobs w' !! ticket_jobId ticket = Some j ∧
       match res with
       | Return _ =>
           status j = completed ∧
           is_Some (files w' !! videoFile (ticket_jobId ticket)) ∧
           gcsFileName j
           = (if uploads env then Some (objectName env options) else None) ∧
           videoPath j
           = (if uploads env && bool_decide (is_Some (error j)) then None
              else Some (videoFile (ticket_jobId ticket)))
       | Throw _ =>
           status j = failed ∧ is_Some (error j) ∧
           gcsFileName j = None ∧ videoPath j = None
       end.
Proof.
  intros [-> ->]%submitted_task Hrun.
  destruct (processVideoGeneration_settles env _ prompt options _ _ _ _
              (registered_Unstored env _ prompt options w0) Hrun) as [_ Hpost].
  destruct res as [[]|e]; simpl in Hpost.
  - destruct Hpost as (fellBack & j & Hj & Hst & Hf & Hkey & Hpath & Herr). simpl in *.
    exists j. split_and!; [done..|]. rewrite Hpath.
    destruct fellBack.
    + by rewrite bool_decide_true.
    + rewrite bool_decide_false; [done|]. rewrite Herr. by intros [].
  - destruct Hpost as (j & Hj & Hpost). by exists j.
Qed.

Lemma finished_job_storage_witness :
  let env := Scenario.submissionFails in
  let task := Scenario.task env in
  generateVideo env "A lighthouse at dawn" Scenario.options0 Scenario.emptyWorld
  = (Return {| ticket_status := queued; ticket_jobId := Scenario.jobId;
               estimatedProcessingTime := Js.Num 60;
               videoPrompt := "A lighthouse at dawn" |},
     current task, Some task) ∧
  runs (Rely Scenario.jobId) task (observations task) (Return tt) (final task) ∧
  ∃ j, jobs (final task) !! Scenario.jobId = Some j ∧
       status j = completed ∧
       is_Some (files (final task) !! videoFile Scenario.jobId) ∧
       gcsFileName j = (if uploads env then Some (objectName env Scenario.options0)
                        else None) ∧
       videoPath j = (if uploads env && bool_decide (is_Some (error j)) then None
                      else Some (videoFile Scenario.jobId)).
Proof.
  intros env task.
  assert (runs (Rely Scenario.jobId) task (observations task) (Return tt) (final task))
    as Hrun by exact (runs_complete (Rely Scenario.jobId) task).
  split_and!; [reflexivity|exact Hrun|].
  exact (finished_job_storage env "A lighthouse at dawn" Scenario.options0
           Scenario.emptyWorld
           {| ticket_status := queued; ticket_jobId := Scenario.jobId;
              estimatedProcessingTime := Js.Num 60;
              videoPrompt := "A lighthouse at dawn" |}
           (current task) task _ (Return tt) _ eq_refl Hrun).
Defined.



(** Both ends occur: with the bucket down the artifact is retrieved from
    the local path; on a read-only disk it is not retrieved at all. *)
Example retrieval_after_timeout :
  result (getVideoUrl (Resolved "https://storage.googleapis.com/fresh")
            Scenario.jobId (final (Scenario.task Scenario.neverDone)))
  = Return (Some "uploads/videos/job_1700000000000_k3x9q2m1z.mp4").
Proof. vm_compute. reflexivity. Qed.

Example retrieval_on_read_only_disk :
  result (getVideoUrl (Resolved "https://storage.googleapis.com/fresh")
            Scenario.jobId (final (Scenario.task Scenario.readOnlyDisk)))
  = Throw "Failed to retrieve video: Video not ready yet".
Proof. vm_compute. reflexivity. Qed.

(** * Requests to the provider *)

Lemma submitsIn_app l l' : submitsIn (l ++ l') = submitsIn l ++ submitsIn l'.
Proof. induction l as [|[] l IH]; simpl; by rewrite ?IH. Qed.

Lemma Submitted_other base n j a f act :
  submitsIn [act] = [] → Submitted base n j a f → Submitted base n j (a ++ [act]) f.
Proof.
  intros Hact (l & -> & Hn). exists (l ++ [act]). split; [by rewrite app_assoc|].
  by rewrite submitsIn_app, Hact, app_nil_r.
Qed.

Lemma Submitted_submit base n j a f enhancedPrompt videoDuration :
  Submitted base n j a f →
  Submitted base (S n) j (a ++ [Submit enhancedPrompt videoDuration]) f.
Proof.
  intros (l & -> & Hn). exists (l ++ [Submit enhancedPrompt videoDuration]).
  split; [by rewrite app_assoc|].
  rewrite submitsIn_app, length_app. simpl. lia.
Qed.

Lemma PolledTimes_other base n j a f act :
  pollsIn [act] = O → PolledTimes base n j a f → PolledTimes base n j (a ++ [act]) f.
Proof.
  intros Hact (l & -> & Hn). exists (l ++ [act]). split; [by rewrite app_assoc|].
  rewrite pollsIn_app, Hact. lia.
Qed.

Lemma PolledTimes_poll base n j a f c :
  PolledTimes base n j a f → PolledTimes base (S n) j (a ++ [Poll c]) f.
Proof.
  intros (l & -> & Hn). exists (l ++ [Poll c]). split; [by rewrite app_assoc|].
  rewrite pollsIn_app. simpl. lia.
Qed.

Section ProviderRequests.

Context (env : Env) (jobId : string) (base : list Action).

Local Abbreviation rely := (Rely jobId).
Local Abbreviation O := (λ _ : World, True).

(** A step that sends nothing to the provider. *)
Local Ltac quiet :=
  lazymatch goal with
  | |- triple _ _ (At _ ?φ) _ _ _ =>
      first
        [ apply step_assign with (ψ := φ); intros ? ? ? H; exact H
        | apply step_setProgress with (ψ := φ); intros ? ? ? H;
          first [by apply Submitted_other | by apply PolledTimes_other]
        | apply step_emit with (ψ := φ); intros ? ? ? H;
          first [by apply Submitted_other | by apply PolledTimes_other]
        | apply step_sleep with (ψ := φ); [done|]; intros ? ? ? H;
          first [by apply Submitted_other | by apply PolledTimes_other]
        | apply step_await; done
        | apply step_awaitCall; [done..|]; by apply uploadVideo_frame
        | apply extractAndSave_spec with (ψ := φ); by intros ]
  end.

Lemma Submitted_pollLoop n operationName remaining pollCount :
  triple rely O (At jobId (Submitted base n))
    (pollLoop env jobId operationName remaining pollCount)
    (λ _, At jobId (Submitted base n)) (λ _, At jobId (Submitted base n)).
Proof.
  revert pollCount. induction remaining as [|remaining IH]; intros pollCount.
  - by apply triple_ret.
  - rewrite pollLoop_S.
    eapply triple_bind; [quiet|]. intros [].
    eapply triple_bind; [quiet|]. intros [].
    eapply triple_bind; [quiet|]. intros token.
    eapply triple_bind; [quiet|]. intros [].
    eapply triple_bind; [quiet|]. intros opResponse.
    destruct (op_done opResponse); [by apply triple_ret|].
    destruct (op_error opResponse); [by apply triple_throw|].
    eapply triple_bind; [quiet|]. intros []. apply IH.
Qed.

Lemma tryBlock_submits prompt options :
  triple rely O (At jobId (Submitted base 0))
    (tryBlock env jobId prompt options)
    (λ _, At jobId (Submitted base (if authorized env then 1 else 0)))
    (λ _, At jobId (Submitted base (if authorized env then 1 else 0))).
Proof.
  unfold tryBlock.
  eapply triple_bind; [apply step_getJob|]. intros job.
  destruct job as [job|];
    [|apply triple_absurd; by intros w [[]%is_Some_None _]].
  eapply triple_pre with (P' := At jobId (Submitted base 0)); [|by intros w [_ ?]].
  eapply triple_bind; [quiet|]. intros [].
  eapply triple_bind; [quiet|]. intros [].
  eapply triple_bind with
    (R := λ _ w, Js.truthy (keyFilePath env) = true ∧ At jobId (Submitted base 0) w).
  { destruct (Js.truthy (keyFilePath env)) eqn:Hkey; simpl.
    - by apply triple_ret.
    - apply triple_throw. unfold authorized. by rewrite Hkey. }
  intros []. apply triple_pure. intros Hkey.
  eapply triple_bind.
  { apply triple_await with
      (Q := λ _ w, (∃ u, authClient env = Resolved u) ∧ At jobId (Submitted base 0) w);
      [done|..].
    - intros w w1 u Hw Hr Heq. split; [eauto|by eapply At_stable].
    - intros w w1 e Hw Hr Heq. unfold authorized. rewrite Heq, andb_false_r.
      by eapply At_stable. }
  intros []. apply triple_pure. intros [u Hclient].
  eapply triple_bind.
  { apply triple_await with
      (Q := λ token w, accessToken env = Resolved token ∧ At jobId (Submitted base 0) w);
      [done|..].
    - intros w w1 token Hw Hr Heq. split; [done|by eapply At_stable].
    - intros w w1 e Hw Hr Heq. unfold authorized. rewrite Hclient, Heq, andb_false_r.
      by eapply At_stable. }
  intros token. apply triple_pure. intros Htoken.
  eapply triple_bind with
    (R := λ _ w, authorized env = true ∧ At jobId (Submitted base 0) w).
  { unfold authorized. rewrite Hkey, Hclient, Htoken. simpl.
    destruct (Js.truthy token); simpl; [by apply triple_ret|by apply triple_throw]. }
  intros []. apply triple_pure. intros ->.
  eapply triple_bind.
  { apply step_setProgress with (ψ := Submitted base 0).
    intros ? ? ? H. by apply Submitted_other. }
  intros [].
  eapply triple_bind.
  { apply step_emit with (ψ := Submitted base 1). intros ? ? ?. apply Submitted_submit. }
  intros [].
  eapply triple_bind; [quiet|]. intros startResponse.
  eapply triple_bind with (R := λ _, At jobId (Submitted base 1)).
  { destruct (start_done startResponse); [by apply triple_ret|].
    eapply triple_bind; [quiet|]. intros [].
    eapply triple_bind; [apply Submitted_pollLoop|].
    intros [result|]; [by apply triple_ret|by apply triple_throw]. }
  intros result.
  eapply triple_bind; [quiet|]. intros [].
  eapply triple_bind; [quiet|]. intros [].
  eapply triple_bind; [quiet|]. intros [].
  eapply triple_bind; [quiet|]. intros [].
  eapply triple_bind; [quiet|]. intros [].
  eapply triple_bind; [quiet|]. intros [].
  eapply triple_catch with (R := λ _, At jobId (Submitted base 1)).
  - eapply triple_bind; [quiet|]. intros uploaded.
    eapply triple_bind; [quiet|]. intros []. quiet.
  - intros e. eapply triple_bind; [quiet|]. intros []. quiet.
Qed.

Lemma catchBlock_submits n prompt options message :
  triple rely O (At jobId (Submitted base n))
    (catchBlock env jobId prompt options message)
    (λ _, At jobId (Submitted base n)) (λ _, At jobId (Submitted base n)).
Proof.
  unfold catchBlock.
  eapply triple_bind; [apply step_getJob|]. intros job.
  destruct job as [job|];
    [|apply triple_absurd; by intros w [[]%is_Some_None _]].
  eapply triple_pre with (P' := At jobId (Submitted base n)); [|by intros w [_ ?]].
  eapply triple_bind with (R := λ _, At jobId (Submitted base n)).
  { eapply triple_bind; [quiet|]. intros []. quiet. }
  intros [].
  eapply triple_bind; [apply step_raise|]. intros [].
  eapply triple_bind with (R := λ _, At jobId (Submitted base n)).
  { apply step_awaitCall; [done..|]. apply createPlaceholderVideo_spec. by intros. }
  intros [].
  eapply triple_bind; [apply step_getJob|]. intros fallbackJob.
  destruct fallbackJob as [fallbackJob|];
    [|apply triple_absurd; by intros w [[]%is_Some_None _]].
  eapply triple_pre with (P' := At jobId (Submitted base n)); [|by intros w [_ ?]].
  eapply triple_bind; [quiet|]. intros [].
  eapply triple_bind; [quiet|]. intros [].
  eapply triple_catch with (R := λ _, At jobId (Submitted base n)).
  - eapply triple_bind; [quiet|]. intros uploaded.
    eapply triple_bind; [quiet|]. intros [].
    eapply triple_bind; [quiet|]. intros []. quiet.
  - intros e. quiet.
Qed.

Lemma processVideoGeneration_submits prompt options :
  triple rely O (At jobId (Submitted base 0))
    (processVideoGeneration env jobId prompt options)
    (λ _, At jobId (Submitted base (if authorized env then 1 else 0)))
    (λ _, At jobId (Submitted base (if authorized env then 1 else 0))).
Proof.
  eapply triple_catch; [apply tryBlock_submits|].
  intros e. apply catchBlock_submits.
Qed.

Lemma PolledAtMost_other n j a f act :
  pollsIn [act] = 0%nat → PolledAtMost base n j a f → PolledAtMost base n j (a ++ [act]) f.
Proof. intros Hact (c & Hc & H). exists c. split; [done|]. by apply PolledTimes_other. Qed.

Lemma PolledTimes_weaken c n w :
  (c ≤ n)%nat → At jobId (PolledTimes base c) w → At jobId (PolledAtMost base n) w.
Proof. intros Hc (j & Hj & H). exists j. split; [done|]. by exists c. Qed.

(** A step after the last poll. *)
Local Ltac after :=
  lazymatch goal with
  | |- triple _ _ (At _ ?φ) _ _ _ =>
      first
        [ apply step_assign with (ψ := φ); intros ? ? ? H; exact H
        | apply step_setProgress with (ψ := φ); intros ? ? ? H;
          by apply PolledAtMost_other
        | apply step_awaitCall; [done..|]; by apply uploadVideo_frame
        | apply extractAndSave_spec with (ψ := φ); by intros ]
  end.

Lemma PolledTimes_pollLoop n operationName remaining pollCount :
  settlesAt env n → (pollCount < n)%nat →
  triple rely O (At jobId (PolledTimes base pollCount))
    (pollLoop env jobId operationName remaining pollCount)
    (λ _, At jobId (PolledAtMost base n)) (λ _, At jobId (PolledAtMost base n)).
Proof.
  intros (d & Hd & Hsettled). revert pollCount.
  induction remaining as [|remaining IH]; intros pollCount Hlt.
  - apply triple_ret. intros w. apply PolledTimes_weaken. lia.
  - assert (∀ c w, (c ≤ S pollCount)%nat → At jobId (PolledTimes base c) w →
                   At jobId (PolledAtMost base n) w) as Hweak.
    { intros c w Hc. apply PolledTimes_weaken. lia. }
    rewrite pollLoop_S.
    eapply triple_bind; [quiet|]. intros [].
    eapply triple_bind; [eapply triple_exn; [quiet|]|].
    { intros e w. apply Hweak. lia. }
    intros [].
    eapply triple_bind; [eapply triple_exn; [quiet|]|].
    { intros e w. apply Hweak. lia. }
    intros token.
    eapply triple_bind.
    { apply step_emit with (ψ := PolledTimes base (S pollCount)).
      intros ? ? ?. apply PolledTimes_poll. }
    intros [].
    eapply triple_bind.
    { apply triple_await with
        (Q := λ op w, opResponse env (S pollCount) = Resolved op
                      ∧ At jobId (PolledTimes base (S pollCount)) w); [done|..].
      - intros w w1 op Hw Hr Heq. split; [done|by eapply At_stable].
      - intros w w1 e Hw Hr Heq. eapply (Hweak (S pollCount)); [done|].
        by eapply At_stable. }
    intros opResponse. apply triple_pure. intros Hop.
    destruct (op_done opResponse) eqn:Hdone.
    { apply triple_ret. intros w. by apply Hweak. }
    destruct (op_error opResponse) eqn:Herr.
    { apply triple_throw. intros w. by apply Hweak. }
    assert (S pollCount < n)%nat as Hnext.
    { destruct (decide (S pollCount = n)) as [<-|]; [|lia].
      rewrite Hop in Hd. injection Hd as <-. rewrite Hdone, Herr in Hsettled.
      by destruct Hsettled as [|[]%is_Some_None]. }
    eapply triple_bind; [quiet|]. intros []. by apply IH.
Qed.

Lemma tryBlock_polled n prompt options :
  settlesAt env n → (1 ≤ n)%nat →
  triple rely O (At jobId (PolledTimes base 0))
    (tryBlock env jobId prompt options)
    (λ _, At jobId (PolledAtMost base n)) (λ _, At jobId (PolledAtMost base n)).
Proof.
  intros Hsettled Hn.
  assert (∀ w, At jobId (PolledTimes base 0) w → At jobId (PolledAtMost base n) w)
    as Hweak.
  { intros w. apply PolledTimes_weaken. lia. }
  unfold tryBlock.
  eapply triple_bind; [apply step_getJob|]. intros job.
  destruct job as [job|];
    [|apply triple_absurd; by intros w [[]%is_Some_None _]].
  eapply triple_pre with (P' := At jobId (PolledTimes base 0)); [|by intros w [_ ?]].
  eapply triple_bind; [quiet|]. intros [].
  eapply triple_bind; [quiet|]. intros [].
  eapply triple_bind with (R := λ _, At jobId (PolledTimes base 0)).
  { destruct (negb _); [by apply triple_throw|by apply triple_ret]. }
  intros [].
  eapply triple_bind; [eapply triple_exn; [quiet|intros e w; apply Hweak]|]. intros [].
  eapply triple_bind; [eapply triple_exn; [quiet|intros e w; apply Hweak]|]. intros token.
  eapply triple_bind with (R := λ _, At jobId (PolledTimes base 0)).
  { destruct (negb _); [by apply triple_throw|by apply triple_ret]. }
  intros [].
  eapply triple_bind; [quiet|]. intros [].
  eapply triple_bind; [quiet|]. intros [].
  eapply triple_bind; [eapply triple_exn; [quiet|intros e w; apply Hweak]|]. intros startResponse.
  eapply triple_bind with (R := λ _, At jobId (PolledAtMost base n)).
  { destruct (start_done startResponse); [by apply triple_ret|].
    eapply triple_bind; [quiet|]. intros [].
    eapply triple_bind; [by apply PolledTimes_pollLoop|].
    intros [result|]; [by apply triple_ret|by apply triple_throw]. }
  intros result.
  eapply triple_bind; [after|]. intros [].
  eapply triple_bind; [after|]. intros [].
  eapply triple_bind; [after|]. intros [].
  eapply triple_bind; [after|]. intros [].
  eapply triple_bind; [after|]. intros [].
  eapply triple_bind; [after|]. intros [].
  eapply triple_catch with (R := λ _, At jobId (PolledAtMost base n)).
  - eapply triple_bind; [after|]. intros uploaded.
    eapply triple_bind; [after|]. intros []. after.
  - intros e. eapply triple_bind; [after|]. intros []. after.
Qed.

Lemma catchBlock_polled n prompt options message :
  triple rely O (At jobId (PolledAtMost base n))
    (catchBlock env jobId prompt options message)
    (λ _, At jobId (PolledAtMost base n)) (λ _, At jobId (PolledAtMost base n)).
Proof.
  unfold catchBlock.
  eapply triple_bind; [apply step_getJob|]. intros job.
  destruct job as [job|];
    [|apply triple_absurd; by intros w [[]%is_Some_None _]].
  eapply triple_pre with (P' := At jobId (PolledAtMost base n)); [|by intros w [_ ?]].
  eapply triple_bind with (R := λ _, At jobId (PolledAtMost base n)).
  { eapply triple_bind; [after|]. intros []. after. }
  intros [].
  eapply triple_bind; [apply step_raise|]. intros [].
  eapply triple_bind with (R := λ _, At jobId (PolledAtMost base n)).
  { apply step_awaitCall; [done..|]. apply createPlaceholderVideo_spec. by intros. }
  intros [].
  eapply triple_bind; [apply step_getJob|]. intros fallbackJob.
  destruct fallbackJob as [fallbackJob|];
    [|apply triple_absurd; by intros w [[]%is_Some_None _]].
  eapply triple_pre with (P' := At jobId (PolledAtMost base n)); [|by intros w [_ ?]].
  eapply triple_bind; [after|]. intros [].
  eapply triple_bind; [after|]. intros [].
  eapply triple_catch with (R := λ _, At jobId (PolledAtMost base n)).
  - eapply triple_bind; [after|]. intros uploaded.
    eapply triple_bind; [after|]. intros [].
    eapply triple_bind; [after|]. intros []. after.
  - intros e. after.
Qed.

Lemma processVideoGeneration_polled n prompt options :
  settlesAt env n → (1 ≤ n)%nat →
  triple rely O (At jobId (PolledTimes base 0))
    (processVideoGeneration env jobId prompt options)
    (λ _, At jobId (PolledAtMost base n)) (λ _, At jobId (PolledAtMost base n)).
Proof.
  intros Hsettled Hn.
  eapply triple_catch; [by apply tryBlock_polled|].
  intros e. apply catchBlock_polled.
Qed.

End ProviderRequests.

Lemma registered_quiet env jobId prompt options w :
  At jobId (λ j a f, Submitted (actionsOf jobId (log w)) 0 j a f
                     ∧ PolledTimes (actionsOf jobId (log w)) 0 j a f)
    (register env jobId prompt options w).
Proof.
  exists (newJob env prompt options). simpl. rewrite lookup_insert_eq.
  split; [done|]. split; exists []; by rewrite app_nil_r.
Qed.

(** X23. The driving sequence of a submitted job sends its prompt to the
    provider once if it gets an access token, and not at all if it does
    not; it never submits twice.  This holds under every schedule in which
    the other tasks leave the job alone. *)
Theorem one_submission_per_job env prompt options w0 ticket w1 task seen res w' :
  generateVideo env prompt options w0 = (Return ticket, w1, Some task) →
  runs (Rely (ticket_jobId ticket)) task seen res w' →
  ∃ l, actionsOf (ticket_jobId ticket) (log w')
       = actionsOf (ticket_jobId ticket) (log w0) ++ l ∧
       length (submitsIn l) = if authorized env then 1%nat else 0%nat.
Proof.
  intros [-> ->]%submitted_task Hrun.
  set (jobId := generateJobId env) in *.
  assert (At jobId (Submitted (actionsOf jobId (log w0)) 0)
            (register env jobId prompt options w0)) as Hstart.
  { destruct (registered_quiet env jobId prompt options w0) as (j & Hj & H & _).
    by exists j. }
  destruct (processVideoGeneration_submits env jobId _ prompt options _ _ _ _
              Hstart Hrun) as [_ Hpost].
  destruct res as [[]|]; by destruct Hpost as (j & Hj & l & Hl & Hn); exists l.
Qed.

Lemma one_submission_per_job_witness :
  let env := Scenario.succeeds in
  let task := Scenario.task env in
  generateVideo env "A lighthouse at dawn" Scenario.options0 Scenario.emptyWorld
  = (Return {| ticket_status := queued; ticket_jobId := Scenario.jobId;
               estimatedProcessingTime := Js.Num 60;
               videoPrompt := "A lighthouse at dawn" |},
     current task, Some task) ∧
  runs (Rely Scenario.jobId) task (observations task) (result task) (final task) ∧
  ∃ l, actionsOf Scenario.jobId (log (final task))
       = actionsOf Scenario.jobId (log Scenario.emptyWorld) ++ l ∧
       length (submitsIn l) = if authorized env then 1%nat else 0%nat.
Proof.
  intros env task.
  assert (runs (Rely Scenario.jobId) task (observations task) (result task) (final task))
    as Hrun by apply (runs_complete (Rely Scenario.jobId)).
  split_and!; [reflexivity|exact Hrun|].
  exact (one_submission_per_job env "A lighthouse at dawn" Scenario.options0
           Scenario.emptyWorld
           {| ticket_status := queued; ticket_jobId := Scenario.jobId;
              estimatedProcessingTime := Js.Num 60;
              videoPrompt := "A lighthouse at dawn" |}
           (current task) task _ _ _ eq_refl Hrun).
Defined.

(** X24. Polling stops when the provider has settled the operation: if
    its answer to the [n]-th poll is [done] or an error, the driving
    sequence of a submitted job sends at most [n] polls, under every
    schedule in which the other tasks leave the job alone. *)
Theorem polling_stops_when_settled env n prompt options w0 ticket w1 task seen res w' :
  (1 ≤ n)%nat →
  settlesAt env n →
  generateVideo env prompt options w0 = (Return ticket, w1, Some task) →
  runs (Rely (ticket_jobId ticket)) task seen res w' →
  ∃ l, actionsOf (ticket_jobId ticket) (log w')
       = actionsOf (ticket_jobId ticket) (log w0) ++ l ∧
       (pollsIn l ≤ n)%nat.
Proof.
  intros Hn Hsettled [-> ->]%submitted_task Hrun.
  set (jobId := generateJobId env) in *.
  assert (At jobId (PolledTimes (actionsOf jobId (log w0)) 0)
            (register env jobId prompt options w0)) as Hstart.
  { destruct (registered_quiet env jobId prompt options w0) as (j & Hj & _ & H).
    by exists j. }
  destruct (processVideoGeneration_polled env jobId _ n prompt options Hsettled Hn
              _ _ _ _ Hstart Hrun) as [_ Hpost].
  destruct res as [[]|];
    destruct Hpost as (j & Hj & c & Hc & l & Hl & Hpolls); exists l; (split; [done|lia]).
Qed.

Lemma polling_stops_when_settled_witness :
  let env := Scenario.succeeds in
  let task := Scenario.task env in
  (1 ≤ 3)%nat ∧
  settlesAt env 3 ∧
  generateVideo env "A lighthouse at dawn" Scenario.options0 Scenario.emptyWorld
  = (Return {| ticket_status := queued; ticket_jobId := Scenario.jobId;
               estimatedProcessingTime := Js.Num 60;
               videoPrompt := "A lighthouse at dawn" |},
     current task, Some task) ∧
  runs (Rely Scenario.jobId) task (observations task) (result task) (final task) ∧
  ∃ l, actionsOf Scenario.jobId (log (final task))
       = actionsOf Scenario.jobId (log Scenario.emptyWorld) ++ l ∧
       (pollsIn l ≤ 3)%nat.
Proof.
  intros env task.
  assert (1 ≤ 3)%nat as Hn by lia.
  assert (settlesAt env 3) as Hsettled.
  { eexists. split; [reflexivity|]. by left. }
  assert (runs (Rely Scenario.jobId) task (observations task) (result task) (final task))
    as Hrun by apply (runs_complete (Rely Scenario.jobId)).
  split_and!; [exact Hn|exact Hsettled|reflexivity|exact Hrun|].
  exact (polling_stops_when_settled env 3 "A lighthouse at dawn" Scenario.options0
           Scenario.emptyWorld
           {| ticket_status := queued; ticket_jobId := Scenario.jobId;
              estimatedProcessingTime := Js.Num 60;
              videoPrompt := "A lighthouse at dawn" |}
           (current task) task _ _ _ Hn Hsettled eq_refl Hrun).
Defined.

(** X25. [processVideoGeneration] for an identifier that is not in the
    registry returns at once and does nothing: no request is sent, nothing
    is written, no placeholder is made. *)
Theorem processVideoGeneration_of_unknown_job env jobId prompt options w :
  jobs w !! jobId = None →
  processVideoGeneration env jobId prompt options w = Done (Return tt) w.
Proof.
  intros Hjob.
  unfold processVideoGeneration, tryCatch, tryBlock, mbind, Async_bind, getJob.
  simpl. by rewrite Hjob.
Qed.

Lemma processVideoGeneration_of_unknown_job_witness :
  jobs Scenario.emptyWorld !! Scenario.jobId = None ∧
  processVideoGeneration Scenario.succeeds Scenario.jobId "A lighthouse at dawn"
    Scenario.options0 Scenario.emptyWorld
  = Done (Return tt) Scenario.emptyWorld.
Proof.
  split; [reflexivity|].
  exact (processVideoGeneration_of_unknown_job Scenario.succeeds Scenario.jobId
           "A lighthouse at dawn" Scenario.options0 Scenario.emptyWorld eq_refl).
Defined.

Lemma pollProgress_exact_table :
  forallb (λ k, pollProgress k =? Z.min (20 + (70 * Z.of_nat k) `div` 120) 90)
          (seq 0 121) = true.
Proof. by vm_compute. Qed.

(** X26. The progress shown while polling, computed in floating point as
    in the source, is free of rounding error: after the [k]-th poll, for
    every [k] the loop can reach, it is 20 plus the integer part of
    [70 k / 120], at most 90. *)
Theorem pollProgress_exact k :
  (k ≤ 120)%nat →
  pollProgress k = Z.min (20 + (70 * Z.of_nat k) `div` 120) 90.
Proof.
  intros Hk. pose proof pollProgress_exact_table as Htable.
  rewrite forallb_forall in Htable.
  apply Z.eqb_eq, Htable, in_seq. lia.
Qed.

Lemma pollProgress_exact_witness :
  (119 ≤ 120)%nat ∧ pollProgress 119 = Z.min (20 + (70 * Z.of_nat 119) `div` 120) 90.
Proof.
  assert (119 ≤ 120)%nat as Hk by lia.
  split; [exact Hk|]. exact (pollProgress_exact 119 Hk).
Defined.
